(** * plumadriver: the session protocol engine, embedded in Rocq

    The development follows two source files of the repository:
    - the module of the class [Session] (the capability negotiation, the
      timeouts store and the element locator), and
    - [Browser.ts] together with [CookieValidator] (the browser options and
      the cookie store).

    JavaScript values are embedded as an inductive type, plain objects as
    association lists in insertion order (the order [Object.keys] reports),
    [throw] as the error case of a result monad, and mutable state by explicit
    state passing. *)

From Stdlib Require Import ZArith QArith Ascii.
From stdpp Require Import base option list strings pretty gmap fin_maps.

#[local] Set Warnings "-register-all".
Local Close Scope Q_scope.

(** ** JavaScript values *)

(** A JavaScript number: a finite value (every double is a rational), or one
    of the three non-finite ones. *)
Inductive number : Type :=
| Fin (q : Q)
| NaN
| PosInf
| NegInf.

(** The time value of a [Date] object, in milliseconds since the epoch;
    [None] is the time value [NaN] of an invalid date. *)
Definition timevalue : Type := option Z.

Inductive value : Type :=
| VUndefined
| VNull
| VBool (b : bool)
| VNum (n : number)
| VStr (s : string)
| VDate (t : timevalue)
| VArr (items : list value)
| VObj (fields : list (string * value)).

(** A plain object: its own enumerable properties, in insertion order.
    Two things an engine does with particular keys are left out: it lists
    keys that read as array indices before the others, and assigning to
    [__proto__] sets the prototype instead of a property. *)
Abbreviation obj := (list (string * value)).

Definition of_int (z : Z) : value := VNum (Fin (inject_Z z)).

(** ** Own properties of plain objects *)

(** [Object.keys(o)]. *)
Definition obj_keys (o : obj) : list string := o.*1.

(** The own property [k] of [o], if there is one. *)
Fixpoint obj_get (k : string) (o : obj) : option value :=
  match o with
  | [] => None
  | (k', v) :: o' => if decide (k' = k) then Some v else obj_get k o'
  end.

(** [Object.prototype.hasOwnProperty.call(o, k)]. *)
Definition obj_has (k : string) (o : obj) : bool := bool_decide (is_Some (obj_get k o)).

(** The read [o[k]] of a plain object; none of the property names read in
    this development is a property of [Object.prototype]. *)
Definition get_prop (o : obj) (k : string) : value := default VUndefined (obj_get k o).

(** The write [o[k] = v]: an existing property keeps its place, a new one is
    added last. *)
Fixpoint obj_set (k : string) (v : value) (o : obj) : obj :=
  match o with
  | [] => [(k, v)]
  | (k', v') :: o' => if decide (k' = k) then (k, v) :: o' else (k', v') :: obj_set k v o'
  end.

(** [delete o[k]]. *)
Definition obj_delete (k : string) (o : obj) : obj :=
  filter (λ kv, kv.1 ≠ k) o.

(** An object read as a finite map, forgetting the order of its keys. *)
Definition obj_map (o : obj) : gmap string value := list_to_map o.

(** ** Exceptions *)

(** The exceptions that the sources throw, catch or name. [DOMException],
    [SyntaxError] and [XPathException] are instances of the classes that
    these names denote in the scope of the module, where they denote one.
    [DocumentException] is an exception object that a document makes in its
    own realm, as the window of the rendering engine does for a selector it
    rejects: it carries a name and is an instance of none of the classes
    that the module can name. *)
Inductive error : Type :=
| InvalidArgument
| SessionNotCreated
| InternalServerError
| NoSuchWindow
| UnableToSetCookie
| UnknownError
| DOMException
| SyntaxError
| XPathException
| TypeError
| ReferenceError (identifier : string)
| PlainError (message : string)
| DocumentException (name : string).

Inductive result (A : Type) : Type :=
| Ok (a : A)
| Throw (e : error).
Arguments Ok {A} a.
Arguments Throw {A} e.

(** Sequencing: an exception skips what follows. *)
Definition bind {A B : Type} (m : result A) (k : A → result B) : result B :=
  match m with
  | Ok a => k a
  | Throw e => Throw e
  end.

Notation "'let*' x ':=' m 'in' k" := (bind m (λ x, k))
  (at level 10, x name, m at level 100, k at level 200, only parsing).

(** [l.forEach(x => ...)] with a body that updates a state or throws: the
    first exception leaves the loop. *)
Fixpoint forEach {S A : Type} (body : S → A → result S) (l : list A) (s : S) : result S :=
  match l with
  | [] => Ok s
  | x :: l' => let* s' := body s x in forEach body l' s'
  end.

(** ** Truthiness and strict equality *)

Definition number_eq (a b : number) : bool :=
  match a, b with
  | Fin p, Fin q => Qeq_bool p q
  | PosInf, PosInf | NegInf, NegInf => true
  | _, _ => false
  end.

(** [ToBoolean]: what an [if (v)] tests. *)
Definition truthy (v : value) : bool :=
  match v with
  | VUndefined | VNull => false
  | VBool b => b
  | VNum (Fin q) => negb (Qeq_bool q 0)
  | VNum NaN => false
  | VNum _ => true
  | VStr s => negb (bool_decide (s = ""))
  | VDate _ | VArr _ | VObj _ => true
  end.

(** [a === b]. Objects, arrays and dates compare by identity; wherever the
    sources compare with [===] or [!==], one side is a string or a boolean
    held by the program, so two structured values never meet. *)
Definition strict_equals (a b : value) : bool :=
  match a, b with
  | VUndefined, VUndefined | VNull, VNull => true
  | VBool x, VBool y => bool_decide (x = y)
  | VNum x, VNum y => number_eq x y
  | VStr x, VStr y => bool_decide (x = y)
  | _, _ => false
  end.

(** [Number.isInteger(v)], with the integer when it is one. *)
Definition as_integer (v : value) : option Z :=
  match v with
  | VNum (Fin q) => let r := Qred q in
                    if Pos.eqb (Qden r) 1 then Some (Qnum r) else None
  | _ => None
  end.

Definition MAX_SAFE_INTEGER : Z := 2 ^ 53 - 1.

(** ** Own properties of arbitrary values *)

(** The indexed properties of an array. *)
Definition array_entries (items : list value) : obj :=
  imap (λ i v, (pretty i, v)) items.

(** The indexed properties of a string: its characters. *)
Fixpoint string_entries (i : nat) (s : string) : obj :=
  match s with
  | EmptyString => []
  | String c s' => (pretty i, VStr (String c EmptyString)) :: string_entries (S i) s'
  end.

(** [Object.keys(v)] together with the values, for any value: [null] and
    [undefined] have no properties to list. *)
Definition own_enumerable (v : value) : result obj :=
  match v with
  | VUndefined | VNull => Throw TypeError
  | VObj o => Ok o
  | VArr items => Ok (array_entries items)
  | VStr s => Ok (string_entries 0 s)
  | VBool _ | VNum _ | VDate _ => Ok []
  end.

(** [Object.prototype.hasOwnProperty.call(v, k)] for any value. *)
Definition hasOwnProperty (v : value) (k : string) : result bool :=
  match v with
  | VUndefined | VNull => Throw TypeError
  | VObj o => Ok (obj_has k o)
  | VArr items => Ok (bool_decide (k = "length") || obj_has k (array_entries items))
  | VStr s => Ok (bool_decide (k = "length") || obj_has k (string_entries 0 s))
  | VBool _ | VNum _ | VDate _ => Ok false
  end.

(** The read [v[k]] of an own property of a value that is not [null] or
    [undefined]. *)
Definition read_own (v : value) (k : string) : value :=
  match v with
  | VObj o => get_prop o k
  | VArr items => get_prop (array_entries items) k
  | VStr s => get_prop (string_entries 0 s) k
  | _ => VUndefined
  end.

(** ** Strings *)

Definition lower_ascii (c : ascii) : ascii :=
  let n := nat_of_ascii c in
  if (65 <=? n)%nat && (n <=? 90)%nat then ascii_of_nat (n + 32) else c.

(** [s.toLowerCase()] on the ASCII letters. *)
Fixpoint toLowerCase (s : string) : string :=
  match s with
  | EmptyString => EmptyString
  | String c s' => String (lower_ascii c) (toLowerCase s')
  end.

Definition is_white_space (c : ascii) : bool :=
  let n := nat_of_ascii c in
  ((9 <=? n)%nat && (n <=? 13)%nat) || (n =? 32)%nat.

Fixpoint trim_start (s : string) : string :=
  match s with
  | String c s' => if is_white_space c then trim_start s' else s
  | EmptyString => EmptyString
  end.

Fixpoint trim_end (s : string) : string :=
  match s with
  | EmptyString => EmptyString
  | String c s' =>
      match trim_end s' with
      | EmptyString => if is_white_space c then EmptyString else String c EmptyString
      | rest => String c rest
      end
  end.

(** [s.trim()]. *)
Definition trim (s : string) : string := trim_end (trim_start s).

(** [s.includes(t)]. *)
Definition includes (s t : string) : bool := bool_decide (is_Some (String.index 0 t s)).

(** [s.substr(0, s.indexOf(c))]: the empty string when [c] does not occur. *)
Definition before_first (c s : string) : string :=
  match String.index 0 c s with
  | Some n => String.substring 0 n s
  | None => ""
  end.

(** ** The JavaScript runtime

    What the sources leave to the engine they run on. *)
Record Runtime : Type := {
  (** [String(Date.prototype.getTime)], the source text of a built-in. *)
  getTime_source : string;
  (** [ToString] of a value. *)
  to_string : value → string;
  (** [Date.parse]: the time value of a date string, [NaN] when the engine
      does not recognise it. *)
  date_parse : string → timevalue;
  (** Whether an identifier that the module itself does not declare is bound
      in the global scope. *)
  global_defined : string → bool;
  (** [os.platform()]. *)
  os_platform : string;
}.

(** [Math.trunc] of a rational. *)
Definition Qtrunc (q : Q) : Z := Z.quot (Qnum q) (Z.pos (Qden q)).

(** [TimeClip]. *)
Definition time_clip (z : Z) : timevalue :=
  if bool_decide (Z.abs z ≤ 8640000000000000)%Z then Some z else None.

(** The time value of [new Date(v)]. *)
Definition Date_new (rt : Runtime) (v : value) : timevalue :=
  match v with
  | VUndefined => None
  | VNull => Some 0%Z
  | VBool b => Some (if b then 1 else 0)%Z
  | VNum (Fin q) => time_clip (Qtrunc q)
  | VNum _ => None
  | VStr s => date_parse rt s
  | VDate t => t
  | VArr _ | VObj _ => date_parse rt (to_string rt v)
  end.

(** [d.getTime()] as a number. *)
Definition getTime (t : timevalue) : value :=
  match t with
  | Some z => of_int z
  | None => VNum NaN
  end.

(** [a > b] on two dates: false as soon as one time value is [NaN]. *)
Definition date_gt (a b : timevalue) : bool :=
  match a, b with
  | Some x, Some y => bool_decide (y < x)%Z
  | _, _ => false
  end.

(** ** Session.mergeCapabilities *)

Definition mergeCapabilities (primary : obj) (secondary : option obj) : result obj :=
  let result := foldl (λ result key, obj_set key (get_prop primary key) result)
                      [] (obj_keys primary) in
  match secondary with
  | None => Ok result
  | Some secondary =>
      forEach (λ result property,
                 if obj_has property primary then Throw InvalidArgument
                 else Ok (obj_set property (get_prop secondary property) result))
              (obj_keys secondary) result
  end.

(** ** The document, as the locator sees it *)

Record Element : Type := {
  localName : string;
  innerHTML : string;
}.

(** A node to search from: the two queries of the rendering engine that the
    locator calls, each with the elements it yields in document order.
    Either may throw. What the two hand back differs: [querySelectorAll]
    a NodeList, [getElementsByTagName] an HTMLCollection. *)
Record Node : Type := {
  querySelectorAll : string → result (list Element);
  getElementsByTagName : string → result (list Element);
}.

(** [new WebElement(x)]; the class is not among the sources, and a handle is
    modelled by what it wraps. The locator wraps whatever the strategy
    produced: an element of the document or, when the strategy hands back
    the array of handles itself, one of the handles in it. *)
Inductive WebElement : Type :=
| WebElement_new (element : Element)
| WebElement_of_handle (handle : WebElement).

(** ** The session *)

Record Session : Type := {
  id : string;
  timeouts : obj;
  pageLoadStrategy : string;
  webDriverActive : bool;
  (** [this.browser.knownElements] *)
  knownElements : list WebElement;
}.

(** [new Session()]. *)
Definition Session_new : Session := {|
  id := "";
  timeouts := [("implicit", of_int 0); ("pageLoad", of_int 30000); ("script", of_int 3000)];
  pageLoadStrategy := "normal";
  webDriverActive := false;
  knownElements := [];
|}.

Definition with_timeouts (this : Session) (t : obj) : Session := {|
  id := id this;
  timeouts := t;
  pageLoadStrategy := pageLoadStrategy this;
  webDriverActive := webDriverActive this;
  knownElements := knownElements this;
|}.

Definition with_knownElements (this : Session) (k : list WebElement) : Session := {|
  id := id this;
  timeouts := timeouts this;
  pageLoadStrategy := pageLoadStrategy this;
  webDriverActive := webDriverActive this;
  knownElements := k;
|}.

(** ** Session.setTimeouts *)

(** Modelled from the spec: [CapabilityValidator.validateTimeouts] is not
    among the sources. The spec has every present field validated on its own:
    it "must be an integer in [0, 2^53-1]". *)
Definition validateTimeouts_spec (key : string) (v : value) : bool :=
  match as_integer v with
  | Some z => bool_decide (0 ≤ z ≤ MAX_SAFE_INTEGER)%Z
  | None => false
  end.

Section timeouts.
(** [capabilityValidator.validateTimeouts(key, value)]. *)
Variable validateTimeouts : string → value → bool.

(** The session after the call, and how the call ended. The first loop only
    validates; the second one only assigns. *)
Definition setTimeouts (this : Session) (timeouts_arg : obj) : result unit * Session :=
  match forEach (λ (valid : bool) key,
                   let valid := validateTimeouts key (get_prop timeouts_arg key) in
                   if negb valid then Throw InvalidArgument else Ok valid)
                (obj_keys timeouts_arg) true with
  | Throw e => (Throw e, this)
  | Ok _ =>
      (Ok (),
       foldl (λ this validTimeout,
                with_timeouts this
                  (obj_set validTimeout (get_prop timeouts_arg validTimeout) (timeouts this)))
             this (obj_keys timeouts_arg))
  end.

(** [getTimeouts()]. *)
Definition getTimeouts (this : Session) : obj := timeouts this.
End timeouts.

(** ** Session.matchCapabilities *)

Section capabilities.
Variable rt : Runtime.
(** [capabilityValidator.validate(value, key)]; the validator is not among
    the sources. *)
Variable validate : value → string → bool.

(** [None] is the [null] the function returns for a set that does not
    match. *)
Definition matchCapabilities (capabilties : obj) : result (option obj) :=
  let matchedCapabilities : obj :=
    [("browserName", VStr "pluma");
     ("browserVersion", VStr "v1.0");
     ("platformName", VStr (os_platform rt));
     ("acceptInsecureCerts", VBool false);
     ("setWindowRect", VBool false)] in
  let* final :=
    forEach (λ (st : bool * obj) property,
               let '(flag, matchedCapabilities) := st in
               let* flag' :=
                 (if bool_decide (property = "browserName")
                     || bool_decide (property = "platformName")
                  then
                    Ok (if negb (strict_equals (get_prop capabilties property)
                                               (get_prop matchedCapabilities property))
                        then false else flag)
                  else if bool_decide (property = "browserVersion") then
                    Ok (if negb (strict_equals (get_prop capabilties property)
                                               (get_prop matchedCapabilities property))
                        then false else flag)
                  else if bool_decide (property = "setWindowRect") then
                    if truthy (get_prop capabilties property)
                    then Throw InvalidArgument else Ok flag
                  else Ok flag) in
               Ok (flag',
                   if flag' : bool
                   then obj_set property (get_prop capabilties property) matchedCapabilities
                   else matchedCapabilities))
            (obj_keys capabilties) (true, matchedCapabilities) in
  Ok (if final.1 then Some final.2 else None).

(** ** Session.processCapabilities *)

Definition defaultCapabilities : list string :=
  ["acceptInsecureCerts"; "browserName"; "browserVersion"; "platformName";
   "pageLoadStrategy"; "proxy"; "timeouts"; "unhandledPromptBehaviour"].

(** [v.constructor !== Object] for a value that came in as JSON: only a
    plain object without a property of its own named [constructor] has
    [Object] there. *)
Definition constructor_is_not_Object (v : value) : result bool :=
  match v with
  | VUndefined | VNull => Throw TypeError
  | VObj o => Ok (obj_has "constructor" o)
  | _ => Ok true
  end.

(** [v.constructor.name.toLowerCase()]. *)
Definition constructor_name_lower (v : value) : result string :=
  match v with
  | VUndefined | VNull => Throw TypeError
  | VBool _ => Ok "boolean"
  | VNum _ => Ok "number"
  | VStr _ => Ok "string"
  | VDate _ => Ok "date"
  | VArr _ => Ok "array"
  | VObj o =>
      match obj_get "constructor" o with
      | None => Ok "object"
      | Some (VObj c) =>
          match obj_get "name" c with
          | Some (VStr n) => Ok (toLowerCase n)
          | _ => Throw TypeError
          end
      | Some _ => Throw TypeError
      end
  end.

(** [v.length === 0]. *)
Definition length_is_zero (v : value) : bool :=
  match v with
  | VArr items => bool_decide (items = [])
  | VStr s => bool_decide (s = "")
  | VObj o => strict_equals (get_prop o "length") (of_int 0)
  | _ => false
  end.

(** The validation of [alwaysMatch]: only the keys of
    [defaultCapabilities] are looked at, and one that fails throws. *)
Definition validate_alwaysMatch (alwaysMatch : value) : result obj :=
  if strict_equals alwaysMatch VUndefined then Ok []
  else
    forEach (λ (requiredCapabilities : obj) key,
               let* has := hasOwnProperty alwaysMatch key in
               if has : bool then
                 let validatedCapability := validate (read_own alwaysMatch key) key in
                 if validatedCapability
                 then Ok (obj_set key (read_own alwaysMatch key) requiredCapabilities)
                 else Throw InvalidArgument
               else Ok requiredCapabilities)
            defaultCapabilities [].

(** The validation of one [firstMatch] entry: every key of the entry is
    looked at, and one that fails is left out. *)
Definition validate_firstMatch_entry (indexedFirstMatchCapability : value) : result obj :=
  let* entries := own_enumerable indexedFirstMatchCapability in
  Ok (foldl (λ validatedFirstMatchCapability key,
               let validatedCapability :=
                 validate (read_own indexedFirstMatchCapability key) key in
               if validatedCapability
               then obj_set key (read_own indexedFirstMatchCapability key)
                      validatedFirstMatchCapability
               else validatedFirstMatchCapability)
            [] (obj_keys entries)).

(** The last loop of [processCapabilities]: [None] is the [undefined] that
    [matchedCapabilities] holds before the first entry. *)
Definition match_all (mergedCapabilities : list obj) : result (option obj) :=
  forEach (λ (matchedCapabilities : option obj) capabilites,
             let* matchedCapabilities := matchCapabilities capabilites in
             match matchedCapabilities with
             | None => Throw SessionNotCreated
             | Some m => Ok (Some m)
             end)
          mergedCapabilities None.

Definition processCapabilities (request : value) : result (option obj) :=
  let* capabiltiesRequest := hasOwnProperty request "capabilities" in
  (* !capabiltiesRequest || request.capabilities.constructor !== Object
     || Object.keys(request.capabilities).length === 0 *)
  let* invalid :=
    (if negb capabiltiesRequest then Ok true
     else
       let* other := constructor_is_not_Object (read_own request "capabilities") in
       if other : bool then Ok true
       else
         let* keys := own_enumerable (read_own request "capabilities") in
         Ok (bool_decide (length (obj_keys keys) = 0))) in
  if invalid : bool then Throw InvalidArgument
  else
    let capabilities := read_own request "capabilities" in
    (* validate alwaysMatch capabilties *)
    let* requiredCapabilities := validate_alwaysMatch (read_own capabilities "alwaysMatch") in
    (* validate first match capabilities *)
    let allMatchedCapabilities := read_own capabilities "firstMatch" in
    let* allMatchedCapabilities :=
      (if strict_equals allMatchedCapabilities VUndefined then Ok [VObj []]
       else
         let* name := constructor_name_lower allMatchedCapabilities in
         if negb (bool_decide (name = "array")) || length_is_zero allMatchedCapabilities
         then Throw InvalidArgument
         else match allMatchedCapabilities with
              | VArr items => Ok items
              | _ => Throw TypeError
              end) in
    let* validatedFirstMatchCapabilties :=
      forEach (λ (validated : list obj) indexedFirstMatchCapability,
                 let* validatedFirstMatchCapability :=
                   validate_firstMatch_entry indexedFirstMatchCapability in
                 Ok (validated ++ [validatedFirstMatchCapability]))
              allMatchedCapabilities [] in
    (* attempt merging capabilities *)
    let* mergedCapabilities :=
      forEach (λ (mergedCapabilities : list obj) firstMatch,
                 let* merged := mergeCapabilities requiredCapabilities (Some firstMatch) in
                 Ok (mergedCapabilities ++ [merged]))
              validatedFirstMatchCapabilties [] in
    match_all mergedCapabilities.
End capabilities.

(** ** Session.elementRetrieval *)

#[export] Instance error_eq_dec : EqDecision error.
Proof. solve_decision. Defined.

(** What the variable [elements] holds: nothing yet, the NodeList of
    [querySelectorAll], the HTMLCollection of [getElementsByTagName], or the
    array [result] of the call. A NodeList has [length] and [forEach]; an
    HTMLCollection has [length] and no [forEach]. *)
Inductive elements_ref : Type :=
| ElementsUndefined
| ElementsCollection (found : list Element)
| ElementsLive (found : list Element)
| ElementsResult.

(** What a call did besides computing its result: how often it read the
    clock ([new Date()]) and how many times the body of its loop ran. *)
Record Trace : Type := {
  clock_reads : nat;
  iterations : nat;
}.

Section locator.
Variable rt : Runtime.
(** The clock: [clock k] is the time of the [k]-th [new Date()] of the
    call, counted from 0. *)
Variable clock : nat → Z.

Section strategies.
Variables (startNode : Node) (strategy selector : string).

Definition cssSelector : result elements_ref :=
  let* found := querySelectorAll startNode selector in
  Ok (ElementsCollection found).

(** The strategy collects the links in [strategyResult] and returns
    [result], the array of the enclosing function. *)
Definition linkTextSelector (partial : bool) : result elements_ref :=
  let* linkElements := querySelectorAll startNode "a" in
  let strategyResult :=
    foldl (λ (strategyResult : list Element) element,
             let renderedText := innerHTML element in
             if negb partial && bool_decide (trim renderedText = selector)
             then strategyResult ++ [element]
             else if partial && includes renderedText selector
             then strategyResult ++ [element]
             else strategyResult)
          [] linkElements in
  Ok ElementsResult.

Definition tagName : result elements_ref :=
  let* found := getElementsByTagName startNode selector in
  Ok (ElementsLive found).

(** The [switch] of the loop body; [xpath] assigns nothing. *)
Definition switch_strategy (elements : elements_ref) : result elements_ref :=
  if bool_decide (strategy = "css selector") then cssSelector
  else if bool_decide (strategy = "link text") then linkTextSelector false
  else if bool_decide (strategy = "partial link text") then linkTextSelector true
  else if bool_decide (strategy = "tag name") then tagName
  else if bool_decide (strategy = "xpath") then Ok elements
  else Throw InvalidArgument.

Definition instance_of (e cls : error) : bool := bool_decide (e = cls).

(** The [catch] clause: what it throws for the exception it caught. The
    module declares none of [DOMException], [XPathException] and
    [UnknownError], so each is looked up in the global scope when its
    turn comes; [SyntaxError] is a built-in. *)
Definition catch_clause (caught : error) : error :=
  if negb (global_defined rt "DOMException") then ReferenceError "DOMException"
  else if instance_of caught DOMException then PlainError "invalid selector"
  else if instance_of caught SyntaxError then PlainError "invalid selector"
  else if negb (global_defined rt "XPathException") then ReferenceError "XPathException"
  else if instance_of caught XPathException then PlainError "invalid selector"
  else if negb (global_defined rt "UnknownError") then ReferenceError "UnknownError"
  else UnknownError.

Definition try_strategy (elements : elements_ref) : result elements_ref :=
  match switch_strategy elements with
  | Ok elements' => Ok elements'
  | Throw caught => Throw (catch_clause caught)
  end.

(** [elements.length]. *)
Definition elements_length (result_array : list WebElement) (elements : elements_ref)
  : result nat :=
  match elements with
  | ElementsUndefined => Throw TypeError
  | ElementsCollection found => Ok (length found)
  | ElementsLive found => Ok (length found)
  | ElementsResult => Ok (length result_array)
  end.

(** The [do ... while] loop, with a bound on the number of iterations:
    [None] when the bound is reached. *)
Fixpoint retry (fuel : nat) (endTime : timevalue) (result_array : list WebElement)
    (elements : elements_ref) (tr : Trace) : option (result elements_ref * Trace) :=
  match fuel with
  | O => None
  | S fuel' =>
      let tr := {| clock_reads := clock_reads tr; iterations := S (iterations tr) |} in
      match try_strategy elements with
      | Throw e => Some (Throw e, tr)
      | Ok elements =>
          (* endTime > new Date() && elements.length < 1 *)
          let now := clock (clock_reads tr) in
          let tr := {| clock_reads := S (clock_reads tr); iterations := iterations tr |} in
          if date_gt endTime (Some now) then
            match elements_length result_array elements with
            | Throw e => Some (Throw e, tr)
            | Ok n =>
                if (n <? 1)%nat
                then retry fuel' endTime result_array elements tr
                else Some (Ok elements, tr)
            end
          else Some (Ok elements, tr)
      end
  end.

(** [new Date(new Date().getTime + this.timeouts.implicit)]: the method
    is named but not called, so [+] joins its source text and the
    timeout, and the date is parsed from that string. *)
Definition endTime_of (this : Session) : timevalue :=
  let constructed := clock 0 in
  Date_new rt (VStr (getTime_source rt
                     +:+ to_string rt (get_prop (timeouts this) "implicit"))).

Definition elementRetrieval (fuel : nat) (this : Session)
  : option (result (list WebElement) * Session * Trace) :=
  let endTime := endTime_of this in
  let result_array : list WebElement := [] in
  match retry fuel endTime result_array ElementsUndefined
              {| clock_reads := 1; iterations := 0 |} with
  | None => None
  | Some (Throw e, tr) => Some (Throw e, this, tr)
  | Some (Ok elements, tr) =>
      match elements with
      | ElementsUndefined => Some (Throw TypeError, this, tr)
      | ElementsCollection found =>
          let handles := WebElement_new <$> found in
          Some (Ok (result_array ++ handles),
                with_knownElements this (knownElements this ++ handles), tr)
      | ElementsLive _ =>
          (* [elements.forEach] is not a function *)
          Some (Throw TypeError, this, tr)
      | ElementsResult =>
          (* [forEach] visits what the array held when it started *)
          let handles := WebElement_of_handle <$> result_array in
          Some (Ok (result_array ++ handles),
                with_knownElements this (knownElements this ++ handles), tr)
      end
  end.
End strategies.
End locator.

(** ** Browser: the options of the constructor *)

Definition browserOptions_defaults : obj :=
  [("runScripts", VStr "");
   ("strictSSL", VBool true);
   ("unhandledPromptBehaviour", VStr "dismiss and notify");
   ("rejectPublicSuffixes", VBool false)].

(** The [browserOptions] that the constructor hands to [BrowserConfig]. *)
Definition Browser_browserOptions (capabilities : obj) : obj :=
  foldl (λ browserOptions option,
           if truthy (get_prop capabilities option)
           then obj_set option (get_prop capabilities option) browserOptions
           else browserOptions)
        browserOptions_defaults (obj_keys browserOptions_defaults).

(** ** CookieValidator *)

(** Modelled from the spec: [isString] and [isBoolean] of the utilities are
    not among the sources. The spec has the name and the value of a cookie
    be strings, and [secure] and [httpOnly] booleans. *)
Definition isString (v : value) : bool := match v with VStr _ => true | _ => false end.

Definition isBoolean (v : value) : bool := match v with VBool _ => true | _ => false end.

Definition isValidName (name : value) : bool :=
  isString name && negb (strict_equals name (VStr "")).

Definition isValidValue (v : value) : bool := isString v.

Definition isValidSecure (secure : value) : bool :=
  strict_equals secure VUndefined || isBoolean secure.

Definition isValidHttpOnly (httpOnly : value) : bool :=
  strict_equals httpOnly VUndefined || isBoolean httpOnly.

Definition isValidExpiry (expiry : value) : bool :=
  strict_equals expiry VUndefined
  || match as_integer expiry with
     | Some z => bool_decide (0 ≤ z)%Z && bool_decide (z ≤ MAX_SAFE_INTEGER)%Z
     | None => false
     end.

Definition isValidCookie (cookie : obj) : bool :=
  let name := get_prop cookie "name" in
  let value := get_prop cookie "value" in
  let httpOnly := get_prop cookie "httpOnly" in
  let secure := get_prop cookie "secure" in
  let expiry := get_prop cookie "expiry" in
  if negb (isValidName name) || negb (isValidValue value) then false
  else isValidHttpOnly httpOnly && isValidSecure secure && isValidExpiry expiry.

(** ** Browser: the cookie store *)

(** The spread [{...base, ...extra}] onto an object under construction. *)
Definition obj_spread (base extra : obj) : obj :=
  foldl (λ acc kv, obj_set kv.1 kv.2 acc) base extra.

(** Modelled from the spec: the cookie jar ([jsdom_extensions/tough-cookie])
    is not among the sources. The spec has [addCookie] write a cookie to the
    jar and [getCookies] serialise the entire jar, each cookie with the jar's
    internal key field, its internal expiration field and bookkeeping fields
    such as the creation time. A stored cookie is modelled as the object of
    its fields; the jar holds one cookie per domain, path and key. *)
Definition Cookie_new (creation : value) (options : obj) : obj :=
  obj_set "creation" creation (obj_spread [] options).

Definition same_cookie (a b : obj) : bool :=
  strict_equals (get_prop a "domain") (get_prop b "domain")
  && strict_equals (get_prop a "path") (get_prop b "path")
  && strict_equals (get_prop a "key") (get_prop b "key").

Fixpoint putCookie (jar : list obj) (cookie : obj) : list obj :=
  match jar with
  | [] => [cookie]
  | c :: jar' => if same_cookie c cookie then cookie :: jar' else c :: putCookie jar' cookie
  end.

Definition serialize (jar : list obj) : list obj := jar.

Record Browser : Type := {
  (** whether [this.dom.window] is there *)
  window_open : bool;
  (** [this.dom.window.document.URL] *)
  document_URL : string;
  (** [this.dom.cookieJar] *)
  cookieJar : list obj;
}.

Section cookies.
Variable rt : Runtime.
(** [Utils.extractDomainFromUrl]; the utilities are not among the sources. *)
Variable extractDomainFromUrl : string → string.
(** The creation time that the jar stamps on a cookie. *)
Variable creation : value.

Definition getUrl (this : Browser) : string := document_URL this.

Definition createCookieJarOptions (cookie : obj) (activeDomain : string) : obj :=
  let OPTIONAL_FIELD_DEFAULTS : obj :=
    [("domain", VStr activeDomain);
     ("path", VStr "/");
     ("secure", VBool false);
     ("httpOnly", VBool false)] in
  obj_spread (obj_spread [] OPTIONAL_FIELD_DEFAULTS) cookie.

(** [domain.replace(/^\./, '')]. *)
Definition strip_dot (domain : string) : string :=
  match domain with
  | String "." rest => rest
  | _ => domain
  end.

Definition cloneCookieWithoutDomainDotPrefix (cookie : obj) : result obj :=
  match get_prop cookie "domain" with
  | VStr domain => Ok (obj_set "domain" (VStr (strip_dot domain)) (obj_spread [] cookie))
  | _ => Throw TypeError
  end.

(** [cookie.domain && cookie.domain.charAt(0) === '.'], as a condition:
    only a string has [charAt]. *)
Definition isCookieDomainDotPrefixed (cookie : obj) : result bool :=
  match get_prop cookie "domain" with
  | VStr domain => Ok (truthy (VStr domain)
                       && bool_decide (String.substring 0 1 domain = "."))
  | domain => if truthy domain then Throw TypeError else Ok false
  end.

Definition isValidScheme (scheme : string) : bool :=
  let VALID_SCHEMES := ["http"; "https"; "ftp"; "about"] in
  bool_decide (scheme ∈ VALID_SCHEMES).

Definition with_cookieJar (this : Browser) (jar : list obj) : Browser := {|
  window_open := window_open this;
  document_URL := document_URL this;
  cookieJar := jar;
|}.

(** The object given to [new Cookie]. The literal spreads an array, which
    adds the elements of the array under their indices. *)
Definition cookie_options (jarOptions : obj) : obj :=
  let key := get_prop jarOptions "name" in
  let expires := get_prop jarOptions "expiry" in
  let remainingFields :=
    filter (λ kv, kv.1 ≠ "name" ∧ kv.1 ≠ "expiry") jarOptions in
  obj_spread
    (obj_spread [("key", key)]
       (if truthy expires then array_entries [VDate (Date_new rt expires)] else []))
    remainingFields.

Definition addCookie (this : Browser) (cookie : obj) : result Browser :=
  if negb (window_open this) then Throw NoSuchWindow
  else
    let activeUrl := getUrl this in
    let activeDomain := extractDomainFromUrl activeUrl in
    let scheme := before_first ":" activeUrl in
    if negb (isValidScheme scheme) then Throw InvalidArgument
    else
      let* prefixed := isCookieDomainDotPrefixed cookie in
      let* shallowClonedCookie :=
        (if prefixed : bool then cloneCookieWithoutDomainDotPrefix cookie
         else Ok (obj_spread [] cookie)) in
      if negb (isValidCookie shallowClonedCookie) then Throw InvalidArgument
      else
        let jarOptions := createCookieJarOptions shallowClonedCookie activeDomain in
        Ok (with_cookieJar this
              (putCookie (cookieJar this)
                 (Cookie_new creation (cookie_options jarOptions)))).

(** One record of [getCookies], from one serialised cookie. *)
Definition convert_cookie (cookie : obj) : obj :=
  let currentCookie : obj := [("name", VStr ""); ("value", VStr "")] in
  let currentCookie :=
    foldl (λ currentCookie key,
             (* renames 'key' property to 'name' *)
             if bool_decide (key = "key")
             then obj_set "name" (get_prop cookie key) currentCookie
             else if bool_decide (key = "expires") then
               let seconds := getTime (Date_new rt (get_prop currentCookie key)) in
               obj_set "expiry" seconds currentCookie
             else obj_set key (get_prop cookie key) currentCookie)
          currentCookie (obj_keys cookie) in
  obj_delete "creation" currentCookie.

Definition getCookies (this : Browser) : list obj :=
  foldl (λ cookies cookie, cookies ++ [convert_cookie cookie])
        [] (serialize (cookieJar this)).
End cookies.

(** ** Session.configureCapabilties and Session.configureSession *)

Definition with_pageLoadStrategy (this : Session) (s : string) : Session := {|
  id := id this;
  timeouts := timeouts this;
  pageLoadStrategy := s;
  webDriverActive := webDriverActive this;
  knownElements := knownElements this;
|}.

Definition with_id (this : Session) (i : string) : Session := {|
  id := i;
  timeouts := timeouts this;
  pageLoadStrategy := pageLoadStrategy this;
  webDriverActive := webDriverActive this;
  knownElements := knownElements this;
|}.

(** One of the three steps
    [if (hasOwnProperty.call(capabilities.timeouts, field))
       this.timeouts[field] = capabilities.timeouts[field]],
    with the session it leaves. *)
Definition apply_timeout (requested : value) (field : string) (this : Session)
  : result unit * Session :=
  match hasOwnProperty requested field with
  | Throw e => (Throw e, this)
  | Ok has =>
      (Ok (),
       if has : bool
       then with_timeouts this (obj_set field (read_own requested field) (timeouts this))
       else this)
  end.

(** The three steps in the order of the source: implicit, script,
    pageLoad. *)
Definition apply_timeouts (requested : value) (this : Session) : result unit * Session :=
  match apply_timeout requested "implicit" this with
  | (Throw e, this) => (Throw e, this)
  | (Ok _, this) =>
      match apply_timeout requested "script" this with
      | (Throw e, this) => (Throw e, this)
      | (Ok _, this) => apply_timeout requested "pageLoad" this
      end
  end.

(** [configure pageLoadStrategy]: the session takes the resolved strategy
    when that is a string of the capabilities' own, and the capabilities
    take "normal" otherwise. *)
Definition configure_pageLoadStrategy (this : Session) (capabilities : obj)
  : Session * obj :=
  let this := with_pageLoadStrategy this "normal" in
  match obj_has "pageLoadStrategy" capabilities,
        get_prop capabilities "pageLoadStrategy" with
  | true, VStr strategy => (with_pageLoadStrategy this strategy, capabilities)
  | _, _ => (this, obj_set "pageLoadStrategy" (VStr "normal") capabilities)
  end.

Section configure.
Variable rt : Runtime.
Variable validate : value → string → bool.

(** The session after the call, and how the call ended. [processCapabilities]
    returns an object or [undefined], which is not [null]: the check for
    [null] lets both through. *)
Definition configureCapabilties (this : Session) (request : value)
  : result obj * Session :=
  match processCapabilities rt validate request with
  | Throw e => (Throw e, this)
  | Ok None =>
      (* hasOwnProperty.call(undefined, 'pageLoadStrategy') *)
      (Throw TypeError, with_pageLoadStrategy this "normal")
  | Ok (Some capabilities) =>
      let '(this, capabilities) := configure_pageLoadStrategy this capabilities in
      let capabilities :=
        if obj_has "proxy" capabilities then capabilities
        else obj_set "proxy" (VObj []) capabilities in
      let '(applied, this) :=
        if obj_has "timeouts" capabilities
        then apply_timeouts (get_prop capabilities "timeouts") this
        else (Ok (), this) in
      match applied with
      | Throw e => (Throw e, this)
      | Ok _ =>
          let configuredTimeouts : obj :=
            [("implicit", get_prop (timeouts this) "implicit");
             ("pageLoad", get_prop (timeouts this) "pageLoad");
             ("script", get_prop (timeouts this) "script")] in
          (Ok (obj_set "timeouts" (VObj configuredTimeouts) capabilities), this)
      end
  end.

(** [uuid] is what [uuidv1()] returns in this call. A new browser knows no
    element. *)
Definition configureSession (uuid : string) (this : Session) (requestedCapabilities : value)
  : result obj * Session :=
  let this := with_id this uuid in
  match configureCapabilties this requestedCapabilities with
  | (Throw e, this) => (Throw e, this)
  | (Ok configuredCapabilities, this) =>
      let this := with_knownElements this [] in
      let body : obj :=
        [("sessionId", VStr (id this));
         ("capabilities", VObj configuredCapabilities)] in
      (Ok body, this)
  end.
End configure.

(** ** Browser: lookups *)

(** The exceptions of the lookups of [Browser.ts], beside the ones above. *)
Inductive lookup_error : Type :=
| NoSuchCookie
| NoSuchElement
| Other (e : error).

Inductive answer (A : Type) : Type :=
| Answer (a : A)
| Raise (e : lookup_error).
Arguments Answer {A} a.
Arguments Raise {A} e.

Section known_elements.
(** [element[ELEMENT]], the identifier that a handle carries; neither the
    class of the handles nor the constant is among the sources. *)
Variable ELEMENT_of : WebElement → value.

(** The loop goes through the whole list and keeps the last element it
    finds. *)
Definition getKnownElement (known : list WebElement) (elementId : string)
  : answer WebElement :=
  let foundElement :=
    foldl (λ (foundElement : option WebElement) element,
             if strict_equals (ELEMENT_of element) (VStr elementId)
             then Some element else foundElement)
          None known in
  match foundElement with
  | None => Raise NoSuchElement
  | Some element => Answer element
  end.
End known_elements.

(** What [new URL(s)] gives that [isAssociatedCookie] reads. *)
Record URL : Type := {
  pathname : string;
  hostname : string;
}.

(** [l.find(pred)] with a predicate that may throw. *)
Fixpoint find_first {A : Type} (pred : A → result bool) (l : list A) : result (option A) :=
  match l with
  | [] => Ok None
  | x :: l' =>
      let* found := pred x in
      if found : bool then Ok (Some x) else find_first pred l'
  end.

Section named_cookies.
Variable rt : Runtime.
(** [new URL(s)]: a TypeError for a string that is no URL. *)
Variable URL_new : string → result URL.
(** [new RegExp(source).test(s)]: a SyntaxError for a source that is no
    pattern. *)
Variable RegExp_test : string → string → result bool.

(** The path of the cookie is spliced into a pattern, the domain is looked
    for in the host name. *)
Definition isAssociatedCookie (this : Browser) (cookie : obj) : result bool :=
  let path := get_prop cookie "path" in
  let domain := get_prop cookie "domain" in
  let* url := URL_new (document_URL this) in
  let* matched := RegExp_test ("^" +:+ to_string rt path) (pathname url) in
  if matched : bool then Ok (includes (hostname url) (to_string rt domain))
  else Ok false.

Definition getNamedCookie (this : Browser) (requestedName : string) : answer obj :=
  match find_first
          (λ cookie,
             if strict_equals (get_prop cookie "name") (VStr requestedName)
             then isAssociatedCookie this cookie
             else Ok false)
          (getCookies rt this) with
  | Throw e => Raise (Other e)
  | Ok None => Raise NoSuchCookie
  | Ok (Some requestedCookie) => Answer requestedCookie
  end.
End named_cookies.

(** ** Auxiliary definitions

    The bodies of the loops, named, and the notions in which the properties
    below are stated. *)

(** How two calls of [mergeCapabilities] compare: the same exception, or
    results that hold the same value under every key. *)
Definition merge_agree (x y : result obj) : Prop :=
  match x, y with
  | Ok r, Ok r' => obj_map r = obj_map r'
  | Throw e, Throw e' => e = e'
  | _, _ => False
  end.

(** The body of the second loop of [mergeCapabilities]. *)
Definition merge_step (A F : obj) : obj → string → result obj :=
  λ result property,
    if obj_has property A then Throw InvalidArgument
    else Ok (obj_set property (get_prop F property) result).

(** What the spec asks of a timeout: an integer in [0, 2^53 - 1]. *)
Definition valid_timeout (v : value) : Prop :=
  ∃ z, as_integer v = Some z ∧ (0 ≤ z ≤ 2 ^ 53 - 1)%Z.

(** The bodies of the two loops of [setTimeouts]. *)
Definition validate_step (V : string → value → bool) (t : obj)
  : bool → string → result bool :=
  λ _ key, let valid := V key (get_prop t key) in
           if negb valid then Throw InvalidArgument else Ok valid.

Definition assign_step (t : obj) : Session → string → Session :=
  λ this validTimeout,
    with_timeouts this (obj_set validTimeout (get_prop t validTimeout) (timeouts this)).

(** The body of the inner loop of [getCookies]. *)
Definition convert_step (rt : Runtime) (cookie : obj) : obj → string → obj :=
  λ currentCookie key,
    if bool_decide (key = "key")
    then obj_set "name" (get_prop cookie key) currentCookie
    else if bool_decide (key = "expires") then
      let seconds := getTime (Date_new rt (get_prop currentCookie key)) in
      obj_set "expiry" seconds currentCookie
    else obj_set key (get_prop cookie key) currentCookie.

(** The defaults of [createCookieJarOptions]. *)
Definition cookie_defaults (activeDomain : string) : obj :=
  [("domain", VStr activeDomain); ("path", VStr "/");
   ("secure", VBool false); ("httpOnly", VBool false)].

(** The fields that [addCookie] passes on under their own name. *)
Definition kept_field (k : string) : Prop := k ≠ "name" ∧ k ≠ "expiry".

#[export] Instance kept_field_dec k : Decision (kept_field k).
Proof. unfold kept_field. apply _. Defined.

(** ** Sample data for the examples *)

(** A runtime: its date parser recognises nothing, it binds none of the
    identifiers it is asked about, and it prints integers in decimal. *)
Definition sample_runtime : Runtime := {|
  getTime_source := "function getTime() { [native code] }";
  to_string := λ v, match v with
                    | VStr s => s
                    | _ => match as_integer v with Some z => pretty z | None => "" end
                    end;
  date_parse := λ _, None;
  global_defined := λ _, false;
  os_platform := "linux";
|}.

(** A validator: it checks the type of the capabilities it knows and lets
    every other key through. *)
Definition sample_validate (v : value) (key : string) : bool :=
  if bool_decide (key = "acceptInsecureCerts") then isBoolean v
  else if bool_decide (key ∈ ["browserName"; "browserVersion"; "platformName";
                              "pageLoadStrategy"])
  then isString v
  else true.

(** [{capabilities: {firstMatch: entries}}] *)
Definition request_firstMatch (entries : list value) : value :=
  VObj [("capabilities", VObj [("firstMatch", VArr entries)])].

(** [{capabilities: {alwaysMatch: always}}] *)
Definition request_alwaysMatch (always : obj) : value :=
  VObj [("capabilities", VObj [("alwaysMatch", VObj always)])].

(** What [matchCapabilities] starts from. *)
Definition implementation_capabilities (rt : Runtime) : obj :=
  [("browserName", VStr "pluma");
   ("browserVersion", VStr "v1.0");
   ("platformName", VStr (os_platform rt));
   ("acceptInsecureCerts", VBool false);
   ("setWindowRect", VBool false)].

(** A document with one link, [<a>foo</a>]; its selector engine knows the
    selector [a] and finds nothing for any other. *)
Definition sample_anchor : Element := {| localName := "a"; innerHTML := "foo" |}.

Definition sample_node : Node := {|
  querySelectorAll := λ sel, Ok (if bool_decide (sel = "a") then [sample_anchor] else []);
  getElementsByTagName := λ tag, Ok (if bool_decide (tag = "a") then [sample_anchor] else []);
|}.

(** A clock that stands still. *)
Definition sample_clock : nat → Z := λ _, 1500000000000%Z.

(** A new session whose implicit timeout was set to 200 ms. *)
Definition sample_session : Session :=
  with_timeouts Session_new (obj_set "implicit" (of_int 200) (timeouts Session_new)).

(** A browser on a page of [example.com], with an empty jar. *)
Definition sample_browser : Browser := {|
  window_open := true;
  document_URL := "http://example.com/";
  cookieJar := [];
|}.

Definition sample_extractDomain : string → string := λ _, "example.com".

(** A cookie as the jar serialises it. *)
Definition sample_jar_cookie : obj :=
  [("key", VStr "x"); ("value", VStr "y");
   ("expires", VStr "2030-01-01T00:00:00.000Z");
   ("domain", VStr "example.com"); ("path", VStr "/");
   ("creation", VStr "2020-01-01T00:00:00.000Z")].

(** ** Auxiliary definitions for the further properties *)

(** The body of the loop of [matchCapabilities]. *)
Definition match_step (rt : Runtime) (capabilties : obj)
  : bool * obj → string → result (bool * obj) :=
  λ st property,
    let '(flag, matchedCapabilities) := st in
    let* flag' :=
      (if bool_decide (property = "browserName")
          || bool_decide (property = "platformName")
       then
         Ok (if negb (strict_equals (get_prop capabilties property)
                                    (get_prop matchedCapabilities property))
             then false else flag)
       else if bool_decide (property = "browserVersion") then
         Ok (if negb (strict_equals (get_prop capabilties property)
                                    (get_prop matchedCapabilities property))
             then false else flag)
       else if bool_decide (property = "setWindowRect") then
         if truthy (get_prop capabilties property)
         then Throw InvalidArgument else Ok flag
       else Ok flag) in
    Ok (flag',
        if flag' : bool
        then obj_set property (get_prop capabilties property) matchedCapabilities
        else matchedCapabilities).

(** The keys that [matchCapabilities] compares with the implementation's. *)
Definition compared_keys : list string := ["browserName"; "platformName"; "browserVersion"].

(** A compared key whose requested value is not the implementation's. *)
Definition key_mismatch (rt : Runtime) (capabilties : obj) (k : string) : bool :=
  bool_decide (k ∈ compared_keys)
  && negb (strict_equals (get_prop capabilties k)
                         (get_prop (implementation_capabilities rt) k)).

Definition mismatches (rt : Runtime) (capabilties : obj) : bool :=
  existsb (key_mismatch rt capabilties) (obj_keys capabilties).

(** The body of the loop over [defaultCapabilities] that validates
    [alwaysMatch]. *)
Definition always_step (validate : value → string → bool) (alwaysMatch : value)
  : obj → string → result obj :=
  λ requiredCapabilities key,
    let* has := hasOwnProperty alwaysMatch key in
    if has : bool then
      let validatedCapability := validate (read_own alwaysMatch key) key in
      if validatedCapability
      then Ok (obj_set key (read_own alwaysMatch key) requiredCapabilities)
      else Throw InvalidArgument
    else Ok requiredCapabilities.

(** Values that are neither an object nor an array nor missing. *)
Definition primitive (v : value) : bool :=
  match v with
  | VBool _ | VNum _ | VStr _ | VDate _ => true
  | _ => false
  end.

(** The timeout that [configureCapabilties] leaves in a field of the
    session: the requested one when the requested timeouts have the field,
    the session's own otherwise. *)
Definition timeout_after (requested : option value) (this : Session) (field : string)
  : value :=
  match requested with
  | Some requested =>
      match hasOwnProperty requested field with
      | Ok true => read_own requested field
      | _ => get_prop (timeouts this) field
      end
  | None => get_prop (timeouts this) field
  end.

(** A string that starts with a dot. *)
Definition dot_prefixed (v : value) : bool :=
  match v with
  | VStr (String "." _) => true
  | _ => false
  end.

(** ** Further sample data *)

(** A request whose [alwaysMatch] asks for a page load strategy and an
    implicit timeout. *)
Definition sample_request : value :=
  request_alwaysMatch
    [("pageLoadStrategy", VStr "eager"); ("timeouts", VObj [("implicit", of_int 500)])].

(** What the sample validator and runtime negotiate for [sample_request],
    configured on a new session, and the session after that. *)
Definition sample_configured : obj :=
  [("browserName", VStr "pluma"); ("browserVersion", VStr "v1.0");
   ("platformName", VStr "linux"); ("acceptInsecureCerts", VBool false);
   ("setWindowRect", VBool false); ("pageLoadStrategy", VStr "eager");
   ("timeouts", VObj [("implicit", of_int 500); ("pageLoad", of_int 30000);
                      ("script", of_int 3000)]);
   ("proxy", VObj [])].

Definition sample_configured_session : Session := {|
  id := "";
  timeouts := [("implicit", of_int 500); ("pageLoad", of_int 30000);
               ("script", of_int 3000)];
  pageLoadStrategy := "eager";
  webDriverActive := false;
  knownElements := [];
|}.

(** The body that [configureSession] answers with for an empty
    [firstMatch] entry on a new session. *)
Definition sample_body (uuid : string) : obj :=
  [("sessionId", VStr uuid);
   ("capabilities",
    VObj [("browserName", VStr "pluma"); ("browserVersion", VStr "v1.0");
          ("platformName", VStr "linux"); ("acceptInsecureCerts", VBool false);
          ("setWindowRect", VBool false); ("pageLoadStrategy", VStr "normal");
          ("proxy", VObj []);
          ("timeouts", VObj [("implicit", of_int 0); ("pageLoad", of_int 30000);
                             ("script", of_int 3000)])])].

(** A document whose selector engine rejects the selector [a[] with an
    exception of its own, named SyntaxError. *)
Definition sample_strict_node : Node := {|
  querySelectorAll := λ sel,
    if bool_decide (sel = "a[") then Throw (DocumentException "SyntaxError") else Ok [];
  getElementsByTagName := λ _, Ok [];
|}.

(** A runtime like the sample one, except that its global scope binds
    [DOMException], and nothing else that the locator looks up. *)
Definition sample_runtime_DOMException : Runtime := {|
  getTime_source := getTime_source sample_runtime;
  to_string := to_string sample_runtime;
  date_parse := date_parse sample_runtime;
  global_defined := λ identifier, bool_decide (identifier = "DOMException");
  os_platform := os_platform sample_runtime;
|}.

(** A runtime whose date parser reads every string as the time 1000, and a
    clock that advances by 400 at every reading. *)
Definition sample_parsing_runtime : Runtime := {|
  getTime_source := getTime_source sample_runtime;
  to_string := to_string sample_runtime;
  date_parse := λ _, Some 1000%Z;
  global_defined := global_defined sample_runtime;
  os_platform := os_platform sample_runtime;
|}.

Definition sample_ticking_clock : nat → Z := λ k, (400 * Z.of_nat k)%Z.

(** Handles told apart by the text of their element. *)
Definition sample_ELEMENT_of (handle : WebElement) : value :=
  match handle with
  | WebElement_new element => VStr (innerHTML element)
  | WebElement_of_handle _ => VUndefined
  end.

Definition sample_button : Element := {| localName := "button"; innerHTML := "foo" |}.

(** An address parser that knows the page of the sample browser only, and
    a pattern engine that knows the pattern of the root path only. *)
Definition sample_URL_new (s : string) : result URL :=
  if bool_decide (s = "http://example.com/")
  then Ok {| pathname := "/"; hostname := "example.com" |}
  else Throw TypeError.

Definition sample_RegExp_test (source s : string) : result bool :=
  if bool_decide (source = "^/") then Ok (bool_decide (String.substring 0 1 s = "/"))
  else Throw SyntaxError.

(** The sample browser with the sample cookie in its jar. *)
Definition sample_browser_with_cookie : Browser :=
  with_cookieJar sample_browser [sample_jar_cookie].

(** * Properties *)

(** Membership in a list that is written out: [list_cases] takes a
    hypothesis [x ∈ [a; b; ...]] apart, one goal per element; [list_absurd]
    closes a goal from such a hypothesis when [x] is none of the elements;
    [list_member] proves such a membership. *)
Ltac list_cases H :=
  repeat (apply elem_of_cons in H as [->|H]); [..|by apply elem_of_nil in H].

Ltac list_absurd H :=
  repeat (apply elem_of_cons in H as [H|H]; [discriminate|]);
  by apply elem_of_nil in H.

Ltac list_member := repeat constructor.

Section objects.
Implicit Types (o : obj) (k : string) (v : value).

Lemma obj_get_Some_elem k v o : obj_get k o = Some v → (k, v) ∈ o.
Proof.
  induction o as [|[k' v'] o IH]; simpl; [done|].
  case_decide; intros; simplify_eq; [left | right; auto].
Qed.

Lemma obj_get_None k o : obj_get k o = None ↔ k ∉ obj_keys o.
Proof.
  induction o as [|[k' v'] o IH]; simpl.
  - split; [intros _; apply not_elem_of_nil | done].
  - rewrite not_elem_of_cons. case_decide; subst; [|rewrite IH]; intuition congruence.
Qed.

Lemma obj_has_keys k o : obj_has k o = true ↔ k ∈ obj_keys o.
Proof.
  unfold obj_has. rewrite bool_decide_eq_true, <- not_eq_None_Some, obj_get_None.
  destruct (decide (k ∈ obj_keys o)); naive_solver.
Qed.

Lemma obj_has_false k o : obj_has k o = false ↔ k ∉ obj_keys o.
Proof. rewrite <- obj_has_keys. destruct (obj_has k o); naive_solver. Qed.

Lemma obj_get_map k o : obj_get k o = obj_map o !! k.
Proof.
  unfold obj_map. induction o as [|[k' v'] o IH]; simpl; [by rewrite lookup_empty|].
  case_decide; simplify_eq.
  - by rewrite lookup_insert_eq.
  - by rewrite lookup_insert_ne.
Qed.

Lemma obj_set_fresh k v o : k ∉ obj_keys o → obj_set k v o = o ++ [(k, v)].
Proof.
  induction o as [|[k' v'] o IH]; simpl; [done|].
  rewrite not_elem_of_cons. intros [? ?]. case_decide; [congruence|].
  by rewrite IH.
Qed.

Lemma obj_get_set k k' v o :
  obj_get k' (obj_set k v o) = if decide (k = k') then Some v else obj_get k' o.
Proof.
  induction o as [|[k0 v0] o IH]; simpl.
  - repeat case_decide; congruence.
  - destruct (decide (k0 = k)) as [->|Hne]; simpl.
    + destruct (decide (k = k')) as [->|?]; by repeat case_decide.
    + rewrite IH. by destruct (decide (k0 = k')) as [->|?]; repeat case_decide.
Qed.

Lemma obj_keys_set_elem k k' v o :
  k' ∈ obj_keys (obj_set k v o) ↔ k' = k ∨ k' ∈ obj_keys o.
Proof.
  rewrite <- !obj_has_keys. unfold obj_has.
  rewrite !bool_decide_eq_true, obj_get_set.
  case_decide; subst; [split; eauto | intuition congruence].
Qed.

Lemma obj_get_app_l k o1 o2 :
  k ∉ obj_keys o2 → obj_get k (o1 ++ o2) = obj_get k o1.
Proof.
  intros Hk. induction o1 as [|[k' v'] o1 IH]; simpl.
  - by apply obj_get_None.
  - by case_decide.
Qed.

Lemma obj_get_app_r k o1 o2 :
  k ∉ obj_keys o1 → obj_get k (o1 ++ o2) = obj_get k o2.
Proof.
  induction o1 as [|[k' v'] o1 IH]; simpl; [done|].
  rewrite not_elem_of_cons. intros [? ?]. case_decide; [congruence | auto].
Qed.
End objects.

(** ** mergeCapabilities: the union of two disjoint sets *)

Section merge.
Implicit Types (A F : obj) (k : string).

(** The first loop copies [primary] key by key. *)
Lemma merge_copy A pre suf :
  A = pre ++ suf → NoDup (obj_keys A) →
  foldl (λ result key, obj_set key (get_prop A key) result) pre (obj_keys suf) = A.
Proof.
  revert pre. induction suf as [|[k v] suf IH]; intros pre -> Hnd; simpl.
  - by rewrite app_nil_r.
  - assert (k ∉ obj_keys pre) as Hk.
    { unfold obj_keys in Hnd. rewrite fmap_app in Hnd.
      apply NoDup_app in Hnd as (_ & Hd & _). intros Hin.
      apply (Hd _ Hin). simpl. left. }
    unfold get_prop. rewrite obj_get_app_r by done. simpl.
    rewrite decide_True by done. simpl.
    rewrite obj_set_fresh by done.
    apply IH; [by rewrite <- app_assoc | done].
Qed.

(** The second loop adds the keys of [secondary] in their order, as long
    as none of them is a key of [primary]. *)
Lemma merge_append A F pre suf :
  F = pre ++ suf → NoDup (obj_keys F) →
  (∀ k, k ∈ obj_keys suf → k ∉ obj_keys A) →
  forEach (merge_step A F) (obj_keys suf) (A ++ pre) = Ok (A ++ F).
Proof.
  revert pre. induction suf as [|[k v] suf IH]; intros pre -> Hnd Hdisj; simpl.
  - by rewrite app_nil_r.
  - assert (k ∉ obj_keys pre) as Hk.
    { unfold obj_keys in Hnd. rewrite fmap_app in Hnd.
      apply NoDup_app in Hnd as (_ & Hd & _). intros Hin.
      apply (Hd _ Hin). simpl. left. }
    assert (k ∉ obj_keys A) as HkA by (apply Hdisj; simpl; left).
    unfold merge_step at 1. rewrite (proj2 (obj_has_false k A)) by done. simpl.
    unfold get_prop. rewrite obj_get_app_r by done. simpl.
    rewrite decide_True by done. simpl.
    rewrite obj_set_fresh.
    + rewrite <- (app_assoc A pre). apply (IH (pre ++ [(k, v)])).
      * by rewrite <- app_assoc.
      * done.
      * intros k' Hk'. apply Hdisj. simpl. by right.
    + unfold obj_keys. rewrite fmap_app, elem_of_app. intros [?|?]; done.
Qed.

(** The second loop throws as soon as it meets a key of [primary], and
    nothing else makes it throw. *)
Lemma merge_conflict A F ks acc :
  (∃ k, k ∈ ks ∧ k ∈ obj_keys A) → forEach (merge_step A F) ks acc = Throw InvalidArgument.
Proof.
  revert acc. induction ks as [|k' ks IH]; intros acc (k & Hin & HA).
  - by apply elem_of_nil in Hin.
  - simpl. unfold merge_step at 1.
    destruct (obj_has k' A) eqn:Hhas; [done|]. simpl.
    apply IH. exists k. split; [|done].
    apply elem_of_cons in Hin as [->|?]; [|done].
    apply obj_has_keys in HA. congruence.
Qed.

Lemma merge_throws A F ks acc e :
  forEach (merge_step A F) ks acc = Throw e →
  e = InvalidArgument ∧ ∃ k, k ∈ ks ∧ k ∈ obj_keys A.
Proof.
  revert acc. induction ks as [|k' ks IH]; intros acc; simpl; [done|].
  unfold merge_step at 1. destruct (obj_has k' A) eqn:Hhas; simpl.
  - intros [= <-]. split; [done|]. exists k'. split; [left | by apply obj_has_keys].
  - intros H. destruct (IH _ H) as (-> & k & ? & ?). split; [done|].
    exists k. split; [by right | done].
Qed.

Lemma mergeCapabilities_unfold A F :
  NoDup (obj_keys A) →
  mergeCapabilities A (Some F) = forEach (merge_step A F) (obj_keys F) A.
Proof.
  intros Hnd. unfold mergeCapabilities.
  by rewrite (merge_copy A [] A eq_refl Hnd).
Qed.

Lemma mergeCapabilities_disjoint A F :
  NoDup (obj_keys A) → NoDup (obj_keys F) →
  (∀ k, k ∈ obj_keys F → k ∉ obj_keys A) →
  mergeCapabilities A (Some F) = Ok (A ++ F).
Proof.
  intros HA HF Hdisj. rewrite mergeCapabilities_unfold by done.
  rewrite <- (app_nil_r A) at 2. by apply merge_append.
Qed.

Lemma mergeCapabilities_overlap A F :
  NoDup (obj_keys A) →
  mergeCapabilities A (Some F) = Throw InvalidArgument
  ↔ ∃ k, k ∈ obj_keys A ∧ k ∈ obj_keys F.
Proof.
  intros HA. rewrite mergeCapabilities_unfold by done. split.
  - intros H. apply merge_throws in H as (_ & k & ? & ?). by exists k.
  - intros (k & ? & ?). apply merge_conflict. by exists k.
Qed.

Lemma obj_keys_perm A A' : A ≡ₚ A' → obj_keys A ≡ₚ obj_keys A'.
Proof. intros H. unfold obj_keys. by rewrite H. Qed.
End merge.

(** C4. For sets [A] and [F] of capabilities (objects, so no key twice),
    [mergeCapabilities A F] throws InvalidArgument exactly when some key is in
    both; otherwise its result holds, key for key, the union of [A] and [F];
    and listing the keys of [A] and of [F] in another order changes neither
    the exception nor the value found under any key. *)
Theorem mergeCapabilities_union (A F : obj) :
  NoDup (obj_keys A) → NoDup (obj_keys F) →
  (mergeCapabilities A (Some F) = Throw InvalidArgument
   ↔ ∃ k, k ∈ obj_keys A ∧ k ∈ obj_keys F)
  ∧ ((¬ ∃ k, k ∈ obj_keys A ∧ k ∈ obj_keys F) →
     ∃ r, mergeCapabilities A (Some F) = Ok r
          ∧ obj_map r = obj_map A ∪ obj_map F)
  ∧ (∀ A' F' : obj, A' ≡ₚ A → F' ≡ₚ F →
     merge_agree (mergeCapabilities A' (Some F')) (mergeCapabilities A (Some F))).
Proof.
  intros HA HF.
  assert (∀ B G, NoDup (obj_keys B) → NoDup (obj_keys G) →
                 (¬ ∃ k, k ∈ obj_keys B ∧ k ∈ obj_keys G) →
                 mergeCapabilities B (Some G) = Ok (B ++ G)) as Hok.
  { intros B G HB HG Hno. apply mergeCapabilities_disjoint; [done..|].
    intros k ? ?. apply Hno. by exists k. }
  split; [by apply mergeCapabilities_overlap|]. split.
  - intros Hno. exists (A ++ F). split; [by apply Hok|].
    unfold obj_map. apply list_to_map_app.
  - intros A' F' HpA HpF.
    assert (NoDup (obj_keys A')) as HA' by (by rewrite (obj_keys_perm _ _ HpA)).
    assert (NoDup (obj_keys F')) as HF' by (by rewrite (obj_keys_perm _ _ HpF)).
    destruct (mergeCapabilities A (Some F)) as [r|e] eqn:E.
    + assert (¬ ∃ k, k ∈ obj_keys A ∧ k ∈ obj_keys F) as Hno.
      { intros Hov. apply (mergeCapabilities_overlap A F HA) in Hov. congruence. }
      rewrite (Hok A F) in E by done. injection E as <-.
      rewrite (Hok A' F'); [|done..|].
      * simpl. unfold obj_map. apply list_to_map_proper.
        -- unfold obj_keys in *. rewrite fmap_app. apply NoDup_app. split; [done|].
           split; [|done]. intros k HkA HkF. apply Hno. exists k.
           by rewrite <- (obj_keys_perm _ _ HpA), <- (obj_keys_perm _ _ HpF).
        -- by rewrite HpA, HpF.
      * intros (k & ? & ?). apply Hno. exists k.
        by rewrite <- (obj_keys_perm _ _ HpA), <- (obj_keys_perm _ _ HpF).
    + rewrite mergeCapabilities_unfold in E by done.
      apply merge_throws in E as (-> & k & ? & ?).
      rewrite (proj2 (mergeCapabilities_overlap A' F' HA')); [done|].
      exists k. by rewrite (obj_keys_perm _ _ HpA), (obj_keys_perm _ _ HpF).
Qed.

(** ** setTimeouts: all or nothing *)

Lemma validateTimeouts_spec_valid key v :
  validateTimeouts_spec key v = true ↔ valid_timeout v.
Proof.
  unfold validateTimeouts_spec, valid_timeout, MAX_SAFE_INTEGER.
  destruct (as_integer v) as [z|].
  - rewrite bool_decide_eq_true. split; [by exists z | by intros (? & [= <-] & ?)].
  - split; [done | by intros (? & ? & ?)].
Qed.

Section setTimeouts_facts.
Variable V : string → value → bool.
Implicit Types (this : Session) (t : obj).

Lemma validate_loop_throws t ks b :
  (∃ key, key ∈ ks ∧ V key (get_prop t key) = false) →
  forEach (validate_step V t) ks b = Throw InvalidArgument.
Proof.
  revert b. induction ks as [|k ks IH]; intros b (key & Hin & Hbad).
  - by apply elem_of_nil in Hin.
  - simpl. unfold validate_step at 1.
    destruct (V k (get_prop t k)) eqn:Hk; simpl; [|done].
    apply IH. exists key. split; [|done].
    apply elem_of_cons in Hin as [->|?]; [congruence | done].
Qed.

Lemma validate_loop_passes t ks b :
  (∀ key, key ∈ ks → V key (get_prop t key) = true) →
  ∃ b', forEach (validate_step V t) ks b = Ok b'.
Proof.
  revert b. induction ks as [|k ks IH]; intros b Hall; simpl; [by exists b|].
  unfold validate_step at 1. rewrite (Hall k) by left. simpl.
  apply IH. intros key ?. apply Hall. by right.
Qed.

Lemma assign_loop_timeouts t ks this k :
  obj_get k (timeouts (foldl (assign_step t) this ks))
  = if decide (k ∈ ks) then Some (get_prop t k) else obj_get k (timeouts this).
Proof.
  revert this. induction ks as [|k0 ks IH]; intros this; simpl foldl.
  - rewrite decide_False; [done | apply not_elem_of_nil].
  - rewrite IH. unfold assign_step at 1. simpl timeouts. rewrite obj_get_set.
    destruct (decide (k ∈ ks)) as [Hin|Hnin].
    + rewrite decide_True; [done | by right].
    + destruct (decide (k0 = k)) as [->|Hne].
      * rewrite decide_True; [done | left].
      * rewrite decide_False; [done|]. rewrite elem_of_cons. intros [?|?]; congruence.
Qed.

Lemma assign_loop_frame t ks this :
  let this' := foldl (assign_step t) this ks in
  id this' = id this ∧ pageLoadStrategy this' = pageLoadStrategy this
  ∧ webDriverActive this' = webDriverActive this
  ∧ knownElements this' = knownElements this.
Proof.
  revert this. induction ks as [|k0 ks IH]; intros this; simpl; [done|].
  destruct (IH (assign_step t this k0)) as (-> & -> & -> & ->). done.
Qed.


Lemma obj_set_same (k : string) (v : value) (o : obj) :
  obj_get k o = Some v → obj_set k v o = o.
Proof.
  induction o as [|[k0 v0] o IH]; simpl; [done|].
  destruct (decide (k0 = k)) as [->|Hne]; [by intros [= ->] | intros Hget; by rewrite IH].
Qed.

(** Assigning fields that already hold the given values changes nothing. *)
Lemma assign_loop_same t ks this :
  (∀ k, k ∈ ks → obj_get k (timeouts this) = Some (get_prop t k)) →
  foldl (assign_step t) this ks = this.
Proof.
  induction ks as [|k ks IH]; intros Hall; simpl; [done|].
  assert (assign_step t this k = this) as ->.
  { unfold assign_step. rewrite obj_set_same by (apply Hall; left). by destruct this. }
  apply IH. intros k' ?. apply Hall. by right.
Qed.

(** For any validator: one invalid field, and the call throws without
    having written anything; none, and every given field is written. *)
Lemma setTimeouts_cases this t :
  ((∃ key, key ∈ obj_keys t ∧ V key (get_prop t key) = false) →
   setTimeouts V this t = (Throw InvalidArgument, this))
  ∧ ((∀ key, key ∈ obj_keys t → V key (get_prop t key) = true) →
     setTimeouts V this t = (Ok (), foldl (assign_step t) this (obj_keys t))).
Proof.
  unfold setTimeouts. fold (validate_step V t). fold (assign_step t). split.
  - intros Hbad. by rewrite (validate_loop_throws t _ true Hbad).
  - intros Hall. by destruct (validate_loop_passes t _ true Hall) as [b' ->].
Qed.
End setTimeouts_facts.

(** C2. Let [validateTimeouts] accept a value exactly when it is an integer
    in [0, 2^53 - 1], as the spec has it. [setTimeouts] with a partial
    timeouts object [t]: if some present field is not such an integer, the
    call throws InvalidArgument and the session, its three timeouts
    included, is what it was; if every present field is one, the call
    returns, each given field holds the given value, every other field of
    the timeouts holds its prior value, and the rest of the session is
    untouched. *)
Theorem setTimeouts_all_or_nothing
    (validateTimeouts : string → value → bool) (this : Session) (t : obj) :
  (∀ key v, validateTimeouts key v = true ↔ valid_timeout v) →
  ((∃ key, key ∈ obj_keys t ∧ ¬ valid_timeout (get_prop t key)) →
   setTimeouts validateTimeouts this t = (Throw InvalidArgument, this))
  ∧ ((∀ key, key ∈ obj_keys t → valid_timeout (get_prop t key)) →
     ∃ this', setTimeouts validateTimeouts this t = (Ok (), this')
       ∧ (∀ k, k ∈ obj_keys t → obj_get k (timeouts this') = Some (get_prop t k))
       ∧ (∀ k, k ∉ obj_keys t → obj_get k (timeouts this') = obj_get k (timeouts this))
       ∧ id this' = id this ∧ pageLoadStrategy this' = pageLoadStrategy this
       ∧ webDriverActive this' = webDriverActive this
       ∧ knownElements this' = knownElements this).
Proof.
  intros HV.
  destruct (setTimeouts_cases validateTimeouts this t) as [Hthrow Hok]. split.
  - intros (key & Hin & Hbad). apply Hthrow. exists key. split; [done|].
    destruct (validateTimeouts key (get_prop t key)) eqn:E; [|done].
    by apply HV in E.
  - intros Hall. eexists. split.
    { apply Hok. intros key Hin. apply HV. by apply Hall. }
    split; [|split].
    + intros k Hin. rewrite assign_loop_timeouts. by rewrite decide_True.
    + intros k Hnin. rewrite assign_loop_timeouts. by rewrite decide_False.
    + apply assign_loop_frame.
Qed.


(** X2. [getTimeouts] right after a [setTimeouts] that succeeded returns the
    given fields over the prior ones, and the same call once more changes
    nothing. *)
Theorem setTimeouts_getTimeouts
    (validateTimeouts : string → value → bool) (this this' : Session) (t : obj) :
  setTimeouts validateTimeouts this t = (Ok (), this') →
  (∀ k, obj_get k (getTimeouts this')
        = if decide (k ∈ obj_keys t) then Some (get_prop t k)
          else obj_get k (getTimeouts this))
  ∧ setTimeouts validateTimeouts this' t = (Ok (), this').
Proof.
  intros Hcall.
  assert (∀ key, key ∈ obj_keys t → validateTimeouts key (get_prop t key) = true) as Hall.
  { intros key Hin. destruct (validateTimeouts key (get_prop t key)) eqn:E; [done|].
    destruct (setTimeouts_cases validateTimeouts this t) as [Hthrow _].
    rewrite Hthrow in Hcall by (by exists key). discriminate. }
  destruct (setTimeouts_cases validateTimeouts this t) as [_ Hok].
  rewrite Hok in Hcall by done. injection Hcall as <-.
  split; [intros k; apply assign_loop_timeouts|].
  destruct (setTimeouts_cases validateTimeouts
              (foldl (assign_step t) this (obj_keys t)) t) as [_ Hok'].
  rewrite Hok' by done. f_equal.
  apply assign_loop_same. intros k Hk.
  rewrite assign_loop_timeouts. by rewrite decide_True.
Qed.

(** ** The options of the Browser constructor *)

(** C10. For each of the four options of the constructor, the value handed
    to [BrowserConfig] is the requested one when that is truthy and the
    built-in default otherwise: an option requested with a falsy value
    ([strictSSL: false], [runScripts: '']) keeps its default. *)
Theorem Browser_options_truthy_only (capabilities : obj) (option : string) :
  option ∈ ["runScripts"; "strictSSL"; "unhandledPromptBehaviour"; "rejectPublicSuffixes"] →
  get_prop (Browser_browserOptions capabilities) option
  = if truthy (get_prop capabilities option)
    then get_prop capabilities option
    else get_prop browserOptions_defaults option.
Proof.
  intros Hin. unfold Browser_browserOptions. simpl foldl.
  list_cases Hin.
  all: generalize (get_prop capabilities "runScripts"),
         (get_prop capabilities "strictSSL"),
         (get_prop capabilities "unhandledPromptBehaviour"),
         (get_prop capabilities "rejectPublicSuffixes").
  all: intros v1 v2 v3 v4.
  all: destruct (truthy v1), (truthy v2), (truthy v3), (truthy v4); reflexivity.
Qed.

(** ** processCapabilities: which entry decides *)

Lemma forEach_app {S A : Type} (body : S → A → result S) (l1 l2 : list A) (s : S) :
  forEach body (l1 ++ l2) s = let* s' := forEach body l1 s in forEach body l2 s'.
Proof.
  revert s. induction l1 as [|x l1 IH]; intros s; simpl; [done|].
  destruct (body s x); simpl; [apply IH | done].
Qed.

Section negotiation.
Variable rt : Runtime.
Variable validate : value → string → bool.

(** When every merged set matches, the loop ends with the result of the
    last one. *)
Lemma match_all_last (l : list obj) (c : obj) (before : option obj) :
  (∀ c', c' ∈ l → ∃ m, matchCapabilities rt c' = Ok (Some m)) →
  (∃ m, matchCapabilities rt c = Ok (Some m)) →
  forEach (λ (matchedCapabilities : option obj) capabilites,
             let* matchedCapabilities := matchCapabilities rt capabilites in
             match matchedCapabilities with
             | None => Throw SessionNotCreated
             | Some m => Ok (Some m)
             end) (l ++ [c]) before
  = matchCapabilities rt c.
Proof.
  revert before. induction l as [|c0 l IH]; intros before Hall Hc; simpl.
  - destruct Hc as [m Hm]. by rewrite Hm.
  - destruct (Hall c0) as [m0 Hm0]; [left|]. rewrite Hm0. simpl.
    apply IH; [|done]. intros c' ?. apply Hall. by right.
Qed.

(** One merged set that does not match, after sets that do, ends the
    negotiation, whatever comes before or after it. *)
Lemma match_all_mismatch (l1 l2 : list obj) (c : obj) :
  (∀ c', c' ∈ l1 → ∃ m, matchCapabilities rt c' = Ok (Some m)) →
  matchCapabilities rt c = Ok None →
  match_all rt (l1 ++ c :: l2) = Throw SessionNotCreated.
Proof.
  intros Hall Hc. unfold match_all. generalize (@None obj) as before.
  induction l1 as [|c0 l1 IH]; intros before; simpl.
  - rewrite Hc. reflexivity.
  - destruct (Hall c0) as [m0 Hm0]; [left|]. rewrite Hm0. simpl.
    apply IH. intros c' ?. apply Hall. by right.
Qed.
End negotiation.


(** X1. The last loop of [processCapabilities] asks every merged set to match:
    the first set that does not match ends the negotiation with "session not
    created", and when all of them match the call returns the result of the
    last one. *)
Theorem match_all_every_entry (rt : Runtime) (l : list obj) :
  (∀ l1 c l2, l = l1 ++ c :: l2 →
     (∀ c', c' ∈ l1 → ∃ m, matchCapabilities rt c' = Ok (Some m)) →
     matchCapabilities rt c = Ok None →
     match_all rt l = Throw SessionNotCreated)
  ∧ (∀ l' c, l = l' ++ [c] →
       (∀ c', c' ∈ l → ∃ m, matchCapabilities rt c' = Ok (Some m)) →
       match_all rt l = matchCapabilities rt c).
Proof.
  split.
  - intros l1 c l2 -> Hall Hc. by apply match_all_mismatch.
  - intros l' c -> Hall. unfold match_all. apply match_all_last.
    + intros c' Hc'. apply Hall. apply elem_of_app. by left.
    + apply Hall. apply elem_of_app. right. left.
Qed.

(** C1, on the code. With two [firstMatch] entries of which the first
    matches the implementation and the second does not, [processCapabilities]
    throws "session not created" although a merged set matches; and with two
    entries that both match, it returns the result of the last one, not of
    the first. *)
Theorem processCapabilities_last_entry_decides
    (rt : Runtime) (validate : value → string → bool) :
  validate (VStr "pluma") "browserName" = true →
  validate (VStr "chrome") "browserName" = true →
  validate (VBool true) "acceptInsecureCerts" = true →
  (matchCapabilities rt [("browserName", VStr "pluma")]
   = Ok (Some (implementation_capabilities rt))
   ∧ processCapabilities rt validate
       (request_firstMatch [VObj [("browserName", VStr "pluma")];
                            VObj [("browserName", VStr "chrome")]])
     = Throw SessionNotCreated)
  ∧ (matchCapabilities rt [("acceptInsecureCerts", VBool true)]
     = Ok (Some (obj_set "acceptInsecureCerts" (VBool true)
                   (implementation_capabilities rt)))
     ∧ matchCapabilities rt [] = Ok (Some (implementation_capabilities rt))
     ∧ processCapabilities rt validate
         (request_firstMatch [VObj [("acceptInsecureCerts", VBool true)]; VObj []])
       = Ok (Some (implementation_capabilities rt))).
Proof.
  intros Hp Hc Ha. split; [split | split; [|split]].
  - vm_compute. reflexivity.
  - vm_compute. rewrite Hp. vm_compute. rewrite Hc. vm_compute. reflexivity.
  - vm_compute. reflexivity.
  - vm_compute. reflexivity.
  - vm_compute. rewrite Ha. vm_compute. reflexivity.
Qed.

(** C5, on the code. A recognised key whose value fails validation is left
    out of a [firstMatch] entry, and the negotiation goes on without it and
    succeeds; the same key with the same value in [alwaysMatch] ends the
    negotiation with InvalidArgument. *)
Theorem firstMatch_invalid_key_is_dropped
    (rt : Runtime) (validate : value → string → bool) (key : string) (v : value) :
  key ∈ defaultCapabilities →
  validate v key = false →
  validate_firstMatch_entry validate (VObj [(key, v)]) = Ok []
  ∧ processCapabilities rt validate (request_firstMatch [VObj [(key, v)]])
    = Ok (Some (implementation_capabilities rt))
  ∧ processCapabilities rt validate (request_alwaysMatch [(key, v)])
    = Throw InvalidArgument.
Proof.
  intros Hin Hbad. unfold defaultCapabilities in Hin.
  list_cases Hin.
  all: split; [|split]; vm_compute; rewrite Hbad; vm_compute; reflexivity.
Qed.

(** ** elementRetrieval *)

Section locator_facts.
Variable rt : Runtime.
Variable clock : nat → Z.
Implicit Types (startNode : Node) (strategy selector : string) (this : Session).

Lemma with_knownElements_nil this :
  with_knownElements this (knownElements this ++ []) = this.
Proof. destruct this. unfold with_knownElements. simpl. by rewrite app_nil_r. Qed.

Lemma switch_unknown startNode strategy selector elements :
  strategy ∉ ["css selector"; "link text"; "partial link text"; "tag name"; "xpath"] →
  switch_strategy startNode strategy selector elements = Throw InvalidArgument.
Proof.
  intros Hs. unfold switch_strategy.
  repeat (rewrite bool_decide_eq_false_2;
          [|intros ->; apply Hs; list_member]).
  done.
Qed.

(** Whatever the global scope binds, the [catch] clause turns the
    InvalidArgument of the [switch] into another exception. *)
Lemma catch_clause_InvalidArgument :
  catch_clause rt InvalidArgument ≠ InvalidArgument
  ∧ catch_clause rt InvalidArgument
    ∈ [ReferenceError "DOMException"; ReferenceError "XPathException";
       ReferenceError "UnknownError"; UnknownError].
Proof.
  unfold catch_clause, instance_of.
  destruct (global_defined rt "DOMException"),
           (global_defined rt "XPathException"),
           (global_defined rt "UnknownError"); simpl.
  all: split; [discriminate | list_member].
Qed.

Lemma switch_linkText startNode strategy selector elements links :
  strategy ∈ ["link text"; "partial link text"] →
  querySelectorAll startNode "a" = Ok links →
  switch_strategy startNode strategy selector elements = Ok ElementsResult.
Proof.
  intros Hs Hq. unfold switch_strategy, linkTextSelector.
  list_cases Hs.
  all: simpl; by rewrite Hq.
Qed.

(** With a link-text strategy the loop, when it ends normally, ends with
    [elements] being the array [result]. *)
Lemma retry_linkText startNode strategy selector links fuel endTime res elements tr out tr' :
  strategy ∈ ["link text"; "partial link text"] →
  querySelectorAll startNode "a" = Ok links →
  retry rt clock startNode strategy selector fuel endTime res elements tr = Some (Ok out, tr') →
  out = ElementsResult.
Proof.
  intros Hs Hq. revert elements tr.
  induction fuel as [|fuel IH]; intros elements tr; simpl; [done|].
  unfold try_strategy. rewrite (switch_linkText _ _ _ _ links Hs Hq).
  destruct (date_gt _ _); [|by intros [= <- <-]].
  simpl. destruct (length res <? 1)%nat; [apply IH | by intros [= <- <-]].
Qed.
End locator_facts.

(** C6, on the code. For a strategy that is none of the five, the call ends
    in the first pass through the loop, before the clock is read again; but
    the InvalidArgument of the [switch] is caught by the [catch] clause
    around it, and what the call throws is what that clause throws: one of
    a ReferenceError and the unknown error, never InvalidArgument. *)
Theorem elementRetrieval_unknown_strategy
    (rt : Runtime) (clock : nat → Z) (startNode : Node) (strategy selector : string)
    (fuel : nat) (this : Session) :
  strategy ∉ ["css selector"; "link text"; "partial link text"; "tag name"; "xpath"] →
  ∃ e, elementRetrieval rt clock startNode strategy selector (S fuel) this
       = Some (Throw e, this, {| clock_reads := 1; iterations := 1 |})
       ∧ e ≠ InvalidArgument
       ∧ e ∈ [ReferenceError "DOMException"; ReferenceError "XPathException";
              ReferenceError "UnknownError"; UnknownError].
Proof.
  intros Hs. exists (catch_clause rt InvalidArgument). split.
  - unfold elementRetrieval. simpl. unfold try_strategy.
    by rewrite switch_unknown.
  - apply catch_clause_InvalidArgument.
Qed.

(** C7, on the code. With either link-text strategy the anchors that the
    strategy collects are dropped: whenever the call returns, it returns no
    element and registers none, whatever the links of the document and the
    selector are; and it does return, after one pass through the loop, when
    the deadline is not ahead of the clock. *)
Theorem elementRetrieval_linkText_empty
    (rt : Runtime) (clock : nat → Z) (startNode : Node) (strategy selector : string)
    (links : list Element) (this : Session) :
  strategy ∈ ["link text"; "partial link text"] →
  querySelectorAll startNode "a" = Ok links →
  (∀ fuel found this' tr,
     elementRetrieval rt clock startNode strategy selector fuel this
     = Some (Ok found, this', tr) →
     found = [] ∧ this' = this)
  ∧ (date_gt (endTime_of rt clock this) (Some (clock 1)) = false →
     ∀ fuel, elementRetrieval rt clock startNode strategy selector (S fuel) this
             = Some (Ok [], this, {| clock_reads := 2; iterations := 1 |})).
Proof.
  intros Hs Hq. split.
  - intros fuel found this' tr. unfold elementRetrieval.
    destruct (retry _ _ _ _ _ _ _ _ _ _) as [[[out|e] tr']|] eqn:E; [|done..].
    apply (retry_linkText _ _ _ _ _ links) in E; [|done..]. subst out.
    simpl. intros [= <- <- <-]. by rewrite with_knownElements_nil.
  - intros Hgt fuel. unfold elementRetrieval. simpl. unfold try_strategy.
    rewrite (switch_linkText _ _ _ _ links Hs Hq). simpl.
    rewrite Hgt. simpl. by rewrite with_knownElements_nil.
Qed.

(** C3, on the code. The deadline is parsed from a string that holds the
    source text of [getTime] and the timeout; the clock has no part in it,
    so it is the same on any two clocks and is not the time of the call plus
    the timeout. For a selector that matches nothing there is then a time
    [T0] such that every call made at or after [T0] runs the strategy once,
    reads the clock once in the loop and returns the empty sequence, even on
    a clock that stands still: it does not wait for the implicit timeout of
    200 ms. *)
Theorem elementRetrieval_does_not_wait
    (rt : Runtime) (startNode : Node) (selector : string) (this : Session) :
  querySelectorAll startNode selector = Ok [] →
  get_prop (timeouts this) "implicit" = of_int 200 →
  (∀ clock clock' : nat → Z, endTime_of rt clock this = endTime_of rt clock' this)
  ∧ ∃ T0 : Z, ∀ (clock : nat → Z) (fuel : nat),
      (∀ k, (T0 ≤ clock k)%Z) →
      elementRetrieval rt clock startNode "css selector" selector (S fuel) this
      = Some (Ok [], this, {| clock_reads := 2; iterations := 1 |}).
Proof.
  intros Hq Ht. split; [reflexivity|].
  exists (default 0%Z (date_parse rt (getTime_source rt +:+ to_string rt (of_int 200)))).
  intros clock fuel Hclock.
  unfold elementRetrieval, endTime_of. rewrite Ht. simpl.
  unfold try_strategy, switch_strategy, cssSelector. simpl. rewrite Hq. simpl.
  specialize (Hclock 1%nat).
  destruct (date_parse rt _) as [d|]; simpl in *.
  - rewrite bool_decide_eq_false_2 by lia. by rewrite with_knownElements_nil.
  - by rewrite with_knownElements_nil.
Qed.

(** ** getCookies *)

Section getCookies_facts.
Variable rt : Runtime.
Implicit Types (cookie cur : obj) (k : string).

Lemma convert_cookie_unfold cookie :
  convert_cookie rt cookie
  = obj_delete "creation"
      (foldl (convert_step rt cookie) [("name", VStr ""); ("value", VStr "")]
             (obj_keys cookie)).
Proof. reflexivity. Qed.

Lemma obj_get_delete k k' (o : obj) :
  obj_get k' (obj_delete k o) = if decide (k' = k) then None else obj_get k' o.
Proof.
  unfold obj_delete. induction o as [|[k0 v0] o IH].
  - simpl. by case_decide.
  - rewrite filter_cons. cbn [fst]. destruct (decide (k0 ≠ k)) as [Hne|Heq].
    + cbn [obj_get]. rewrite IH. destruct (decide (k0 = k')) as [->|?]; [|done].
      by rewrite decide_False.
    + apply dec_stable in Heq as ->. rewrite IH. cbn [obj_get].
      destruct (decide (k' = k)) as [->|?]; [done|]. by rewrite decide_False.
Qed.

(** The record under construction never gets a property named
    [expires]: that name is stored as [expiry]. *)
Lemma convert_never_expires cookie ks cur :
  obj_get "expires" cur = None →
  obj_get "expires" (foldl (convert_step rt cookie) cur ks) = None.
Proof.
  revert cur. induction ks as [|k ks IH]; intros cur Hcur; simpl; [done|].
  apply IH. unfold convert_step. repeat case_bool_decide; subst.
  - by rewrite obj_get_set, decide_False.
  - by rewrite obj_get_set, decide_False.
  - by rewrite obj_get_set, decide_False.
Qed.

Lemma convert_expiry_kept cookie ks cur v :
  "expiry" ∉ ks → obj_get "expires" cur = None →
  obj_get "expiry" cur = Some v →
  v = VNum NaN ∨ "expires" ∉ ks →
  obj_get "expiry" (foldl (convert_step rt cookie) cur ks) = Some v.
Proof.
  revert cur. induction ks as [|k ks IH]; intros cur Hks Hexp Hcur Hv; simpl; [done|].
  apply not_elem_of_cons in Hks as [Hk Hks].
  apply IH; [done|..].
  - by apply (convert_never_expires cookie [k]).
  - unfold convert_step. repeat case_bool_decide; subst.
    + by rewrite obj_get_set, decide_False.
    + rewrite obj_get_set, decide_True by done.
      unfold get_prop. rewrite Hexp. simpl.
      destruct Hv as [->|Hv]; [done|]. exfalso. apply Hv. left.
    + by rewrite obj_get_set, decide_False.
  - destruct Hv as [?|Hv]; [by left|]. right. intros ?. apply Hv. by right.
Qed.

(** As soon as the serialised cookie has an [expires], the record's
    [expiry] is NaN: the date is built from the record's own, missing,
    [expires]. *)
Lemma convert_expiry_NaN cookie ks cur :
  "expiry" ∉ ks → obj_get "expires" cur = None → "expires" ∈ ks →
  obj_get "expiry" (foldl (convert_step rt cookie) cur ks) = Some (VNum NaN).
Proof.
  revert cur. induction ks as [|k ks IH]; intros cur Hks Hexp Hin; simpl.
  - by apply elem_of_nil in Hin.
  - apply not_elem_of_cons in Hks as [Hk Hks].
    destruct (decide (k = "expires")) as [->|Hne].
    + apply convert_expiry_kept; [done| |..].
      * by apply (convert_never_expires cookie ["expires"]).
      * unfold convert_step. simpl. rewrite obj_get_set, decide_True by done.
        unfold get_prop. by rewrite Hexp.
      * by left.
    + apply IH; [done| |].
      * by apply (convert_never_expires cookie [k]).
      * apply elem_of_cons in Hin as [?|?]; [congruence | done].
Qed.

(** The jar's key field comes out as [name]. *)
Lemma convert_name cookie ks cur :
  "name" ∉ ks → "key" ∈ ks →
  obj_get "name" (foldl (convert_step rt cookie) cur ks) = Some (get_prop cookie "key").
Proof.
  intros Hname Hkey.
  assert (∀ ks cur, "name" ∉ ks →
            obj_get "name" cur = Some (get_prop cookie "key") →
            obj_get "name" (foldl (convert_step rt cookie) cur ks)
            = Some (get_prop cookie "key")) as Hkept.
  { clear. intros ks. induction ks as [|k ks IH]; intros cur Hks Hcur; simpl; [done|].
    apply not_elem_of_cons in Hks as [Hk Hks]. apply IH; [done|].
    unfold convert_step. repeat case_bool_decide; subst.
    - by rewrite obj_get_set, decide_True.
    - by rewrite obj_get_set, decide_False.
    - by rewrite obj_get_set, decide_False. }
  revert cur. induction ks as [|k ks IH]; intros cur; simpl.
  - by apply elem_of_nil in Hkey.
  - apply not_elem_of_cons in Hname as [Hk Hname].
    destruct (decide (k = "key")) as [->|Hne].
    + apply Hkept; [done|]. unfold convert_step. simpl.
      by rewrite obj_get_set, decide_True.
    + apply IH; [done|]. apply elem_of_cons in Hkey as [?|?]; [congruence | done].
Qed.

(** Every other field comes out under its own name. *)
Lemma convert_other cookie ks cur k :
  k ∉ ["key"; "expires"; "name"; "expiry"] → k ∈ ks →
  obj_get k (foldl (convert_step rt cookie) cur ks) = Some (get_prop cookie k).
Proof.
  intros Hk Hin.
  assert (k ≠ "key" ∧ k ≠ "expires" ∧ k ≠ "name" ∧ k ≠ "expiry") as (? & ? & ? & ?).
  { repeat split; intros ->; apply Hk; list_member. }
  assert (∀ ks cur, obj_get k cur = Some (get_prop cookie k) →
            obj_get k (foldl (convert_step rt cookie) cur ks)
            = Some (get_prop cookie k)) as Hkept.
  { clear Hin. intros ks'. induction ks' as [|k0 ks' IH]; intros cur' Hcur; simpl; [done|].
    apply IH. unfold convert_step. repeat case_bool_decide; subst.
    - by rewrite obj_get_set, decide_False.
    - by rewrite obj_get_set, decide_False.
    - rewrite obj_get_set. by case_decide; subst. }
  revert cur. induction ks as [|k0 ks IH]; intros cur; simpl.
  - by apply elem_of_nil in Hin.
  - destruct (decide (k0 = k)) as [->|Hne].
    + apply Hkept. unfold convert_step.
      rewrite !bool_decide_eq_false_2 by done.
      by rewrite obj_get_set, decide_True.
    + apply IH. apply elem_of_cons in Hin as [?|?]; [congruence | done].
Qed.

Lemma getCookies_fmap (this : Browser) :
  getCookies rt this = convert_cookie rt <$> cookieJar this.
Proof.
  unfold getCookies, serialize.
  assert (∀ jar acc, foldl (λ cookies cookie, cookies ++ [convert_cookie rt cookie]) acc jar
                     = acc ++ (convert_cookie rt <$> jar)) as H.
  { intros jar. induction jar as [|c jar IH]; intros acc; simpl.
    - by rewrite app_nil_r.
    - rewrite IH. by rewrite <- app_assoc. }
  apply (H _ []).
Qed.
End getCookies_facts.

(** C8, on the code. [getCookies] returns one record per stored cookie,
    with the jar's key field under [name] and without the creation time; but
    for a stored cookie that has an expiration, the [expiry] of its record is
    NaN, not a count of seconds: the date is built from the [expires] of the
    record under construction, which it never has, and not from the
    cookie's. *)
Theorem getCookies_expiry_is_NaN (rt : Runtime) (this : Browser) (cookie : obj) :
  cookie ∈ cookieJar this →
  "expires" ∈ obj_keys cookie → "expiry" ∉ obj_keys cookie →
  length (getCookies rt this) = length (cookieJar this)
  ∧ convert_cookie rt cookie ∈ getCookies rt this
  ∧ obj_get "creation" (convert_cookie rt cookie) = None
  ∧ ("key" ∈ obj_keys cookie → "name" ∉ obj_keys cookie →
     obj_get "name" (convert_cookie rt cookie) = Some (get_prop cookie "key"))
  ∧ obj_get "expiry" (convert_cookie rt cookie) = Some (VNum NaN).
Proof.
  intros Hin Hexpires Hexpiry. rewrite getCookies_fmap. split; [|split; [|split; [|split]]].
  - by rewrite length_fmap.
  - by apply list_elem_of_fmap_2.
  - rewrite convert_cookie_unfold, obj_get_delete. by rewrite decide_True.
  - intros Hkey Hname. rewrite convert_cookie_unfold, obj_get_delete.
    rewrite decide_False by done. by apply convert_name.
  - rewrite convert_cookie_unfold, obj_get_delete. rewrite decide_False by done.
    by apply convert_expiry_NaN.
Qed.

(** ** addCookie *)

Section spread_facts.
Implicit Types (o base extra : obj) (k : string) (v : value).

Lemma obj_keys_set_present k v o :
  k ∈ obj_keys o → obj_keys (obj_set k v o) = obj_keys o.
Proof.
  induction o as [|[k0 v0] o IH]; simpl.
  - intros H. by apply elem_of_nil in H.
  - intros H. case_decide; subst; simpl; [done|].
    f_equal. apply IH. apply elem_of_cons in H as [?|?]; [congruence | done].
Qed.

Lemma obj_set_NoDup k v o : NoDup (obj_keys o) → NoDup (obj_keys (obj_set k v o)).
Proof.
  intros Hnd. destruct (decide (k ∈ obj_keys o)) as [Hin|Hnin].
  - by rewrite obj_keys_set_present.
  - rewrite obj_set_fresh by done. unfold obj_keys in *. rewrite fmap_app. simpl.
    apply NoDup_app. split; [done|]. split; [|apply NoDup_singleton].
    intros k' Hk' Hk''. apply list_elem_of_singleton in Hk'' as ->. done.
Qed.

Lemma obj_spread_NoDup base extra :
  NoDup (obj_keys base) → NoDup (obj_keys (obj_spread base extra)).
Proof.
  unfold obj_spread. revert base.
  induction extra as [|[k v] extra IH]; intros base Hnd; simpl; [done|].
  apply IH. by apply obj_set_NoDup.
Qed.

(** Spreading an object over another: the value of the later one where it
    has the key, the one of the earlier otherwise. *)
Lemma obj_get_spread k base extra :
  NoDup (obj_keys extra) →
  obj_get k (obj_spread base extra)
  = match obj_get k extra with Some v => Some v | None => obj_get k base end.
Proof.
  unfold obj_spread. revert base.
  induction extra as [|[k0 v0] extra IH]; intros base Hnd; simpl; [done|].
  apply NoDup_cons in Hnd as [Hk0 Hnd]. rewrite IH by done.
  rewrite obj_get_set. destruct (decide (k0 = k)) as [->|Hne].
  - by rewrite (proj2 (obj_get_None k extra)).
  - done.
Qed.

(** Spreading an object into an empty one copies it. *)
Lemma obj_spread_copy o : NoDup (obj_keys o) → obj_spread [] o = o.
Proof.
  intros Hnd. unfold obj_spread.
  assert (∀ pre suf, o = pre ++ suf →
            foldl (λ acc kv, obj_set kv.1 kv.2 acc) pre suf = o) as H.
  { intros pre suf. revert pre.
    induction suf as [|[k v] suf IH]; intros pre ->; simpl.
    - by rewrite app_nil_r.
    - rewrite obj_set_fresh.
      + apply IH. by rewrite <- app_assoc.
      + unfold obj_keys in Hnd. rewrite fmap_app in Hnd.
        apply NoDup_app in Hnd as (_ & Hd & _). intros Hin.
        apply (Hd _ Hin). simpl. left. }
  by apply (H []).
Qed.

Lemma obj_get_filter_keys (P : string → Prop) `{∀ k, Decision (P k)} k o :
  obj_get k (filter (λ kv, P kv.1) o) = if decide (P k) then obj_get k o else None.
Proof.
  induction o as [|[k0 v0] o IH].
  - simpl. by case_decide.
  - rewrite filter_cons. cbn [fst]. destruct (decide (P k0)) as [HP|HP].
    + cbn [obj_get]. rewrite IH. destruct (decide (k0 = k)) as [->|?]; [|done].
      by rewrite decide_True.
    + rewrite IH. cbn [obj_get]. destruct (decide (P k)) as [HPk|?]; [|done].
      rewrite decide_False; [done | by intros ->].
Qed.

Lemma obj_filter_NoDup (P : string * value → Prop) `{∀ kv, Decision (P kv)} o :
  NoDup (obj_keys o) → NoDup (obj_keys (filter P o)).
Proof.
  unfold obj_keys. intros Hnd. apply (sublist_NoDup _ (o.*1)); [done|].
  apply fmap_sublist, sublist_filter.
Qed.

Lemma putCookie_elem (jar : list obj) (cookie : obj) : cookie ∈ putCookie jar cookie.
Proof.
  induction jar as [|c jar IH]; simpl; [left|].
  destruct (same_cookie c cookie); [left | by right].
Qed.
End spread_facts.

Section addCookie_facts.
Variable rt : Runtime.
Variable extractDomainFromUrl : string → string.
Variable creation : value.
Implicit Types (cookie clone jarOptions : obj) (k domain : string).

(** The validator reads five fields and no other. *)
Lemma isValidCookie_ext (a b : obj) :
  (∀ k, k ∈ ["name"; "value"; "httpOnly"; "secure"; "expiry"] →
        obj_get k a = obj_get k b) →
  isValidCookie a = isValidCookie b.
Proof.
  intros H. unfold isValidCookie, get_prop.
  rewrite !(H "name"), !(H "value"), !(H "httpOnly"), !(H "secure"), !(H "expiry");
    [done|list_member..].
Qed.

Lemma isCookieDomainDotPrefixed_dot cookie domain :
  obj_get "domain" cookie = Some (VStr (String "." domain)) →
  isCookieDomainDotPrefixed cookie = Ok true.
Proof.
  intros H. unfold isCookieDomainDotPrefixed, get_prop. rewrite H. simpl.
  by destruct domain.
Qed.

Lemma cloneCookie_dot cookie domain :
  NoDup (obj_keys cookie) →
  obj_get "domain" cookie = Some (VStr (String "." domain)) →
  cloneCookieWithoutDomainDotPrefix cookie = Ok (obj_set "domain" (VStr domain) cookie).
Proof.
  intros Hnd H. unfold cloneCookieWithoutDomainDotPrefix, get_prop. rewrite H. simpl.
  by rewrite obj_spread_copy.
Qed.

Lemma createCookieJarOptions_get clone activeDomain k :
  NoDup (obj_keys clone) →
  obj_get k (createCookieJarOptions clone activeDomain)
  = match obj_get k clone with
    | Some v => Some v
    | None => obj_get k (cookie_defaults activeDomain)
    end.
Proof.
  intros Hnd. unfold createCookieJarOptions. by rewrite obj_get_spread.
Qed.

Lemma createCookieJarOptions_NoDup clone activeDomain :
  NoDup (obj_keys (createCookieJarOptions clone activeDomain)).
Proof.
  unfold createCookieJarOptions. apply obj_spread_NoDup.
  by apply (bool_decide_unpack _).
Qed.

Lemma cookie_options_unfold jarOptions :
  cookie_options rt jarOptions
  = obj_spread
      (obj_spread [("key", get_prop jarOptions "name")]
         (if truthy (get_prop jarOptions "expiry")
          then [("0", VDate (Date_new rt (get_prop jarOptions "expiry")))] else []))
      (filter (λ kv, kept_field kv.1) jarOptions).
Proof. reflexivity. Qed.

Lemma cookie_options_NoDup jarOptions : NoDup (obj_keys (cookie_options rt jarOptions)).
Proof.
  rewrite cookie_options_unfold. apply obj_spread_NoDup.
  destruct (truthy _); by apply (bool_decide_unpack _).
Qed.

Lemma cookie_options_get jarOptions k :
  NoDup (obj_keys jarOptions) →
  obj_get k (cookie_options rt jarOptions)
  = if decide (kept_field k)
    then match obj_get k jarOptions with
         | Some v => Some v
         | None =>
             if decide (k = "key") then Some (get_prop jarOptions "name")
             else if decide (k = "0") then
               (if truthy (get_prop jarOptions "expiry")
                then Some (VDate (Date_new rt (get_prop jarOptions "expiry")))
                else None)
             else None
         end
    else None.
Proof.
  intros Hnd. rewrite cookie_options_unfold.
  rewrite obj_get_spread by (by apply obj_filter_NoDup).
  rewrite (obj_get_filter_keys kept_field).
  assert (obj_get k
            (obj_spread [("key", get_prop jarOptions "name")]
               (if truthy (get_prop jarOptions "expiry")
                then [("0", VDate (Date_new rt (get_prop jarOptions "expiry")))]
                else []))
          = if decide (k = "key") then Some (get_prop jarOptions "name")
            else if decide (k = "0") then
              (if truthy (get_prop jarOptions "expiry")
               then Some (VDate (Date_new rt (get_prop jarOptions "expiry")))
               else None)
            else None) as ->.
  { destruct (truthy _); simpl.
    - repeat case_decide; subst; try done.
    - repeat case_decide; subst; try done. }
  destruct (decide (kept_field k)) as [Hk|Hk].
  - by destruct (obj_get k jarOptions).
  - unfold kept_field in Hk. repeat case_decide; subst; try done.
    all: exfalso; apply Hk; split; discriminate.
Qed.

Lemma Cookie_new_get options k :
  NoDup (obj_keys options) →
  obj_get k (Cookie_new creation options)
  = if decide (k = "creation") then Some creation else obj_get k options.
Proof.
  intros Hnd. unfold Cookie_new. rewrite obj_spread_copy by done.
  rewrite obj_get_set. repeat case_decide; congruence.
Qed.
End addCookie_facts.

(** C9, on the code. In a browser with a window, on a page with an
    accepted scheme, a valid cookie whose domain starts with a dot is cloned
    with the dot stripped, every other field and the order of the fields
    unchanged; the clone is what is validated, and what is stored is made
    from the clone: its domain is the stripped one, and each further field
    other than the name and the expiry is the cookie's where the cookie has
    it, false and empty values included, and the default ([path] "/",
    [secure] and [httpOnly] false) only where it has not. The defaults are
    filled that way for any cookie, the domain (the active one) included. So
    a later [getCookies] has a record with the cookie's name and the
    stripped domain, as for [{name: "x", value: "y", domain: ".example.com"}]
    on [about:blank].

    But the expiry does not pass through. [addCookie] takes [expiry] out of
    the fields and spreads a one-element array that holds its date into the
    object for [new Cookie]; that puts the date under the index [0], not
    under [expires] as the comment beside it intends. So the object for
    [new Cookie], and with it what is stored, has no [expiry], and has an
    [expires] only when the cookie itself has a field of that name: the
    expiration of a valid cookie is lost, as for
    [{name: "x", value: "y", domain: ".example.com", expiry: 2000000000}]
    on [about:blank], whose record in a later [getCookies] has no expiry. *)
Theorem addCookie_strips_domain_dot
    (rt : Runtime) (extractDomainFromUrl : string → string) (creation : value)
    (this : Browser) (cookie : obj) (domain : string) :
  window_open this = true →
  isValidScheme (before_first ":" (document_URL this)) = true →
  NoDup (obj_keys cookie) →
  obj_get "domain" cookie = Some (VStr (String "." domain)) →
  isValidCookie cookie = true →
  let clone := obj_set "domain" (VStr domain) cookie in
  let activeDomain := extractDomainFromUrl (document_URL this) in
  let options := cookie_options rt (createCookieJarOptions clone activeDomain) in
  let stored := Cookie_new creation options in
  let this' := with_cookieJar this (putCookie (cookieJar this) stored) in
  (cloneCookieWithoutDomainDotPrefix cookie = Ok clone
   ∧ obj_keys clone = obj_keys cookie
   ∧ (∀ k, k ≠ "domain" → obj_get k clone = obj_get k cookie)
   ∧ isValidCookie clone = true)
  ∧ addCookie rt extractDomainFromUrl creation this cookie = Ok this'
  ∧ (obj_get "domain" stored = Some (VStr domain)
     ∧ ∀ k, k ∉ ["domain"; "name"; "expiry"; "key"; "0"; "creation"] →
            obj_get k stored
            = match obj_get k cookie with
              | Some v => Some v
              | None => obj_get k (cookie_defaults activeDomain)
              end)
  ∧ (∀ (c : obj) (d k : string), NoDup (obj_keys c) →
       obj_get k (createCookieJarOptions c d)
       = match obj_get k c with
         | Some v => Some v
         | None => obj_get k (cookie_defaults d)
         end)
  ∧ (obj_get "key" cookie = None →
     ∃ c, c ∈ getCookies rt this'
          ∧ get_prop c "name" = get_prop cookie "name"
          ∧ get_prop c "domain" = VStr domain)
  ∧ (∃ browser',
       addCookie rt extractDomainFromUrl creation
         {| window_open := true; document_URL := "about:blank"; cookieJar := [] |}
         [("name", VStr "x"); ("value", VStr "y"); ("domain", VStr ".example.com")]
       = Ok browser'
       ∧ getCookies rt browser'
         = [[("name", VStr "x"); ("value", VStr "y"); ("domain", VStr "example.com");
             ("path", VStr "/"); ("secure", VBool false); ("httpOnly", VBool false)]])
  ∧ ((obj_get "expiry" options = None
      ∧ obj_get "expires" options = obj_get "expires" cookie
      ∧ (truthy (get_prop cookie "expiry") = true → obj_get "0" cookie = None →
         obj_get "0" options = Some (VDate (Date_new rt (get_prop cookie "expiry")))))
     ∧ (obj_get "expiry" stored = None
        ∧ obj_get "expires" stored = obj_get "expires" cookie
        ∧ (truthy (get_prop cookie "expiry") = true → obj_get "0" cookie = None →
           obj_get "0" stored = Some (VDate (Date_new rt (get_prop cookie "expiry"))))))
  ∧ (∃ browser',
       addCookie rt extractDomainFromUrl creation
         {| window_open := true; document_URL := "about:blank"; cookieJar := [] |}
         [("name", VStr "x"); ("value", VStr "y"); ("domain", VStr ".example.com");
          ("expiry", of_int 2000000000)]
       = Ok browser'
       ∧ cookieJar browser'
         = [[("key", VStr "x"); ("0", VDate (Some 2000000000%Z));
             ("domain", VStr "example.com"); ("path", VStr "/");
             ("secure", VBool false); ("httpOnly", VBool false); ("value", VStr "y");
             ("creation", creation)]]
       ∧ getCookies rt browser'
         = [[("name", VStr "x"); ("value", VStr "y"); ("0", VDate (Some 2000000000%Z));
             ("domain", VStr "example.com"); ("path", VStr "/");
             ("secure", VBool false); ("httpOnly", VBool false)]]).
Proof.
  intros Hwin Hscheme Hnd Hdom Hvalid clone activeDomain options stored this'.
  assert (NoDup (obj_keys clone)) as Hndc by (by apply obj_set_NoDup).
  assert (∀ k, k ≠ "domain" → obj_get k clone = obj_get k cookie) as Hother.
  { intros k Hk. unfold clone. rewrite obj_get_set. by rewrite decide_False. }
  assert (isValidCookie clone = true) as Hvalidc.
  { rewrite <- Hvalid. apply isValidCookie_ext. intros k Hk. apply Hother.
    intros ->. list_absurd Hk. }
  set (jarOptions := createCookieJarOptions clone activeDomain).
  assert (NoDup (obj_keys jarOptions)) as Hndj by apply createCookieJarOptions_NoDup.
  assert (∀ k, obj_get k stored
               = if decide (k = "creation") then Some creation
                 else obj_get k (cookie_options rt jarOptions)) as Hstored.
  { intros k. unfold stored, options. apply Cookie_new_get, cookie_options_NoDup. }
  assert (obj_get "expiry" options = None
          ∧ obj_get "expires" options = obj_get "expires" cookie
          ∧ (truthy (get_prop cookie "expiry") = true → obj_get "0" cookie = None →
             obj_get "0" options = Some (VDate (Date_new rt (get_prop cookie "expiry")))))
    as Hexpiry.
  { unfold options. fold jarOptions. rewrite !cookie_options_get by done.
    assert (∀ k, k ∈ ["expires"; "0"; "expiry"] →
                 obj_get k jarOptions = obj_get k cookie) as Hjar.
    { intros k Hk. unfold jarOptions. rewrite createCookieJarOptions_get by done.
      rewrite Hother by (intros ->; list_absurd Hk).
      destruct (obj_get k cookie); [done|]. list_cases Hk; reflexivity. }
    split; [by rewrite decide_False by (by intros [? ?])|].
    rewrite !decide_True by (split; discriminate).
    rewrite !Hjar by list_member. split.
    - destruct (obj_get "expires" cookie); [done|].
      rewrite !decide_False by done. reflexivity.
    - intros Htruthy ->. rewrite decide_True by (split; discriminate).
      rewrite decide_False, decide_True by done.
      assert (get_prop jarOptions "expiry" = get_prop cookie "expiry") as ->.
      { unfold get_prop. by rewrite Hjar by list_member. }
      by rewrite Htruthy. }
  assert (obj_get "domain" stored = Some (VStr domain)) as Hsd.
  { rewrite Hstored, decide_False by done.
    rewrite cookie_options_get by done.
    rewrite decide_True by (split; discriminate).
    unfold jarOptions. rewrite createCookieJarOptions_get by done.
    unfold clone. rewrite obj_get_set. by rewrite decide_True. }
  split; [|split; [|split; [|split; [|split; [|split; [|split]]]]]].
  - split; [by apply cloneCookie_dot|]. split; [|done].
    apply obj_keys_set_present. apply obj_has_keys. unfold obj_has.
    rewrite Hdom. by apply bool_decide_eq_true.
  - unfold addCookie. rewrite Hwin. simpl. unfold getUrl. rewrite Hscheme. simpl.
    rewrite (isCookieDomainDotPrefixed_dot _ domain Hdom). simpl.
    rewrite (cloneCookie_dot _ domain Hnd Hdom). simpl.
    fold clone. rewrite Hvalidc. reflexivity.
  - split; [done|]. intros k Hk.
    assert (k ≠ "domain" ∧ k ≠ "name" ∧ k ≠ "expiry" ∧ k ≠ "key" ∧ k ≠ "0"
            ∧ k ≠ "creation") as (? & ? & ? & ? & ? & ?).
    { repeat split; intros ->; apply Hk; list_member. }
    rewrite Hstored, decide_False by done.
    rewrite cookie_options_get by done.
    rewrite decide_True by (by split).
    unfold jarOptions. rewrite createCookieJarOptions_get by done.
    rewrite Hother by done.
    destruct (obj_get k cookie); [done|].
    destruct (obj_get k (cookie_defaults activeDomain)); [done|].
    by rewrite !decide_False.
  - intros c d k Hc. by apply createCookieJarOptions_get.
  - intros Hkey. exists (convert_cookie rt stored). split; [|split].
    + rewrite getCookies_fmap. apply list_elem_of_fmap_2. apply putCookie_elem.
    + assert (obj_get "key" stored = Some (get_prop cookie "name")) as Hk.
      { rewrite Hstored, decide_False by done.
        rewrite cookie_options_get by done.
        rewrite decide_True by (split; discriminate).
        unfold jarOptions. rewrite createCookieJarOptions_get by done.
        rewrite Hother, Hkey by done. simpl.
        unfold get_prop at 1. rewrite createCookieJarOptions_get by done.
        rewrite Hother by done. unfold get_prop.
        by destruct (obj_get "name" cookie). }
      unfold get_prop at 1. rewrite convert_cookie_unfold, obj_get_delete.
      rewrite decide_False by done. rewrite convert_name.
      * simpl. unfold get_prop at 1. by rewrite Hk.
      * apply obj_get_None. rewrite Hstored, decide_False by done.
        rewrite cookie_options_get by done. by rewrite decide_False by (by intros [? ?]).
      * apply obj_has_keys. unfold obj_has. rewrite Hk. by apply bool_decide_eq_true.
    + unfold get_prop at 1. rewrite convert_cookie_unfold, obj_get_delete.
      rewrite decide_False by done. rewrite convert_other.
      * simpl. unfold get_prop. by rewrite Hsd.
      * intros Hin. list_absurd Hin.
      * apply obj_has_keys. unfold obj_has. rewrite Hsd. by apply bool_decide_eq_true.
  - exists {| window_open := true; document_URL := "about:blank";
              cookieJar := [[("key", VStr "x"); ("domain", VStr "example.com");
                             ("path", VStr "/"); ("secure", VBool false);
                             ("httpOnly", VBool false); ("value", VStr "y");
                             ("creation", creation)]] |}.
    clear. split; vm_compute; reflexivity.
  - split; [exact Hexpiry|].
    rewrite !Hstored, !decide_False by done. exact Hexpiry.
  - exists {| window_open := true; document_URL := "about:blank";
              cookieJar := [[("key", VStr "x"); ("0", VDate (Some 2000000000%Z));
                             ("domain", VStr "example.com"); ("path", VStr "/");
                             ("secure", VBool false); ("httpOnly", VBool false);
                             ("value", VStr "y"); ("creation", creation)]] |}.
    clear. split; [|split]; vm_compute; reflexivity.
Qed.

(** ** matchCapabilities in closed form *)

Section matching.
Variable rt : Runtime.
Implicit Types (caps m : obj) (k : string) (ks : list string).

Lemma matchCapabilities_unfold caps :
  matchCapabilities rt caps
  = let* final := forEach (match_step rt caps) (obj_keys caps)
                    (true, implementation_capabilities rt) in
    Ok (if final.1 then Some final.2 else None).
Proof. reflexivity. Qed.

Lemma get_prop_set k k' v m :
  get_prop (obj_set k v m) k' = if decide (k = k') then v else get_prop m k'.
Proof. unfold get_prop. rewrite obj_get_set. by case_decide. Qed.

(** A step on a key other than a truthy [setWindowRect] does not throw: it
    lowers the flag if the key is compared and differs, and writes the key
    while the flag is up. *)
Lemma match_step_ok caps flag m k :
  (k = "setWindowRect" → truthy (get_prop caps k) = false) →
  match_step rt caps (flag, m) k
  = let flag' :=
      flag && negb (bool_decide (k ∈ compared_keys)
                    && negb (strict_equals (get_prop caps k) (get_prop m k))) in
    Ok (flag', if flag' then obj_set k (get_prop caps k) m else m).
Proof.
  intros Hswr. unfold match_step, compared_keys.
  destruct (decide (k = "browserName")) as [->|?];
    [simpl; by destruct (strict_equals _ _), flag|].
  destruct (decide (k = "platformName")) as [->|?];
    [simpl; by destruct (strict_equals _ _), flag|].
  destruct (decide (k = "browserVersion")) as [->|?];
    [simpl; by destruct (strict_equals _ _), flag|].
  rewrite !(bool_decide_eq_false_2 (k = _)) by done. simpl.
  rewrite (bool_decide_eq_false_2 (k ∈ _)).
  2:{ intros Hin. list_cases Hin; done. }
  destruct (decide (k = "setWindowRect")) as [->|?].
  - simpl. rewrite Hswr by done. by destruct flag.
  - rewrite bool_decide_eq_false_2 by done. by destruct flag.
Qed.

Lemma match_loop_ok caps ks flag m :
  NoDup ks →
  truthy (get_prop caps "setWindowRect") = false →
  (∀ k, k ∈ ks → k ∈ compared_keys →
        get_prop m k = get_prop (implementation_capabilities rt) k) →
  ∃ m', forEach (match_step rt caps) ks (flag, m)
        = Ok (flag && negb (existsb (key_mismatch rt caps) ks), m')
        ∧ (flag && negb (existsb (key_mismatch rt caps) ks) = true →
           m' = foldl (λ m k, obj_set k (get_prop caps k) m) m ks).
Proof.
  intros Hnd Hswr. revert flag m.
  induction Hnd as [|k ks Hk Hnd IH]; intros flag m Hm.
  - exists m. simpl. rewrite andb_true_r. done.
  - cbn [forEach]. rewrite match_step_ok by (by intros ->).
    cbn zeta. cbn [bind].
    set (flag' := flag && negb (bool_decide (k ∈ compared_keys)
                                && negb (strict_equals (get_prop caps k) (get_prop m k)))).
    assert (flag' = flag && negb (key_mismatch rt caps k)) as Hflag'.
    { unfold flag', key_mismatch. destruct (bool_decide (k ∈ compared_keys)) eqn:E; [|done].
      apply bool_decide_eq_true in E. rewrite Hm; [done | left | done]. }
    destruct (IH flag' (if flag' then obj_set k (get_prop caps k) m else m))
      as (m' & Hloop & Hm').
    { intros k' Hk' Hc. destruct flag'; [|apply Hm; [by right | done]].
      rewrite get_prop_set. rewrite decide_False by (by intros ->).
      apply Hm; [by right | done]. }
    exists m'. rewrite Hloop. cbn [existsb]. split.
    + f_equal. f_equal. rewrite Hflag'.
      by destruct flag, (key_mismatch rt caps k), (existsb _ ks).
    + intros Hfinal. cbn [foldl].
      assert (flag = true ∧ key_mismatch rt caps k = false
              ∧ existsb (key_mismatch rt caps) ks = false) as (Hf & Hkm & Hex).
      { by destruct flag, (key_mismatch rt caps k), (existsb _ ks). }
      assert (flag' = true) as Hf' by (by rewrite Hflag', Hf, Hkm).
      rewrite Hf' in Hm'. rewrite Hm'; [done|]. by rewrite Hex.
Qed.

Lemma match_loop_throws caps ks st :
  "setWindowRect" ∈ ks →
  truthy (get_prop caps "setWindowRect") = true →
  forEach (match_step rt caps) ks st = Throw InvalidArgument.
Proof.
  intros Hin Hswr. revert st. induction ks as [|k ks IH]; intros [flag m].
  - by apply elem_of_nil in Hin.
  - cbn [forEach]. destruct (decide (k = "setWindowRect")) as [->|Hne].
    + unfold match_step. simpl. by rewrite Hswr.
    + rewrite match_step_ok by done. cbn zeta. cbn [bind].
      apply IH. apply elem_of_cons in Hin as [?|?]; [congruence | done].
Qed.

(** Writing every key of an object with the value read under it is
    spreading the object. *)
Lemma set_each_key_spread caps m :
  NoDup (obj_keys caps) →
  foldl (λ m k, obj_set k (get_prop caps k) m) m (obj_keys caps) = obj_spread m caps.
Proof.
  intros Hnd. unfold obj_spread.
  assert (∀ pre suf m, caps = pre ++ suf →
            foldl (λ m k, obj_set k (get_prop caps k) m) m (obj_keys suf)
            = foldl (λ acc kv, obj_set kv.1 kv.2 acc) m suf) as H.
  { intros pre suf. revert pre. induction suf as [|[k v] suf IH]; intros pre m0 Hc; [done|].
    simpl. assert (get_prop caps k = v) as ->.
    { subst caps. unfold get_prop. rewrite obj_get_app_r.
      - simpl. by rewrite decide_True.
      - unfold obj_keys in Hnd. rewrite fmap_app in Hnd.
        apply NoDup_app in Hnd as (_ & Hd & _). intros Hin.
        apply (Hd _ Hin). simpl. left. }
    apply (IH (pre ++ [(k, v)])). by rewrite <- app_assoc. }
  by apply (H []).
Qed.

(** The result of [matchCapabilities], case by case. *)
Lemma matchCapabilities_closed_form caps :
  NoDup (obj_keys caps) →
  matchCapabilities rt caps
  = if truthy (get_prop caps "setWindowRect") then Throw InvalidArgument
    else if mismatches rt caps then Ok None
    else Ok (Some (obj_spread (implementation_capabilities rt) caps)).
Proof.
  intros Hnd. rewrite matchCapabilities_unfold.
  destruct (truthy (get_prop caps "setWindowRect")) eqn:Hswr.
  - rewrite match_loop_throws; [done| |done].
    apply obj_has_keys. unfold obj_has. apply bool_decide_eq_true.
    unfold get_prop in Hswr. by destruct (obj_get "setWindowRect" caps).
  - destruct (match_loop_ok caps (obj_keys caps) true (implementation_capabilities rt))
      as (m' & -> & Hm'); [done..|].
    cbn [bind fst snd andb] in *. unfold mismatches.
    destruct (existsb (key_mismatch rt caps) (obj_keys caps)); [done|]. cbn [negb].
    rewrite Hm' by done. by rewrite set_each_key_spread.
Qed.

(** What a result of [matchCapabilities] reports about the
    implementation. *)
Lemma matchCapabilities_reports caps m :
  NoDup (obj_keys caps) →
  matchCapabilities rt caps = Ok (Some m) →
  get_prop m "browserName" = VStr "pluma"
  ∧ get_prop m "browserVersion" = VStr "v1.0"
  ∧ get_prop m "platformName" = VStr (os_platform rt)
  ∧ truthy (get_prop m "setWindowRect") = false.
Proof.
  intros Hnd. rewrite matchCapabilities_closed_form by done.
  destruct (truthy (get_prop caps "setWindowRect")) eqn:Hswr; [done|].
  destruct (mismatches rt caps) eqn:Hmis; [done|]. intros [= <-].
  assert (∀ k s, k ∈ compared_keys →
            get_prop (implementation_capabilities rt) k = VStr s →
            get_prop (obj_spread (implementation_capabilities rt) caps) k = VStr s) as H.
  { intros k s Hk Himpl. unfold get_prop at 1. rewrite obj_get_spread by done.
    destruct (obj_get k caps) as [v|] eqn:Hget; [|exact Himpl]. simpl.
    unfold mismatches in Hmis.
    assert (key_mismatch rt caps k = false) as Hkm.
    { destruct (key_mismatch rt caps k) eqn:E; [|done].
      assert (existsb (key_mismatch rt caps) (obj_keys caps) = true); [|congruence].
      apply existsb_exists. exists k. split; [|done].
      apply list_elem_of_In, obj_has_keys. unfold obj_has. rewrite Hget.
      by apply bool_decide_eq_true. }
    unfold key_mismatch in Hkm. rewrite bool_decide_eq_true_2 in Hkm by done.
    unfold get_prop at 1 in Hkm. rewrite Hget, Himpl in Hkm. simpl in Hkm.
    destruct v; simpl in Hkm; try done.
    apply negb_false_iff, bool_decide_eq_true in Hkm. by subst. }
  split; [apply H; [list_member | done]|].
  split; [apply H; [list_member | done]|].
  split; [apply H; [list_member | done]|].
  unfold get_prop at 1. rewrite obj_get_spread by done.
  unfold get_prop in Hswr. by destruct (obj_get "setWindowRect" caps).
Qed.
End matching.

(** X3. For a set of capabilities (an object, so no key twice):
    [matchCapabilities] throws InvalidArgument when [setWindowRect] is
    requested with a truthy value, whatever else is requested; otherwise it
    returns [null] when one of [browserName], [platformName] and
    [browserVersion] is requested with a value that is not the
    implementation's; otherwise it returns the capabilities of the
    implementation with every requested key written over them. *)
Theorem matchCapabilities_cases (rt : Runtime) (capabilties : obj) :
  NoDup (obj_keys capabilties) →
  matchCapabilities rt capabilties
  = if truthy (get_prop capabilties "setWindowRect") then Throw InvalidArgument
    else if mismatches rt capabilties then Ok None
    else Ok (Some (obj_spread (implementation_capabilities rt) capabilties)).
Proof. apply matchCapabilities_closed_form. Qed.

(** ** processCapabilities, phase by phase *)

Lemma bind_Ok_inv {A B : Type} (m : result A) (k : A → result B) (b : B) :
  bind m k = Ok b → ∃ a, m = Ok a ∧ k a = Ok b.
Proof. destruct m as [a|e]; simpl; [by exists a | done]. Qed.

(** A loop that pushes one result per element: as many results as
    elements, each the result of its element. *)
Lemma forEach_collect {A B : Type} (f : A → result B) (l : list A) (acc out : list B) :
  forEach (λ (acc : list B) x, let* y := f x in Ok (acc ++ [y])) l acc = Ok out →
  ∃ ys, out = acc ++ ys ∧ Forall2 (λ x y, f x = Ok y) l ys.
Proof.
  revert acc. induction l as [|x l IH]; intros acc; cbn [forEach].
  - intros [= <-]. exists []. by rewrite app_nil_r.
  - intros H. apply bind_Ok_inv in H as (acc' & Hx & H).
    apply bind_Ok_inv in Hx as (y & Hy & [= <-]).
    apply IH in H as (ys & -> & Hys). exists (y :: ys).
    rewrite <- app_assoc. split; [done|]. by constructor.
Qed.

Section phases.
Variable rt : Runtime.
Variable validate : value → string → bool.
Implicit Types (o A F : obj) (k : string) (ks : list string).

Lemma set_each_NoDup (g : string → value) ks acc :
  NoDup (obj_keys acc) →
  NoDup (obj_keys (foldl (λ r key, obj_set key (g key) r) acc ks)).
Proof.
  revert acc. induction ks as [|k ks IH]; intros acc Hnd; simpl; [done|].
  apply IH. by apply obj_set_NoDup.
Qed.

(** Whatever it is given, [mergeCapabilities] returns an object. *)
Lemma mergeCapabilities_NoDup A (secondary : option obj) r :
  mergeCapabilities A secondary = Ok r → NoDup (obj_keys r).
Proof.
  unfold mergeCapabilities.
  assert (NoDup (obj_keys (foldl (λ result key, obj_set key (get_prop A key) result)
                                 [] (obj_keys A)))) as Hcopy.
  { apply (set_each_NoDup (get_prop A)). constructor. }
  revert Hcopy. generalize (foldl (λ result key, obj_set key (get_prop A key) result)
                                  [] (obj_keys A)) as acc.
  destruct secondary as [F|]; [|by intros acc ? [= <-]].
  generalize (obj_keys F) as ks. intros ks. induction ks as [|k ks IH]; intros acc Hnd.
  - by intros [= <-].
  - cbn [forEach]. destruct (obj_has k A); [done|]. cbn [bind].
    apply IH. by apply obj_set_NoDup.
Qed.

(** *** alwaysMatch *)

Lemma validate_alwaysMatch_unfold o :
  validate_alwaysMatch validate (VObj o) = forEach (always_step validate (VObj o)) defaultCapabilities [].
Proof. reflexivity. Qed.

Lemma always_loop_ok o ks acc :
  (∀ k v, k ∈ ks → obj_get k o = Some v → validate v k = true) →
  ∃ A, forEach (always_step validate (VObj o)) ks acc = Ok A
       ∧ ∀ k, obj_get k A
              = if decide (k ∈ ks)
                then match obj_get k o with Some v => Some v | None => obj_get k acc end
                else obj_get k acc.
Proof.
  revert acc. induction ks as [|k0 ks IH]; intros acc Hall.
  - exists acc. split; [done|]. intros k. rewrite decide_False; [done | apply not_elem_of_nil].
  - cbn [forEach]. unfold always_step at 1. cbn [hasOwnProperty bind read_own].
    unfold obj_has, get_prop.
    destruct (obj_get k0 o) as [v0|] eqn:Hget; cbn [from_option Datatypes.id].
    + rewrite bool_decide_eq_true_2 by eauto.
      rewrite (Hall k0 v0) by (done || left). cbn [bind].
      destruct (IH (obj_set k0 v0 acc)) as (A & -> & HA).
      { intros k v ?. apply Hall. by right. }
      exists A. split; [done|]. intros k. rewrite HA, obj_get_set.
      destruct (decide (k0 = k)) as [->|Hne].
      * rewrite Hget. rewrite (decide_True (P := k ∈ k :: ks)) by left.
        by destruct (decide (k ∈ ks)).
      * destruct (decide (k ∈ ks)) as [Hin|Hnin].
        -- by rewrite decide_True by (by right).
        -- rewrite decide_False; [done|]. rewrite elem_of_cons. intros [?|?]; congruence.
    + rewrite bool_decide_eq_false_2 by (by intros [? ?]). cbn [bind].
      destruct (IH acc) as (A & -> & HA).
      { intros k v ?. apply Hall. by right. }
      exists A. split; [done|]. intros k. rewrite HA.
      destruct (decide (k0 = k)) as [->|Hne].
      * rewrite Hget. destruct (decide (k ∈ ks)); by rewrite decide_True by left.
      * destruct (decide (k ∈ ks)) as [Hin|Hnin].
        -- by rewrite decide_True by (by right).
        -- rewrite decide_False; [done|]. rewrite elem_of_cons. intros [?|?]; congruence.
Qed.

Lemma always_loop_throws o ks acc :
  (∃ k v, k ∈ ks ∧ obj_get k o = Some v ∧ validate v k = false) →
  forEach (always_step validate (VObj o)) ks acc = Throw InvalidArgument.
Proof.
  revert acc. induction ks as [|k0 ks IH]; intros acc (k & v & Hin & Hget & Hbad).
  - by apply elem_of_nil in Hin.
  - cbn [forEach]. unfold always_step at 1. cbn [hasOwnProperty bind read_own].
    unfold obj_has, get_prop.
    destruct (obj_get k0 o) as [v0|] eqn:Hget0; cbn [from_option Datatypes.id].
    + rewrite bool_decide_eq_true_2 by eauto.
      destruct (validate v0 k0) eqn:Hv0; [|done]. cbn [bind].
      apply IH. exists k, v. split; [|done].
      apply elem_of_cons in Hin as [->|?]; [congruence | done].
    + rewrite bool_decide_eq_false_2 by (by intros [? ?]). cbn [bind].
      apply IH. exists k, v. split; [|done].
      apply elem_of_cons in Hin as [->|?]; [congruence | done].
Qed.

Lemma always_loop_NoDup (alwaysMatch : value) ks acc A :
  NoDup (obj_keys acc) →
  forEach (always_step validate alwaysMatch) ks acc = Ok A → NoDup (obj_keys A).
Proof.
  revert acc. induction ks as [|k0 ks IH]; intros acc Hnd; cbn [forEach].
  - by intros [= <-].
  - intros H. apply bind_Ok_inv in H as (acc' & Hstep & H).
    apply (IH acc'); [|done]. unfold always_step in Hstep.
    apply bind_Ok_inv in Hstep as (has & _ & Hstep).
    destruct has; [|by injection Hstep as <-].
    destruct (validate _ _); [|done]. injection Hstep as <-. by apply obj_set_NoDup.
Qed.

(** *** firstMatch *)

Lemma firstMatch_entry_unfold o :
  validate_firstMatch_entry validate (VObj o)
  = Ok (foldl (λ acc key, if validate (get_prop o key) key
                          then obj_set key (get_prop o key) acc else acc)
              [] (obj_keys o)).
Proof. reflexivity. Qed.

Lemma firstMatch_entry_NoDup (entry : value) r :
  validate_firstMatch_entry validate entry = Ok r → NoDup (obj_keys r).
Proof.
  unfold validate_firstMatch_entry. intros H.
  apply bind_Ok_inv in H as (entries & _ & [= <-]).
  generalize (obj_keys entries) as ks.
  assert (NoDup (obj_keys (@nil (string * value)))) as Hnil by constructor.
  revert Hnil. generalize (@nil (string * value)) as acc.
  intros acc Hacc ks. revert acc Hacc.
  induction ks as [|k ks IH]; intros acc Hacc; simpl; [done|].
  apply IH. destruct (validate _ _); [by apply obj_set_NoDup | done].
Qed.

(** *** The whole negotiation *)

(** A negotiation that returns went through the last loop with at least
    one merged set, and each merged set is an object. *)
Lemma processCapabilities_Ok_inv (request : value) (r : option obj) :
  processCapabilities rt validate request = Ok r →
  ∃ l c, match_all rt (l ++ [c]) = Ok r ∧ NoDup (obj_keys c).
Proof.
  unfold processCapabilities. intros H.
  apply bind_Ok_inv in H as (capabiltiesRequest & _ & H).
  apply bind_Ok_inv in H as (invalid & _ & H).
  destruct invalid; [done|].
  apply bind_Ok_inv in H as (required & _ & H).
  apply bind_Ok_inv in H as (items & Hitems & H).
  apply bind_Ok_inv in H as (validated & Hvalidated & H).
  apply bind_Ok_inv in H as (merged & Hmerged & H).
  assert (items ≠ []) as Hne.
  { destruct (strict_equals _ VUndefined); [by injection Hitems as <-|].
    apply bind_Ok_inv in Hitems as (name & _ & Hitems).
    destruct (negb (bool_decide (name = "array")) || length_is_zero _) eqn:Hc; [done|].
    apply orb_false_iff in Hc as [_ Hzero].
    destruct (read_own _ "firstMatch"); try done. injection Hitems as <-.
    simpl in Hzero. by apply bool_decide_eq_false in Hzero. }
  apply forEach_collect in Hvalidated as (vs & -> & Hvs).
  apply (forEach_collect (λ firstMatch, mergeCapabilities required (Some firstMatch)))
    in Hmerged as (ms & -> & Hms).
  simpl in *.
  assert (ms ≠ []) as Hms_ne.
  { intros ->. apply Forall2_nil_inv_r in Hms as ->.
    apply Forall2_nil_inv_r in Hvs. done. }
  destruct ms as [|c0 ms0 _] using rev_ind; [done|].
  exists ms0, c0. split; [done|].
  apply Forall2_app_inv_r in Hms as (fs1 & fs2 & _ & Hlast & _).
  apply Forall2_cons_inv_r in Hlast as (f & ? & Hf & _ & _).
  exact (mergeCapabilities_NoDup required (Some f) _ Hf).
Qed.

Lemma match_all_snoc_inv (l : list obj) (c : obj) (r : option obj) :
  match_all rt (l ++ [c]) = Ok r → ∃ m, r = Some m ∧ matchCapabilities rt c = Ok (Some m).
Proof.
  unfold match_all. rewrite forEach_app. intros H.
  apply bind_Ok_inv in H as (before & _ & H). cbn [forEach] in H.
  apply bind_Ok_inv in H as (r' & Hr' & [= <-]).
  apply bind_Ok_inv in Hr' as (matched & Hmatched & Hr').
  destruct matched as [m|]; [|done]. injection Hr' as <-. by exists m.
Qed.
End phases.

(** X4. A negotiation that returns never returns [undefined] or [null]:
    it returns an object, and that object reports the implementation's
    browser name, version and platform, and a [setWindowRect] that is not
    truthy, for every validator and whatever was requested. *)
Theorem processCapabilities_reports_implementation
    (rt : Runtime) (validate : value → string → bool) (request : value)
    (r : option obj) :
  processCapabilities rt validate request = Ok r →
  ∃ m, r = Some m
       ∧ get_prop m "browserName" = VStr "pluma"
       ∧ get_prop m "browserVersion" = VStr "v1.0"
       ∧ get_prop m "platformName" = VStr (os_platform rt)
       ∧ truthy (get_prop m "setWindowRect") = false.
Proof.
  intros H. apply processCapabilities_Ok_inv in H as (l & c & H & Hnd).
  apply match_all_snoc_inv in H as (m & -> & Hm).
  exists m. split; [done|]. by apply (matchCapabilities_reports rt c).
Qed.

(** X5. [alwaysMatch] given as an object: if one of the eight recognised
    keys is present with a value that the validator refuses, the validation
    throws InvalidArgument; otherwise it returns the recognised keys that
    are present, with their values, and nothing else: a key that is not
    recognised is left out, not carried through. *)
Theorem alwaysMatch_keeps_recognised_keys
    (validate : value → string → bool) (alwaysMatch : obj) :
  ((∃ k v, k ∈ defaultCapabilities ∧ obj_get k alwaysMatch = Some v
           ∧ validate v k = false) →
   validate_alwaysMatch validate (VObj alwaysMatch) = Throw InvalidArgument)
  ∧ ((∀ k v, k ∈ defaultCapabilities → obj_get k alwaysMatch = Some v →
             validate v k = true) →
     ∃ required, validate_alwaysMatch validate (VObj alwaysMatch) = Ok required
       ∧ NoDup (obj_keys required)
       ∧ ∀ k, obj_get k required
              = if decide (k ∈ defaultCapabilities) then obj_get k alwaysMatch else None).
Proof.
  rewrite validate_alwaysMatch_unfold. split.
  - apply always_loop_throws.
  - intros Hall. destruct (always_loop_ok validate alwaysMatch defaultCapabilities [] Hall)
      as (A & HA & Hget).
    exists A. split; [done|]. split.
    + apply (always_loop_NoDup validate (VObj alwaysMatch) defaultCapabilities []);
        [constructor | done].
    + intros k. rewrite Hget. destruct (decide (k ∈ defaultCapabilities)); [|done].
      by destruct (obj_get k alwaysMatch).
Qed.

(** X6. The validation of a [firstMatch] entry that is an object never
    throws: it returns the entry without the keys whose value the validator
    refuses, the others in their order. Every key is shown to the
    validator, recognised or not. *)
Theorem firstMatch_entry_is_filtered
    (validate : value → string → bool) (entry : obj) :
  NoDup (obj_keys entry) →
  validate_firstMatch_entry validate (VObj entry)
  = Ok (filter (λ kv, validate kv.2 kv.1 = true) entry).
Proof.
  intros Hnd. rewrite firstMatch_entry_unfold. f_equal.
  assert (∀ pre suf, entry = pre ++ suf →
            foldl (λ acc key, if validate (get_prop entry key) key
                              then obj_set key (get_prop entry key) acc else acc)
                  (filter (λ kv, validate kv.2 kv.1 = true) pre) (obj_keys suf)
            = filter (λ kv, validate kv.2 kv.1 = true) entry) as H.
  { intros pre suf. revert pre. induction suf as [|[k v] suf IH]; intros pre Ho.
    - simpl. subst entry. by rewrite app_nil_r.
    - simpl. assert (k ∉ obj_keys pre) as Hk.
      { subst entry. unfold obj_keys in Hnd. rewrite fmap_app in Hnd.
        apply NoDup_app in Hnd as (_ & Hd & _). intros Hin.
        apply (Hd _ Hin). simpl. left. }
      assert (get_prop entry k = v) as ->.
      { subst entry. unfold get_prop. rewrite obj_get_app_r by done.
        simpl. by rewrite decide_True. }
      replace (if validate v k
               then obj_set k v (filter (λ kv, validate kv.2 kv.1 = true) pre)
               else filter (λ kv, validate kv.2 kv.1 = true) pre)
        with (filter (λ kv, validate kv.2 kv.1 = true) (pre ++ [(k, v)])).
      + apply IH. by rewrite <- app_assoc.
      + rewrite filter_app, filter_cons, filter_nil. simpl.
        destruct (validate v k) eqn:Hv.
        * rewrite decide_True by done. rewrite obj_set_fresh; [done|].
          intros Hin. apply Hk. unfold obj_keys in *.
          apply list_elem_of_fmap in Hin as (kv & -> & Hkv).
          apply list_elem_of_filter in Hkv as [_ Hkv]. by apply list_elem_of_fmap_2.
        * rewrite decide_False by done. by rewrite app_nil_r. }
  by apply (H [] entry).
Qed.

(** X7. Requests of the wrong shape, for every validator. A request
    without [capabilities], or with [capabilities] that is a primitive, an
    array or an empty object: InvalidArgument. With [capabilities] a
    non-empty object that has no [alwaysMatch]: a [firstMatch] that is a
    primitive, an object or an empty array is refused with InvalidArgument
    as well. But
    [null] where an object is expected gives a TypeError, not
    InvalidArgument: as the request, as [capabilities], as [alwaysMatch], as
    [firstMatch] and as an entry of [firstMatch]. *)
Theorem processCapabilities_malformed
    (rt : Runtime) (validate : value → string → bool) :
  (∀ o, obj_get "capabilities" o = None →
       processCapabilities rt validate (VObj o) = Throw InvalidArgument)
  ∧ (∀ o c, obj_get "capabilities" o = Some c →
       primitive c = true ∨ (∃ items, c = VArr items) ∨ c = VObj [] →
       processCapabilities rt validate (VObj o) = Throw InvalidArgument)
  ∧ (∀ o caps fm, obj_get "capabilities" o = Some (VObj caps) →
       obj_get "constructor" caps = None →
       obj_get "alwaysMatch" caps = None →
       obj_get "firstMatch" caps = Some fm →
       primitive fm = true ∨ fm = VArr []
       ∨ (∃ f, fm = VObj f ∧ obj_get "constructor" f = None) →
       processCapabilities rt validate (VObj o) = Throw InvalidArgument)
  ∧ (processCapabilities rt validate VNull = Throw TypeError
     ∧ (∀ o, obj_get "capabilities" o = Some VNull →
          processCapabilities rt validate (VObj o) = Throw TypeError)
     ∧ (∀ o caps, obj_get "capabilities" o = Some (VObj caps) →
          obj_get "constructor" caps = None →
          obj_get "alwaysMatch" caps = Some VNull →
          processCapabilities rt validate (VObj o) = Throw TypeError)
     ∧ (∀ o caps, obj_get "capabilities" o = Some (VObj caps) →
          obj_get "constructor" caps = None →
          obj_get "alwaysMatch" caps = None →
          obj_get "firstMatch" caps = Some VNull →
          processCapabilities rt validate (VObj o) = Throw TypeError)
     ∧ (∀ o caps entries, obj_get "capabilities" o = Some (VObj caps) →
          obj_get "constructor" caps = None →
          obj_get "alwaysMatch" caps = None →
          obj_get "firstMatch" caps = Some (VArr (VNull :: entries)) →
          processCapabilities rt validate (VObj o) = Throw TypeError)).
Proof.
  assert (∀ o caps, obj_get "capabilities" o = Some (VObj caps) →
            obj_get "constructor" caps = None → caps ≠ [] →
            processCapabilities rt validate (VObj o)
            = let capabilities := VObj caps in
              let* requiredCapabilities :=
                validate_alwaysMatch validate (read_own capabilities "alwaysMatch") in
              let allMatchedCapabilities := read_own capabilities "firstMatch" in
              let* allMatchedCapabilities :=
                (if strict_equals allMatchedCapabilities VUndefined then Ok [VObj []]
                 else
                   let* name := constructor_name_lower allMatchedCapabilities in
                   if negb (bool_decide (name = "array"))
                      || length_is_zero allMatchedCapabilities
                   then Throw InvalidArgument
                   else match allMatchedCapabilities with
                        | VArr items => Ok items
                        | _ => Throw TypeError
                        end) in
              let* validatedFirstMatchCapabilties :=
                forEach (λ (validated : list obj) indexedFirstMatchCapability,
                           let* validatedFirstMatchCapability :=
                             validate_firstMatch_entry validate indexedFirstMatchCapability in
                           Ok (validated ++ [validatedFirstMatchCapability]))
                        allMatchedCapabilities [] in
              let* mergedCapabilities :=
                forEach (λ (mergedCapabilities : list obj) firstMatch,
                           let* merged :=
                             mergeCapabilities requiredCapabilities (Some firstMatch) in
                           Ok (mergedCapabilities ++ [merged]))
                        validatedFirstMatchCapabilties [] in
              match_all rt mergedCapabilities) as Hshape.
  { intros o caps Hcaps Hctor Hne. unfold processCapabilities.
    cbn [hasOwnProperty bind read_own]. unfold obj_has at 1, get_prop.
    rewrite Hcaps. cbn [from_option Datatypes.id].
    rewrite bool_decide_eq_true_2 by eauto. cbn [negb constructor_is_not_Object bind].
    unfold obj_has. rewrite Hctor.
    rewrite bool_decide_eq_false_2 by (by intros [? ?]).
    cbn [own_enumerable bind].
    rewrite bool_decide_eq_false_2; [reflexivity|].
    destruct caps; [done | discriminate]. }
  assert (∀ o caps (fm : value),
            obj_get "capabilities" o = Some (VObj caps) →
            obj_get "constructor" caps = None →
            is_Some (obj_get "firstMatch" caps) ∨ is_Some (obj_get "alwaysMatch" caps) →
            caps ≠ []) as Hne.
  { intros o caps fm Hc Hk Hor Hnil. subst caps. destruct Hor as [[? H]|[? H]]; simpl in H; discriminate. }
  repeat apply conj.
  - intros o Hcaps. unfold processCapabilities. cbn [hasOwnProperty bind].
    unfold obj_has. rewrite Hcaps.
    by rewrite bool_decide_eq_false_2 by (by intros [? ?]).
  - intros o c Hcaps Hc. unfold processCapabilities.
    cbn [hasOwnProperty bind read_own]. unfold obj_has at 1, get_prop.
    rewrite Hcaps. cbn [from_option Datatypes.id].
    rewrite bool_decide_eq_true_2 by eauto. cbn [negb].
    destruct Hc as [Hp|[[items ->]| ->]]; [|reflexivity..].
    destruct c; (discriminate || reflexivity).
  - intros o caps fm Hcaps Hctor Halways Hfm Hbad.
    rewrite (Hshape o caps) by (done || by apply (Hne o caps fm); eauto).
    cbn zeta. cbn [read_own]. unfold get_prop. rewrite Halways, Hfm.
    cbn [from_option Datatypes.id strict_equals validate_alwaysMatch bind].
    destruct Hbad as [Hp|[->|(f & -> & Hf)]].
    + destruct fm; (discriminate || reflexivity).
    + reflexivity.
    + simpl. by rewrite Hf.
  - done.
  - intros o Hcaps. unfold processCapabilities.
    cbn [hasOwnProperty bind read_own]. unfold obj_has at 1, get_prop.
    rewrite Hcaps. cbn [from_option Datatypes.id].
    by rewrite bool_decide_eq_true_2 by eauto.
  - intros o caps Hcaps Hctor Halways.
    rewrite (Hshape o caps) by (done || by apply (Hne o caps VNull); eauto).
    cbn zeta. cbn [read_own]. unfold get_prop. rewrite Halways. done.
  - intros o caps Hcaps Hctor Halways Hfm.
    rewrite (Hshape o caps) by (done || by apply (Hne o caps VNull); eauto).
    cbn zeta. cbn [read_own]. unfold get_prop. rewrite Halways, Hfm. done.
  - intros o caps entries Hcaps Hctor Halways Hfm.
    rewrite (Hshape o caps) by (done || by apply (Hne o caps VNull); eauto).
    cbn zeta. cbn [read_own]. unfold get_prop. rewrite Halways, Hfm. done.
Qed.

(** ** configureCapabilties and configureSession *)

Section configure_facts.
Variable rt : Runtime.
Variable validate : value → string → bool.
Implicit Types (this : Session) (caps : obj).

Lemma apply_timeout_cases (requested : value) (field : string) this :
  (requested = VUndefined ∨ requested = VNull) ∧
    apply_timeout requested field this = (Throw TypeError, this)
  ∨ ∃ this', apply_timeout requested field this = (Ok (), this')
      ∧ id this' = id this ∧ pageLoadStrategy this' = pageLoadStrategy this
      ∧ webDriverActive this' = webDriverActive this
      ∧ knownElements this' = knownElements this
      ∧ ∀ k, get_prop (timeouts this') k
             = if decide (k = field) then timeout_after (Some requested) this field
               else get_prop (timeouts this) k.
Proof.
  unfold apply_timeout, timeout_after.
  destruct (hasOwnProperty requested field) as [has|e] eqn:Hhas.
  - right. eexists. split; [done|]. destruct has; simpl.
    + repeat split; try done. intros k. rewrite get_prop_set.
      repeat case_decide; congruence.
    + repeat split; try done. intros k. case_decide; by subst.
  - left. destruct requested; simpl in Hhas; try discriminate.
    all: injection Hhas as <-; split; [auto | done].
Qed.

Lemma timeout_after_frame (requested : value) this this' field :
  get_prop (timeouts this') field = get_prop (timeouts this) field →
  timeout_after (Some requested) this' field = timeout_after (Some requested) this field.
Proof. unfold timeout_after. intros ->. done. Qed.

(** The three steps either throw at the first one, before anything is
    written, or write the requested fields and nothing else. *)
Lemma apply_timeouts_cases (requested : value) this :
  (requested = VUndefined ∨ requested = VNull) ∧
    apply_timeouts requested this = (Throw TypeError, this)
  ∨ ∃ this', apply_timeouts requested this = (Ok (), this')
      ∧ id this' = id this ∧ pageLoadStrategy this' = pageLoadStrategy this
      ∧ webDriverActive this' = webDriverActive this
      ∧ knownElements this' = knownElements this
      ∧ ∀ k, get_prop (timeouts this') k
             = if decide (k ∈ ["implicit"; "script"; "pageLoad"])
               then timeout_after (Some requested) this k
               else get_prop (timeouts this) k.
Proof.
  unfold apply_timeouts.
  destruct (apply_timeout_cases requested "implicit" this)
    as [[Hnull ->]|(s1 & H1 & Hi1 & Hp1 & Hw1 & Hk1 & Ht1)]; [by left|].
  assert (∀ field s, apply_timeout requested field s ≠ (Throw TypeError, s)) as Hok.
  { intros field s Hthrow. unfold apply_timeout in H1, Hthrow.
    destruct requested; cbn [hasOwnProperty] in H1, Hthrow; discriminate. }
  rewrite H1.
  destruct (apply_timeout_cases requested "script" s1)
    as [[_ Hthrow]|(s2 & -> & Hi2 & Hp2 & Hw2 & Hk2 & Ht2)]; [by apply Hok in Hthrow|].
  destruct (apply_timeout_cases requested "pageLoad" s2)
    as [[_ Hthrow]|(s3 & -> & Hi3 & Hp3 & Hw3 & Hk3 & Ht3)]; [by apply Hok in Hthrow|].
  right. exists s3. split; [done|].
  repeat split; [congruence..|].
  intros k. rewrite Ht3.
  destruct (decide (k = "pageLoad")) as [->|Hn3].
  { rewrite decide_True by list_member.
    apply timeout_after_frame. rewrite Ht2, Ht1. by rewrite !decide_False. }
  rewrite Ht2. destruct (decide (k = "script")) as [->|Hn2].
  { rewrite decide_True by list_member.
    apply timeout_after_frame. rewrite Ht1. by rewrite decide_False. }
  rewrite Ht1. destruct (decide (k = "implicit")) as [->|Hn1].
  { by rewrite decide_True by list_member. }
  rewrite decide_False; [done|]. intros Hin. list_cases Hin; done.
Qed.

Lemma configure_pageLoadStrategy_cases this caps :
  ∃ this1 caps1, configure_pageLoadStrategy this caps = (this1, caps1)
    ∧ get_prop caps1 "pageLoadStrategy" = VStr (pageLoadStrategy this1)
    ∧ pageLoadStrategy this1
      = match obj_get "pageLoadStrategy" caps with
        | Some (VStr strategy) => strategy
        | _ => "normal"
        end
    ∧ (∀ k, k ≠ "pageLoadStrategy" → obj_get k caps1 = obj_get k caps)
    ∧ id this1 = id this ∧ timeouts this1 = timeouts this
    ∧ webDriverActive this1 = webDriverActive this
    ∧ knownElements this1 = knownElements this.
Proof.
  unfold configure_pageLoadStrategy.
  assert (∀ this0 : Session,
            get_prop (obj_set "pageLoadStrategy" (VStr "normal") caps) "pageLoadStrategy"
            = VStr (pageLoadStrategy (with_pageLoadStrategy this0 "normal"))
            ∧ ∀ k, k ≠ "pageLoadStrategy" →
                   obj_get k (obj_set "pageLoadStrategy" (VStr "normal") caps)
                   = obj_get k caps) as Hdefault.
  { intros this0. rewrite get_prop_set, decide_True by done. split; [done|].
    intros k Hk. rewrite obj_get_set. by rewrite decide_False. }
  unfold obj_has, get_prop.
  destruct (obj_get "pageLoadStrategy" caps) as [requested|] eqn:Hget.
  - rewrite bool_decide_eq_true_2 by eauto. cbn [from_option Datatypes.id].
    destruct requested.
    all: eexists _, _; (split; [reflexivity|]).
    all: destruct (Hdefault this) as [H1 H2]; try by repeat split.
    unfold get_prop. rewrite Hget. by repeat split.
  - rewrite bool_decide_eq_false_2 by (by intros [? ?]).
    eexists _, _; (split; [reflexivity|]).
    destruct (Hdefault this) as [H1 H2]; by repeat split.
Qed.
End configure_facts.

Lemma configureCapabilties_success
    (rt : Runtime) (validate : value → string → bool)
    (this this' : Session) (request : value) (capabilities : obj) :
  configureCapabilties rt validate this request = (Ok capabilities, this') →
  ∃ negotiated,
    processCapabilities rt validate request = Ok (Some negotiated)
    ∧ get_prop capabilities "pageLoadStrategy" = VStr (pageLoadStrategy this')
    ∧ pageLoadStrategy this'
      = match obj_get "pageLoadStrategy" negotiated with
        | Some (VStr strategy) => strategy
        | _ => "normal"
        end
    ∧ obj_get "proxy" capabilities
      = Some (default (VObj []) (obj_get "proxy" negotiated))
    ∧ get_prop capabilities "timeouts"
      = VObj [("implicit", get_prop (timeouts this') "implicit");
              ("pageLoad", get_prop (timeouts this') "pageLoad");
              ("script", get_prop (timeouts this') "script")]
    ∧ (∀ k, k ∉ ["pageLoadStrategy"; "proxy"; "timeouts"] →
            obj_get k capabilities = obj_get k negotiated)
    ∧ (∀ k, get_prop (timeouts this') k
            = if decide (k ∈ ["implicit"; "script"; "pageLoad"])
              then timeout_after (obj_get "timeouts" negotiated) this k
              else get_prop (timeouts this) k)
    ∧ id this' = id this
    ∧ webDriverActive this' = webDriverActive this
    ∧ knownElements this' = knownElements this.
Proof.
  unfold configureCapabilties.
  destruct (processCapabilities rt validate request) as [[negotiated|]|e]; [|done..].
  destruct (configure_pageLoadStrategy_cases this negotiated)
    as (this1 & caps1 & -> & Hpls & Hstrategy & Hother1 & Hi1 & Ht1 & Hw1 & Hk1).
  set (caps2 := if obj_has "proxy" caps1 then caps1 else obj_set "proxy" (VObj []) caps1).
  assert (obj_get "proxy" caps2 = Some (default (VObj []) (obj_get "proxy" negotiated))
          ∧ ∀ k, k ≠ "proxy" → obj_get k caps2 = obj_get k caps1) as [Hproxy Hother2].
  { unfold caps2, obj_has. rewrite <- (Hother1 "proxy") by done.
    destruct (obj_get "proxy" caps1) as [proxy|] eqn:Hhas.
    - rewrite bool_decide_eq_true_2 by eauto. by split.
    - rewrite bool_decide_eq_false_2 by (by intros [? ?]).
      split; [by rewrite obj_get_set, decide_True|].
      intros k Hk. by rewrite obj_get_set, decide_False. }
  assert (obj_has "timeouts" caps2 = bool_decide (is_Some (obj_get "timeouts" negotiated))
          ∧ get_prop caps2 "timeouts" = get_prop negotiated "timeouts") as [Hhas Hreq].
  { unfold obj_has, get_prop. by rewrite Hother2, Hother1. }
  rewrite Hhas, Hreq. clear Hhas Hreq.
  assert (∀ this2,
            (Ok (), this2)
            = (if bool_decide (is_Some (obj_get "timeouts" negotiated))
               then apply_timeouts (get_prop negotiated "timeouts") this1
               else (Ok (), this1)) →
            id this2 = id this ∧ pageLoadStrategy this2 = pageLoadStrategy this1
            ∧ webDriverActive this2 = webDriverActive this
            ∧ knownElements this2 = knownElements this
            ∧ ∀ k, get_prop (timeouts this2) k
                   = if decide (k ∈ ["implicit"; "script"; "pageLoad"])
                     then timeout_after (obj_get "timeouts" negotiated) this k
                     else get_prop (timeouts this) k) as Hsession.
  { intros this2. unfold get_prop at 1.
    destruct (obj_get "timeouts" negotiated) as [requested|] eqn:Hreq.
    - rewrite bool_decide_eq_true_2 by eauto. simpl.
      destruct (apply_timeouts_cases requested this1)
        as [[_ ->]|(s & -> & Hi & Hp & Hw & Hk & Ht)]; [done|].
      intros [= ->]. repeat split; [congruence..|].
      intros k. rewrite Ht, Ht1. case_decide; [|done].
      unfold timeout_after. by rewrite Ht1.
    - rewrite bool_decide_eq_false_2 by (by intros [? ?]).
      intros [= ->]. repeat split; [congruence..|].
      intros k. rewrite Ht1. by case_decide. }
  destruct (if bool_decide (is_Some (obj_get "timeouts" negotiated))
            then apply_timeouts (get_prop negotiated "timeouts") this1
            else (Ok (), this1)) as [[[]|e] this2] eqn:Happlied; [|done].
  intros [= <- <-]. exists negotiated.
  destruct (Hsession this2 eq_refl) as (Hi & Hp & Hw & Hk & Ht).
  split; [done|]. split.
  { rewrite get_prop_set, decide_False by done. rewrite Hp, <- Hpls.
    unfold get_prop. by rewrite Hother2. }
  split; [by rewrite Hp|]. split.
  { rewrite obj_get_set, decide_False by done. exact Hproxy. }
  split.
  { by rewrite get_prop_set, decide_True. }
  split.
  { intros k Hk'. rewrite obj_get_set, decide_False by (intros <-; apply Hk'; list_member).
    rewrite Hother2 by (intros ->; apply Hk'; list_member).
    apply Hother1. intros ->. apply Hk'. list_member. }
  done.
Qed.

(** X8. When [configureCapabilties] returns, the capabilities it returns
    are the negotiated ones with three keys settled: [pageLoadStrategy] is
    the session's strategy (the negotiated one if that is a string,
    "normal" otherwise), [proxy] is the negotiated one or else an empty
    object, and [timeouts] holds exactly
    [implicit], [pageLoad] and [script] as the session now has them. Each
    of these three timeouts of the session is the negotiated one if the
    negotiated timeouts have the field, and is left as it was otherwise:
    a negotiation does not reset the timeouts. Nothing else of the session
    changes. *)
Theorem configureCapabilties_returns
    (rt : Runtime) (validate : value → string → bool)
    (this this' : Session) (request : value) (capabilities : obj) :
  configureCapabilties rt validate this request = (Ok capabilities, this') →
  ∃ negotiated,
    processCapabilities rt validate request = Ok (Some negotiated)
    ∧ get_prop capabilities "pageLoadStrategy" = VStr (pageLoadStrategy this')
    ∧ pageLoadStrategy this'
      = match obj_get "pageLoadStrategy" negotiated with
        | Some (VStr strategy) => strategy
        | _ => "normal"
        end
    ∧ obj_get "proxy" capabilities
      = Some (default (VObj []) (obj_get "proxy" negotiated))
    ∧ get_prop capabilities "timeouts"
      = VObj [("implicit", get_prop (timeouts this') "implicit");
              ("pageLoad", get_prop (timeouts this') "pageLoad");
              ("script", get_prop (timeouts this') "script")]
    ∧ (∀ k, k ∉ ["pageLoadStrategy"; "proxy"; "timeouts"] →
            obj_get k capabilities = obj_get k negotiated)
    ∧ (∀ k, get_prop (timeouts this') k
            = if decide (k ∈ ["implicit"; "script"; "pageLoad"])
              then timeout_after (obj_get "timeouts" negotiated) this k
              else get_prop (timeouts this) k)
    ∧ id this' = id this
    ∧ webDriverActive this' = webDriverActive this
    ∧ knownElements this' = knownElements this.
Proof. apply configureCapabilties_success. Qed.

(** X9. [configureSession] gives the session its new id before it
    negotiates: when the negotiation throws, the session keeps the new id
    and everything else it had, its known elements included. When it
    returns, the body holds the new id and the configured capabilities,
    the session knows no element, and the timeouts that the capabilities
    report are the session's; the session's timeouts other than the three
    negotiated ones are the ones it had before. *)
Theorem configureSession_outcomes
    (rt : Runtime) (validate : value → string → bool)
    (uuid : string) (this : Session) (request : value) :
  (∀ e, processCapabilities rt validate request = Throw e →
        configureSession rt validate uuid this request = (Throw e, with_id this uuid))
  ∧ (∀ body this',
       configureSession rt validate uuid this request = (Ok body, this') →
       ∃ capabilities,
         body = [("sessionId", VStr uuid); ("capabilities", VObj capabilities)]
         ∧ id this' = uuid
         ∧ knownElements this' = []
         ∧ get_prop capabilities "pageLoadStrategy" = VStr (pageLoadStrategy this')
         ∧ get_prop capabilities "timeouts"
           = VObj [("implicit", get_prop (timeouts this') "implicit");
                   ("pageLoad", get_prop (timeouts this') "pageLoad");
                   ("script", get_prop (timeouts this') "script")]
         ∧ ∀ k, k ∉ ["implicit"; "script"; "pageLoad"] →
                get_prop (timeouts this') k = get_prop (timeouts this) k).
Proof.
  split.
  - intros e He. unfold configureSession, configureCapabilties. by rewrite He.
  - intros body this'. unfold configureSession.
    destruct (configureCapabilties rt validate (with_id this uuid) request)
      as [[capabilities|e] this1] eqn:Hconfigure; [|done].
    apply configureCapabilties_success in Hconfigure
      as (negotiated & _ & Hpls & _ & _ & Htimeouts & _ & Hsession & Hid & _ & _).
    intros [= <- <-]. exists capabilities. simpl.
    repeat split; [by rewrite Hid|done..|].
    intros k Hk. rewrite Hsession. by rewrite decide_False.
Qed.

(** X20. A session fresh from the constructor that is configured from a
    request which negotiates no timeouts reports the timeouts of the
    constructor: implicit 0, page load 30000 and script 3000. *)
Theorem new_session_reports_default_timeouts
    (rt : Runtime) (validate : value → string → bool)
    (uuid : string) (request : value) (body : obj) (this' : Session) :
  configureSession rt validate uuid Session_new request = (Ok body, this') →
  ∃ negotiated capabilities,
    processCapabilities rt validate request = Ok (Some negotiated)
    ∧ get_prop body "capabilities" = VObj capabilities
    ∧ (obj_get "timeouts" negotiated = None →
       get_prop capabilities "timeouts"
       = VObj [("implicit", of_int 0); ("pageLoad", of_int 30000);
               ("script", of_int 3000)]
       ∧ timeouts this' = timeouts Session_new).
Proof.
  unfold configureSession.
  destruct (configureCapabilties rt validate (with_id Session_new uuid) request)
    as [[capabilities|e] this1] eqn:Hconfigure; [|done].
  intros [= <- <-].
  pose proof Hconfigure as Hsuccess.
  apply configureCapabilties_success in Hsuccess
    as (negotiated & Hneg & _ & _ & _ & Htimeouts & _ & Hsession & _).
  exists negotiated, capabilities. split; [done|]. split; [done|].
  intros Hnone. rewrite Htimeouts, !Hsession, Hnone. split; [done|].
  simpl. unfold configureCapabilties in Hconfigure. rewrite Hneg in Hconfigure.
  destruct (configure_pageLoadStrategy (with_id Session_new uuid) negotiated)
    as [this0 caps0] eqn:Hstrategy.
  assert (timeouts this0 = timeouts Session_new
          ∧ obj_get "timeouts" caps0 = None) as [Ht0 Hc0].
  { unfold configure_pageLoadStrategy in Hstrategy.
    destruct (obj_has "pageLoadStrategy" negotiated);
      [destruct (get_prop negotiated "pageLoadStrategy")|].
    all: injection Hstrategy as <- <-; split; [done|].
    all: try (by rewrite obj_get_set, decide_False).
    done. }
  assert (obj_has "timeouts"
            (if obj_has "proxy" caps0 then caps0 else obj_set "proxy" (VObj []) caps0)
          = false) as Hhas.
  { unfold obj_has at 1. apply bool_decide_eq_false_2.
    destruct (obj_has "proxy" caps0).
    - rewrite Hc0. by intros [? ?].
    - rewrite obj_get_set, decide_False, Hc0 by done. by intros [? ?]. }
  rewrite Hhas in Hconfigure. by injection Hconfigure as _ <-.
Qed.

(** ** elementRetrieval: the strategies that query the document *)

Section retrieval_facts.
Variable rt : Runtime.
Variable clock : nat → Z.
Implicit Types (startNode : Node) (strategy selector : string) (this : Session).

Lemma switch_css startNode selector elements :
  switch_strategy startNode "css selector" selector elements
  = match querySelectorAll startNode selector with
    | Ok found => Ok (ElementsCollection found)
    | Throw e => Throw e
    end.
Proof.
  unfold switch_strategy, cssSelector. simpl.
  by destruct (querySelectorAll _ _).
Qed.

Lemma switch_tagName startNode selector elements :
  switch_strategy startNode "tag name" selector elements
  = match getElementsByTagName startNode selector with
    | Ok found => Ok (ElementsLive found)
    | Throw e => Throw e
    end.
Proof.
  unfold switch_strategy, tagName. simpl.
  by destruct (getElementsByTagName _ _).
Qed.

(** The loop on a strategy that keeps producing the same empty collection:
    it runs once for every reading of the clock that is before the
    deadline, and once more. *)
Lemma retry_polls startNode strategy selector endTime elements
    (empty : elements_ref) (n : nat) :
  (∀ elements', switch_strategy startNode strategy selector elements' = Ok empty) →
  elements_length [] empty = Ok 0 →
  ∀ c i,
    (∀ k, c ≤ k < c + n → date_gt endTime (Some (clock k)) = true) →
    date_gt endTime (Some (clock (c + n))) = false →
    ∀ fuel,
      retry rt clock startNode strategy selector fuel endTime [] elements
            {| clock_reads := c; iterations := i |}
      = if decide (n < fuel)
        then Some (Ok empty, {| clock_reads := c + n + 1; iterations := i + n + 1 |})
        else None.
Proof.
  intros Hswitch Hlength. revert elements.
  induction n as [|n IH]; intros elements c i Hahead Hpast fuel.
  - destruct fuel as [|fuel]; [done|]. rewrite decide_True by lia.
    simpl. unfold try_strategy. rewrite Hswitch.
    rewrite Nat.add_0_r in Hpast. rewrite Hpast.
    do 3 f_equal; lia.
  - destruct fuel as [|fuel]; [done|].
    simpl. unfold try_strategy. rewrite Hswitch.
    rewrite Hahead by lia. rewrite Hlength. simpl.
    rewrite (IH _ (S c) (S i)).
    + destruct (decide (n < fuel)), (decide (S n < S fuel)); try lia; [|done].
      do 3 f_equal; lia.
    + intros k Hk. apply Hahead. lia.
    + rewrite <- Hpast. do 3 f_equal. lia.
Qed.

(** With the tag-name strategy the loop, when it ends normally, ends with
    [elements] being an HTMLCollection. *)
Lemma retry_tagName startNode selector found fuel endTime res elements tr out tr' :
  getElementsByTagName startNode selector = Ok found →
  retry rt clock startNode "tag name" selector fuel endTime res elements tr
  = Some (Ok out, tr') →
  out = ElementsLive found.
Proof.
  intros Hq. revert elements tr.
  induction fuel as [|fuel IH]; intros elements tr; simpl; [done|].
  unfold try_strategy. rewrite switch_tagName, Hq.
  destruct (date_gt _ _); [|by intros [= <- <-]].
  simpl. destruct (length found <? 1)%nat; [apply IH | by intros [= <- <-]].
Qed.
End retrieval_facts.

(** X10. With the css strategy, when the document returns at least one
    element, the call runs the strategy once, whatever the deadline is,
    returns one handle for each element in the order of the document, and
    appends these handles to the known elements: nothing is looked up
    among the elements already known, so an element found twice is known
    twice. *)
Theorem elementRetrieval_found_at_once
    (rt : Runtime) (clock : nat → Z) (startNode : Node) (selector : string)
    (found : list Element) (fuel : nat) (this : Session) :
  querySelectorAll startNode selector = Ok found →
  found ≠ [] →
  elementRetrieval rt clock startNode "css selector" selector (S fuel) this
  = Some (Ok (WebElement_new <$> found),
          with_knownElements this (knownElements this ++ (WebElement_new <$> found)),
          {| clock_reads := 2; iterations := 1 |}).
Proof.
  intros Hq Hfound. unfold elementRetrieval. simpl.
  unfold try_strategy. rewrite switch_css, Hq.
  destruct found as [|element found]; [done|]. simpl.
  by destruct (date_gt _ _).
Qed.

(** X11. The xpath strategy assigns nothing to [elements], so the call
    throws a TypeError after one pass through the loop, at
    [elements.length] when the deadline is ahead and at [elements.forEach]
    when it is not; the session is as before. *)
Theorem elementRetrieval_xpath
    (rt : Runtime) (clock : nat → Z) (startNode : Node) (selector : string)
    (fuel : nat) (this : Session) :
  elementRetrieval rt clock startNode "xpath" selector (S fuel) this
  = Some (Throw TypeError, this, {| clock_reads := 2; iterations := 1 |}).
Proof.
  unfold elementRetrieval. simpl. by destruct (date_gt _ _).
Qed.

(** X12. When the document rejects the selector of the css strategy with
    an exception of its own realm, which is an instance of none of the
    classes that the [catch] clause tests, the call ends in the first pass
    through the loop without reading the clock again and leaves the session
    as it was, and what it throws is never the error 'invalid selector':
    the clause goes through its three tests and its [else], and throws a
    ReferenceError for the first of DOMException, XPathException and
    UnknownError that the global scope does not bind, the module declaring
    none of them, and the unknown error when all three are bound. *)
Theorem elementRetrieval_invalid_selector
    (rt : Runtime) (clock : nat → Z) (startNode : Node) (selector : string)
    (e : error) (fuel : nat) (this : Session) :
  querySelectorAll startNode selector = Throw e →
  e ∉ [DOMException; SyntaxError; XPathException] →
  elementRetrieval rt clock startNode "css selector" selector (S fuel) this
  = Some (Throw (if negb (global_defined rt "DOMException")
                 then ReferenceError "DOMException"
                 else if negb (global_defined rt "XPathException")
                 then ReferenceError "XPathException"
                 else if negb (global_defined rt "UnknownError")
                 then ReferenceError "UnknownError"
                 else UnknownError),
          this, {| clock_reads := 1; iterations := 1 |}).
Proof.
  intros Hq He. unfold elementRetrieval. simpl.
  unfold try_strategy. rewrite switch_css, Hq.
  unfold catch_clause, instance_of.
  rewrite !bool_decide_eq_false_2 by (intros ->; apply He; list_member).
  by destruct (global_defined rt "DOMException"),
              (global_defined rt "XPathException"),
              (global_defined rt "UnknownError").
Qed.

(** X13. With the css strategy on a document that returns no element, the
    loop polls: if the readings 1 to [n] of the clock are before the
    deadline and reading [n + 1] is not, the call runs the strategy [n + 1]
    times, reads the clock [n + 2] times in all and returns the empty
    sequence, leaving the session as it was. A bound of [n] passes or fewer
    is not enough for it to end. *)
Theorem elementRetrieval_polls_until_deadline
    (rt : Runtime) (clock : nat → Z) (startNode : Node) (selector : string)
    (n : nat) (this : Session) :
  querySelectorAll startNode selector = Ok [] →
  (∀ k, 1 ≤ k ≤ n → date_gt (endTime_of rt clock this) (Some (clock k)) = true) →
  date_gt (endTime_of rt clock this) (Some (clock (S n))) = false →
  ∀ fuel,
    elementRetrieval rt clock startNode "css selector" selector fuel this
    = if decide (n < fuel)
      then Some (Ok [], this, {| clock_reads := n + 2; iterations := n + 1 |})
      else None.
Proof.
  intros Hq Hahead Hpast fuel. unfold elementRetrieval.
  rewrite (retry_polls rt clock startNode "css selector" selector _ _
             (ElementsCollection []) n).
  - case_decide; [|done]. simpl. rewrite with_knownElements_nil.
    do 3 f_equal; lia.
  - intros elements'. by rewrite switch_css, Hq.
  - done.
  - intros k Hk. apply Hahead. lia.
  - exact Hpast.
Qed.

(** X22. The tag-name strategy never returns an element. What
    [getElementsByTagName] hands back has a [length] and no [forEach], so
    the loop runs as for the css strategy and the call then throws a
    TypeError at [elements.forEach], whatever was found: whenever the call
    ends it has thrown a TypeError and the session is as before; with at
    least one element found it ends so after one pass, and with none found
    after the pass in which the deadline is no longer ahead. *)
Theorem elementRetrieval_tagName_throws
    (rt : Runtime) (clock : nat → Z) (startNode : Node) (selector : string)
    (found : list Element) (this : Session) :
  getElementsByTagName startNode selector = Ok found →
  (∀ fuel out this' tr,
     elementRetrieval rt clock startNode "tag name" selector fuel this
     = Some (out, this', tr) →
     out = Throw TypeError ∧ this' = this)
  ∧ (found ≠ [] →
     ∀ fuel,
       elementRetrieval rt clock startNode "tag name" selector (S fuel) this
       = Some (Throw TypeError, this, {| clock_reads := 2; iterations := 1 |}))
  ∧ (found = [] →
     ∀ n,
       (∀ k, 1 ≤ k ≤ n → date_gt (endTime_of rt clock this) (Some (clock k)) = true) →
       date_gt (endTime_of rt clock this) (Some (clock (S n))) = false →
       ∀ fuel,
         elementRetrieval rt clock startNode "tag name" selector fuel this
         = if decide (n < fuel)
           then Some (Throw TypeError, this,
                      {| clock_reads := n + 2; iterations := n + 1 |})
           else None).
Proof.
  intros Hq. repeat apply conj.
  - intros fuel out this' tr. unfold elementRetrieval.
    destruct (retry _ _ _ _ _ _ _ _ _ _) as [[[elements|e] tr']|] eqn:E; [| |done].
    + apply (retry_tagName _ _ _ _ found) in E; [|done]. subst elements.
      by intros [= <- <- <-].
    + assert (e = TypeError) as ->; [|by intros [= <- <- <-]].
      clear out this' tr. revert E.
      generalize ElementsUndefined, {| clock_reads := 1; iterations := 0 |}.
      induction fuel as [|fuel IH]; intros elements tr; simpl; [done|].
      unfold try_strategy. rewrite switch_tagName, Hq.
      destruct (date_gt _ _); [|done].
      simpl. destruct (length found <? 1)%nat; [apply IH | done].
  - intros Hfound fuel. unfold elementRetrieval. simpl.
    unfold try_strategy. rewrite switch_tagName, Hq.
    destruct found as [|element found]; [done|]. simpl.
    by destruct (date_gt _ _).
  - intros -> n Hahead Hpast fuel. unfold elementRetrieval.
    rewrite (retry_polls rt clock startNode "tag name" selector _ _ (ElementsLive []) n).
    + by case_decide; [simpl; do 3 f_equal; lia|].
    + intros elements'. by rewrite switch_tagName, Hq.
    + done.
    + intros k Hk. apply Hahead. lia.
    + exact Hpast.
Qed.

(** ** Browser: getKnownElement *)

Section lookup_facts.
Variable ELEMENT_of : WebElement → value.

Lemma getKnownElement_loop (elementId : string) (known : list WebElement)
    (foundElement : option WebElement) :
  foldl (λ (foundElement : option WebElement) element,
           if strict_equals (ELEMENT_of element) (VStr elementId)
           then Some element else foundElement)
        foundElement known
  = match last (filter (λ element,
                          strict_equals (ELEMENT_of element) (VStr elementId) = true)
                       known) with
    | Some element => Some element
    | None => foundElement
    end.
Proof.
  revert foundElement. induction known as [|element known IH]; intros foundElement; [done|].
  simpl foldl. rewrite IH. rewrite filter_cons.
  case_decide as Heq.
  - rewrite Heq.
    destruct (filter _ known) as [|e' l] eqn:Hf; [done|].
    rewrite (last_cons element). by destruct (last (e' :: l)).
  - by apply not_true_is_false in Heq as ->.
Qed.
End lookup_facts.

(** X14. [getKnownElement] goes through all the known elements and answers
    with the last one that carries the identifier, so of two handles with
    one identifier the one registered later is returned; it raises
    NoSuchElement exactly when no known element carries the identifier. *)
Theorem getKnownElement_last_registered
    (ELEMENT_of : WebElement → value) (known : list WebElement) (elementId : string) :
  getKnownElement ELEMENT_of known elementId
  = match last (filter (λ element,
                          strict_equals (ELEMENT_of element) (VStr elementId) = true)
                       known) with
    | Some element => Answer element
    | None => Raise NoSuchElement
    end.
Proof.
  unfold getKnownElement. rewrite getKnownElement_loop.
  by destruct (last _).
Qed.

(** ** Browser: getNamedCookie *)

Section find_facts.
Context {A : Type}.
Implicit Types (pred : A → result bool) (l : list A).

Lemma find_first_Some pred l x :
  find_first pred l = Ok (Some x) →
  ∃ l1 l2, l = l1 ++ x :: l2 ∧ pred x = Ok true ∧ Forall (λ y, pred y = Ok false) l1.
Proof.
  induction l as [|y l IH]; simpl; [done|].
  destruct (pred y) as [[]|e] eqn:Hy; simpl; [| |done].
  - intros [= ->]. by exists [], l.
  - intros (l1 & l2 & -> & Hx & Hl1)%IH. exists (y :: l1), l2.
    split; [done|]. split; [done|]. by constructor.
Qed.

Lemma find_first_None pred l :
  find_first pred l = Ok None ↔ Forall (λ y, pred y = Ok false) l.
Proof.
  induction l as [|y l IH]; simpl; [by split|].
  destruct (pred y) as [[]|e] eqn:Hy; simpl.
  - split; [done|]. intros [Habs _]%Forall_cons. congruence.
  - rewrite IH. split; [by constructor|]. by intros [_ ?]%Forall_cons.
  - split; [done|]. intros [Habs _]%Forall_cons. congruence.
Qed.

Lemma find_first_Throw pred l e :
  find_first pred l = Throw e →
  ∃ l1 x l2, l = l1 ++ x :: l2 ∧ pred x = Throw e ∧ Forall (λ y, pred y = Ok false) l1.
Proof.
  induction l as [|y l IH]; simpl; [done|].
  destruct (pred y) as [[]|e'] eqn:Hy; simpl; [done| |].
  - intros (l1 & x & l2 & -> & Hx & Hl1)%IH. exists (y :: l1), x, l2.
    split; [done|]. split; [done|]. by constructor.
  - intros [= ->]. by exists [], y, l.
Qed.
End find_facts.

(** X15. [getNamedCookie] answers with the first record of [getCookies]
    that has the requested name and is associated with the document: the
    records before it do not have the name or are not associated. The
    address of the document is parsed, and the path of a cookie compiled
    into a pattern, only for a record with the requested name: when no
    record has the name the call raises NoSuchCookie whatever the address
    is, and an exception other than NoSuchCookie comes from a record that
    has the name. *)
Theorem getNamedCookie_outcomes
    (rt : Runtime) (URL_new : string → result URL)
    (RegExp_test : string → string → result bool)
    (this : Browser) (requestedName : string) :
  let associated := isAssociatedCookie rt URL_new RegExp_test this in
  let named (cookie : obj) := get_prop cookie "name" = VStr requestedName in
  (∀ cookie,
     getNamedCookie rt URL_new RegExp_test this requestedName = Answer cookie →
     ∃ before after,
       getCookies rt this = before ++ cookie :: after
       ∧ named cookie ∧ associated cookie = Ok true
       ∧ Forall (λ c, named c → associated c = Ok false) before)
  ∧ (Forall (λ c, ¬ named c) (getCookies rt this) →
     getNamedCookie rt URL_new RegExp_test this requestedName = Raise NoSuchCookie)
  ∧ (getNamedCookie rt URL_new RegExp_test this requestedName = Raise NoSuchCookie →
     Forall (λ c, named c → associated c = Ok false) (getCookies rt this))
  ∧ (∀ e,
       getNamedCookie rt URL_new RegExp_test this requestedName = Raise e →
       e ≠ NoSuchCookie →
       ∃ cookie e', cookie ∈ getCookies rt this ∧ named cookie
                    ∧ associated cookie = Throw e' ∧ e = Other e').
Proof.
  intros associated named. unfold getNamedCookie.
  set (pred := λ cookie : obj,
         if strict_equals (get_prop cookie "name") (VStr requestedName)
         then isAssociatedCookie rt URL_new RegExp_test this cookie
         else Ok false).
  assert (∀ c, named c → pred c = associated c) as Hnamed.
  { intros c Hc. unfold pred, named in *. rewrite Hc. simpl.
    by rewrite bool_decide_eq_true_2. }
  assert (∀ c, ¬ named c → pred c = Ok false) as Hother.
  { intros c Hc. unfold pred, named in *.
    destruct (get_prop c "name") as [| | | |s| | |]; try done. simpl.
    rewrite bool_decide_eq_false_2; [done|]. intros ->. by apply Hc. }
  assert (∀ c r, pred c = r → r ≠ Ok false → named c ∧ associated c = r) as Hinv.
  { intros c r Hr Hne.
    assert (named c) as Hc; [|split; [done|]; by rewrite <- Hnamed].
    unfold pred, named in *.
    destruct (get_prop c "name") as [| | | |s| | |]; simpl in Hr; try congruence.
    case_bool_decide; congruence. }
  assert (∀ l, Forall (λ y, pred y = Ok false) l →
               Forall (λ c, named c → associated c = Ok false) l) as Hbefore.
  { intros l Hl. eapply Forall_impl; [exact Hl|].
    intros c Hc Hn. simpl. by rewrite <- Hnamed. }
  repeat apply conj.
  - intros cookie.
    destruct (find_first pred (getCookies rt this)) as [[found|]|e] eqn:Hfind; try done.
    intros [= ->]. apply find_first_Some in Hfind as (l1 & l2 & Hl & Hx & Hl1).
    exists l1, l2. apply Hinv in Hx as [? ?]; [|done]. eauto.
  - intros Hnone.
    assert (find_first pred (getCookies rt this) = Ok None) as ->; [|done].
    apply find_first_None. eapply Forall_impl; [exact Hnone|]. apply Hother.
  - destruct (find_first pred (getCookies rt this)) as [[found|]|e] eqn:Hfind; try done.
    intros _. by apply Hbefore, find_first_None.
  - intros e.
    destruct (find_first pred (getCookies rt this)) as [[found|]|e'] eqn:Hfind;
      intros Heq Hne; [done | by injection Heq as <- |].
    injection Heq as <-. apply find_first_Throw in Hfind as (l1 & x & l2 & Hl & Hx & _).
    apply Hinv in Hx as [? ?]; [|done].
    exists x, e'. rewrite Hl. split; [|done]. apply elem_of_app. right. left.
Qed.

(** ** Browser: what addCookie rejects *)

Section addCookie_order.
Variable rt : Runtime.
Variable extractDomainFromUrl : string → string.
Variable creation : value.
Implicit Types (this : Browser) (cookie : obj).

(** The clone that is validated differs from the cookie at most in its
    domain, which the validator does not read. *)
Lemma clone_valid cookie prefixed clone :
  NoDup (obj_keys cookie) →
  (if prefixed : bool then cloneCookieWithoutDomainDotPrefix cookie
   else Ok (obj_spread [] cookie)) = Ok clone →
  isValidCookie clone = isValidCookie cookie.
Proof.
  intros Hnd Hclone. apply isValidCookie_ext. intros k Hk.
  destruct prefixed.
  - unfold cloneCookieWithoutDomainDotPrefix in Hclone.
    destruct (get_prop cookie "domain"); try discriminate.
    injection Hclone as <-. rewrite obj_spread_copy by done.
    rewrite obj_get_set, decide_False; [done|].
    intros <-. list_absurd Hk.
  - injection Hclone as <-. by rewrite obj_spread_copy.
Qed.

Lemma clone_exists cookie prefixed :
  isCookieDomainDotPrefixed cookie = Ok prefixed →
  ∃ clone, (if prefixed then cloneCookieWithoutDomainDotPrefix cookie
            else Ok (obj_spread [] cookie)) = Ok clone.
Proof.
  unfold isCookieDomainDotPrefixed, cloneCookieWithoutDomainDotPrefix.
  destruct prefixed; [|eauto].
  destruct (get_prop cookie "domain"); eauto; by destruct (truthy _).
Qed.

Lemma isCookieDomainDotPrefixed_cases cookie :
  isCookieDomainDotPrefixed cookie
  = if truthy (get_prop cookie "domain") && negb (isString (get_prop cookie "domain"))
    then Throw TypeError
    else Ok (dot_prefixed (get_prop cookie "domain")).
Proof.
  unfold isCookieDomainDotPrefixed.
  destruct (get_prop cookie "domain") as [| |b|n|s|t|items|o] eqn:Hd.
  all: try (by destruct (truthy _)).
  cbn [isString negb]. rewrite andb_false_r. f_equal.
  destruct s as [|c s]; [done|]. cbn [truthy dot_prefixed]. simpl.
  destruct (decide (c = "."%char)) as [->|Hc].
  - rewrite bool_decide_eq_true_2 by (by destruct s). done.
  - rewrite bool_decide_eq_false_2.
    + destruct c as [[] [] [] [] [] [] [] []]; done.
    + destruct s; intros [= ->]; done.
Qed.

Lemma addCookie_cases this cookie :
  NoDup (obj_keys cookie) →
  addCookie rt extractDomainFromUrl creation this cookie
  = if negb (window_open this) then Throw NoSuchWindow
    else if negb (isValidScheme (before_first ":" (document_URL this)))
    then Throw InvalidArgument
    else if truthy (get_prop cookie "domain") && negb (isString (get_prop cookie "domain"))
    then Throw TypeError
    else if negb (isValidCookie cookie) then Throw InvalidArgument
    else addCookie rt extractDomainFromUrl creation this cookie.
Proof.
  intros Hnd. unfold addCookie at 1.
  destruct (window_open this) eqn:Hw; [|done]. simpl. unfold getUrl.
  destruct (isValidScheme _) eqn:Hs; [|done]. simpl.
  destruct (truthy (get_prop cookie "domain") && negb (isString (get_prop cookie "domain")))
    eqn:Hd.
  { by rewrite isCookieDomainDotPrefixed_cases, Hd. }
  destruct (isCookieDomainDotPrefixed cookie) as [prefixed|e] eqn:Hp.
  2:{ rewrite isCookieDomainDotPrefixed_cases, Hd in Hp. done. }
  destruct (clone_exists _ _ Hp) as [clone Hclone].
  simpl. rewrite Hclone. simpl.
  rewrite (clone_valid _ _ _ Hnd Hclone).
  destruct (isValidCookie cookie) eqn:Hv; simpl; [|done].
  unfold addCookie. rewrite Hw. simpl. unfold getUrl. rewrite Hs, Hp. simpl.
  rewrite Hclone. simpl. by rewrite (clone_valid _ _ _ Hnd Hclone), Hv.
Qed.

Lemma addCookie_Ok_jar this this' cookie :
  addCookie rt extractDomainFromUrl creation this cookie = Ok this' →
  window_open this' = window_open this
  ∧ document_URL this' = document_URL this
  ∧ length (cookieJar this) ≤ length (cookieJar this') ≤ S (length (cookieJar this)).
Proof.
  unfold addCookie.
  destruct (negb (window_open this)); [done|].
  destruct (negb (isValidScheme _)); [done|].
  destruct (isCookieDomainDotPrefixed cookie) as [prefixed|]; [|done]. simpl.
  destruct (if prefixed then _ else _) as [clone|]; [|done]. simpl.
  destruct (negb (isValidCookie clone)); [done|].
  intros [= <-]. simpl. split; [done|]. split; [done|].
  set (stored := Cookie_new _ _). clearbody stored.
  induction (cookieJar this) as [|c jar IH]; simpl; [lia|].
  destruct (same_cookie c stored); simpl; lia.
Qed.
End addCookie_order.

(** X16. What [addCookie] rejects, in the order of its checks: a browser
    without a window gives NoSuchWindow whatever the page and the cookie
    are; then a page whose scheme is not accepted gives InvalidArgument
    whatever the cookie is; then a domain that is truthy and not a string
    gives a TypeError, before the cookie is validated; then a cookie that
    the validator rejects gives InvalidArgument. The validator sees a clone
    that differs from the cookie at most in its domain, which it does not
    read, so a cookie is stored exactly when none of the four applies, and
    then the window and the page are as before and the jar has the same
    number of cookies or one more. *)
Theorem addCookie_rejections
    (rt : Runtime) (extractDomainFromUrl : string → string) (creation : value)
    (this : Browser) (cookie : obj) :
  NoDup (obj_keys cookie) →
  let outcome := addCookie rt extractDomainFromUrl creation this cookie in
  let domain := get_prop cookie "domain" in
  let scheme := before_first ":" (document_URL this) in
  (window_open this = false → outcome = Throw NoSuchWindow)
  ∧ (window_open this = true → isValidScheme scheme = false →
     outcome = Throw InvalidArgument)
  ∧ (window_open this = true → isValidScheme scheme = true →
     truthy domain = true → isString domain = false →
     outcome = Throw TypeError)
  ∧ (window_open this = true → isValidScheme scheme = true →
     truthy domain && negb (isString domain) = false →
     isValidCookie cookie = false →
     outcome = Throw InvalidArgument)
  ∧ (window_open this = true → isValidScheme scheme = true →
     truthy domain && negb (isString domain) = false →
     isValidCookie cookie = true →
     ∃ this', outcome = Ok this'
              ∧ window_open this' = true
              ∧ document_URL this' = document_URL this
              ∧ length (cookieJar this) ≤ length (cookieJar this')
                ≤ S (length (cookieJar this))).
Proof.
  intros Hnd outcome domain scheme.
  pose proof (addCookie_cases rt extractDomainFromUrl creation this cookie Hnd) as Hcases.
  fold outcome domain scheme in Hcases.
  repeat apply conj.
  - intros Hw. by rewrite Hcases, Hw.
  - intros Hw Hs. by rewrite Hcases, Hw, Hs.
  - intros Hw Hs Ht Hstr. by rewrite Hcases, Hw, Hs, Ht, Hstr.
  - intros Hw Hs Hd Hv. by rewrite Hcases, Hw, Hs, Hd, Hv.
  - intros Hw Hs Hd Hv.
    destruct outcome as [this'|e] eqn:Hout.
    + exists this'. split; [done|].
      apply addCookie_Ok_jar in Hout as (Hw' & Hu' & Hlen).
      by rewrite Hw', Hw.
    + exfalso. unfold outcome, addCookie in Hout.
      rewrite Hw in Hout. simpl in Hout. unfold getUrl in Hout.
      fold scheme in Hout. rewrite Hs in Hout. simpl in Hout.
      rewrite isCookieDomainDotPrefixed_cases in Hout. fold domain in Hout.
      rewrite Hd in Hout. simpl in Hout.
      set (prefixed := dot_prefixed domain) in Hout.
      destruct (clone_exists cookie prefixed) as [clone Hclone].
      { rewrite isCookieDomainDotPrefixed_cases. fold domain. by rewrite Hd. }
      rewrite Hclone in Hout. simpl in Hout.
      rewrite (clone_valid cookie prefixed clone Hnd Hclone), Hv in Hout. done.
Qed.

(** ** addCookie: the fields that are renamed *)

(** X17. The object that [addCookie] hands to [new Cookie], for a clone
    with the fields [cookie]: it has no [name] and no [expiry]. The name is
    put under [key] and the date of the expiry under the index [0], where
    the spread of the one-element array puts it, never under [expires];
    both come before the remaining fields in the literal, so a field of
    the cookie that is itself called [key] or [0] takes their place, and
    [expires] is there only as a field of the cookie. *)
Theorem addCookie_renamed_fields
    (rt : Runtime) (cookie : obj) (activeDomain : string) :
  NoDup (obj_keys cookie) →
  let options := cookie_options rt (createCookieJarOptions cookie activeDomain) in
  obj_get "name" options = None
  ∧ obj_get "expiry" options = None
  ∧ obj_get "key" options
    = Some (default (get_prop cookie "name") (obj_get "key" cookie))
  ∧ obj_get "expires" options = obj_get "expires" cookie
  ∧ obj_get "0" options
    = match obj_get "0" cookie with
      | Some v => Some v
      | None =>
          if truthy (get_prop cookie "expiry")
          then Some (VDate (Date_new rt (get_prop cookie "expiry")))
          else None
      end.
Proof.
  intros Hnd options.
  assert (∀ k, obj_get k options
               = if decide (kept_field k)
                 then match obj_get k (createCookieJarOptions cookie activeDomain) with
                      | Some v => Some v
                      | None =>
                          if decide (k = "key")
                          then Some (get_prop (createCookieJarOptions cookie activeDomain)
                                              "name")
                          else if decide (k = "0") then
                            (if truthy (get_prop (createCookieJarOptions cookie activeDomain)
                                                 "expiry")
                             then Some (VDate (Date_new rt
                                         (get_prop (createCookieJarOptions cookie activeDomain)
                                                   "expiry")))
                             else None)
                          else None
                      end
                 else None) as Hget.
  { intros k. apply cookie_options_get, createCookieJarOptions_NoDup. }
  assert (∀ k, k ∉ ["domain"; "path"; "secure"; "httpOnly"] →
               obj_get k (createCookieJarOptions cookie activeDomain) = obj_get k cookie)
    as Hjar.
  { intros k Hk. rewrite createCookieJarOptions_get by done.
    destruct (obj_get k cookie); [done|].
    apply obj_get_None. exact Hk. }
  assert (∀ k, k ∉ ["domain"; "path"; "secure"; "httpOnly"] →
               get_prop (createCookieJarOptions cookie activeDomain) k = get_prop cookie k)
    as Hprop.
  { intros k Hk. unfold get_prop. by rewrite Hjar. }
  assert (∀ k : string, k ∈ ["name"; "expiry"; "key"; "expires"; "0"] →
                        k ∉ ["domain"; "path"; "secure"; "httpOnly"]) as Hfresh.
  { intros k Hk Hk'. list_cases Hk; list_absurd Hk'. }
  repeat apply conj.
  - rewrite Hget. apply decide_False. unfold kept_field. tauto.
  - rewrite Hget. apply decide_False. unfold kept_field. tauto.
  - rewrite Hget, decide_True by (split; discriminate).
    rewrite Hjar, Hprop by (apply Hfresh; list_member).
    destruct (obj_get "key" cookie); [done|]. rewrite decide_True by done. reflexivity.
  - rewrite Hget, decide_True by (split; discriminate).
    rewrite Hjar by (apply Hfresh; list_member).
    destruct (obj_get "expires" cookie); [done|]. rewrite !decide_False by done. reflexivity.
  - rewrite Hget, decide_True by (split; discriminate).
    rewrite Hjar, !Hprop by (apply Hfresh; list_member).
    destruct (obj_get "0" cookie); [done|]. rewrite decide_False, decide_True by done. reflexivity.
Qed.

(** ** getCookies: the shape of a record *)

Section record_facts.
Variable rt : Runtime.
Implicit Types (cookie cur : obj) (k : string).

Lemma convert_step_get cookie cur k0 k :
  obj_get k (convert_step rt cookie cur k0)
  = if decide (k0 = "key") then
      (if decide (k = "name") then Some (get_prop cookie "key") else obj_get k cur)
    else if decide (k0 = "expires") then
      (if decide (k = "expiry")
       then Some (getTime (Date_new rt (get_prop cur "expires")))
       else obj_get k cur)
    else if decide (k = k0) then Some (get_prop cookie k0) else obj_get k cur.
Proof.
  unfold convert_step. repeat case_bool_decide; subst.
  - rewrite decide_True by done. rewrite obj_get_set. by repeat case_decide.
  - rewrite decide_False, decide_True by done. rewrite obj_get_set. by repeat case_decide.
  - rewrite !decide_False by done. rewrite obj_get_set. by repeat case_decide.
Qed.

(** The loop writes under a name that is neither [name] nor [expiry] only
    for a key of that name, and never for the keys [key] and [expires]. *)
Lemma convert_absent cookie ks cur k :
  k ∉ ["name"; "expiry"] →
  k ∈ ["key"; "expires"] ∨ k ∉ ks →
  obj_get k (foldl (convert_step rt cookie) cur ks) = obj_get k cur.
Proof.
  intros Hk Hks.
  assert (k ≠ "name" ∧ k ≠ "expiry") as [? ?].
  { split; intros ->; apply Hk; list_member. }
  revert cur. induction ks as [|k0 ks IH]; intros cur; simpl; [done|].
  rewrite IH.
  - rewrite convert_step_get. repeat case_decide; subst; try done.
    destruct Hks as [Hks|Hks].
    + list_cases Hks; done.
    + exfalso. apply Hks. left.
  - destruct Hks as [?|Hks]; [by left|]. right. intros ?. apply Hks. by right.
Qed.

Lemma convert_present cookie ks cur k :
  is_Some (obj_get k cur) → is_Some (obj_get k (foldl (convert_step rt cookie) cur ks)).
Proof.
  revert cur. induction ks as [|k0 ks IH]; intros cur Hcur; simpl; [done|].
  apply IH. rewrite convert_step_get. repeat case_decide; eauto.
Qed.

Lemma convert_value cookie ks cur :
  "value" ∈ ks →
  obj_get "value" (foldl (convert_step rt cookie) cur ks) = Some (get_prop cookie "value").
Proof.
  intros Hin. apply convert_other; [|done].
  intros H. list_absurd H.
Qed.
End record_facts.

(** X18. The shape of a record of [getCookies], made from a stored cookie:
    it always has a [name] and a [value], the empty string where the
    stored cookie has no [key] and no [name], or no [value]; it never has
    a [key], an [expires] or a [creation]; and every field of the stored
    cookie under another name than these and [expiry] is in the record as
    it is stored, and nothing else is. *)
Theorem getCookies_record_shape (rt : Runtime) (cookie : obj) :
  let record := convert_cookie rt cookie in
  is_Some (obj_get "name" record)
  ∧ ("key" ∉ obj_keys cookie → "name" ∉ obj_keys cookie →
     obj_get "name" record = Some (VStr ""))
  ∧ obj_get "value" record
    = Some (default (VStr "") (obj_get "value" cookie))
  ∧ obj_get "key" record = None
  ∧ obj_get "expires" record = None
  ∧ obj_get "creation" record = None
  ∧ (∀ k, k ∉ ["name"; "value"; "key"; "expires"; "expiry"; "creation"] →
          obj_get k record = obj_get k cookie).
Proof.
  intros record. unfold record. rewrite convert_cookie_unfold.
  repeat apply conj.
  - rewrite obj_get_delete, decide_False by done.
    apply convert_present. simpl. eauto.
  - intros Hkey Hname. rewrite obj_get_delete, decide_False by done.
    assert (∀ ks cur, "key" ∉ ks → "name" ∉ ks →
              obj_get "name" (foldl (convert_step rt cookie) cur ks) = obj_get "name" cur)
      as Hloop.
    { intros ks. induction ks as [|k0 ks IH]; intros cur Hk Hn; simpl; [done|].
      apply not_elem_of_cons in Hk as [? ?], Hn as [? ?].
      rewrite IH by done. rewrite convert_step_get.
      repeat case_decide; congruence. }
    by rewrite Hloop.
  - rewrite obj_get_delete, decide_False by done.
    destruct (obj_get "value" cookie) as [v|] eqn:Hv.
    + rewrite convert_value.
      * unfold get_prop. by rewrite Hv.
      * apply obj_has_keys. unfold obj_has. rewrite Hv. by apply bool_decide_eq_true.
    + rewrite convert_absent; [done|intros H; list_absurd H|].
      right. by apply obj_get_None.
  - rewrite obj_get_delete, decide_False by done.
    rewrite convert_absent; [done|intros H; list_absurd H|]. left. list_member.
  - rewrite obj_get_delete, decide_False by done.
    rewrite convert_absent; [done|intros H; list_absurd H|]. left. list_member.
  - by rewrite obj_get_delete, decide_True.
  - intros k Hk.
    assert (k ≠ "creation") by (intros ->; apply Hk; list_member).
    rewrite obj_get_delete, decide_False by done.
    destruct (obj_get k cookie) as [v|] eqn:Hv.
    + rewrite convert_other.
      * unfold get_prop. by rewrite Hv.
      * intros H'. apply Hk. list_cases H'; list_member.
      * apply obj_has_keys. unfold obj_has. rewrite Hv. by apply bool_decide_eq_true.
    + rewrite convert_absent.
      * simpl. rewrite !decide_False; [done|intros <-; apply Hk; list_member..].
      * intros H'. apply Hk. list_cases H'; list_member.
      * right. by apply obj_get_None.
Qed.

(** ** The options of the Browser constructor: the keys *)

(** X19. The constructor reads the four options it knows and nothing else
    of the capabilities: whatever the capabilities hold, the options handed
    to [BrowserConfig] have the four keys of the defaults, in their order,
    and capabilities that agree on the four options give the same
    options. *)
Theorem Browser_options_four_keys (capabilities capabilities' : obj) :
  obj_keys (Browser_browserOptions capabilities)
  = ["runScripts"; "strictSSL"; "unhandledPromptBehaviour"; "rejectPublicSuffixes"]
  ∧ ((∀ option, option ∈ obj_keys browserOptions_defaults →
                get_prop capabilities option = get_prop capabilities' option) →
     Browser_browserOptions capabilities = Browser_browserOptions capabilities').
Proof.
  split.
  - unfold Browser_browserOptions. simpl foldl.
    generalize (get_prop capabilities "runScripts"),
      (get_prop capabilities "strictSSL"),
      (get_prop capabilities "unhandledPromptBehaviour"),
      (get_prop capabilities "rejectPublicSuffixes").
    intros v1 v2 v3 v4.
    destruct (truthy v1), (truthy v2), (truthy v3), (truthy v4); reflexivity.
  - intros Hagree. unfold Browser_browserOptions. simpl foldl.
    rewrite !Hagree by (simpl; list_member). done.
Qed.

(** ** CookieValidator *)

Lemma as_integer_spec (v : value) (z : Z) :
  as_integer v = Some z ↔ ∃ q, v = VNum (Fin q) ∧ Qeq q (inject_Z z).
Proof.
  split.
  - destruct v as [| | |[q| | |]| | | |]; cbn [as_integer]; try done.
    destruct (Pos.eqb (Qden (Qred q)) 1) eqn:Hden; [|done].
    intros [= <-]. exists q. split; [done|].
    apply Pos.eqb_eq in Hden.
    rewrite <- (Qred_correct q) at 1.
    destruct (Qred q) as [n d]. simpl in *. by subst.
  - intros (q & -> & Hq). cbn [as_integer].
    apply Qred_complete in Hq. rewrite Hq.
    rewrite inject_Z_Qred.
    done.
Qed.

Lemma strict_equals_undefined (v : value) :
  strict_equals v VUndefined = true ↔ v = VUndefined.
Proof. by destruct v. Qed.

Lemma optional_boolean (v : value) :
  strict_equals v VUndefined || isBoolean v = true ↔ v = VUndefined ∨ ∃ b, v = VBool b.
Proof.
  destruct v; simpl; split; try done; eauto.
  all: intros [?|[? ?]]; done.
Qed.

(** X21. What the validator accepts. A cookie is valid exactly when its
    name is a string that is not empty, its value is a string, [httpOnly]
    and [secure] are each missing or a boolean, and [expiry] is missing or
    a number that is an integer from 0 to 2^53 - 1: [null] is accepted for
    none of them, and no other field is read, the domain and the path
    included. *)
Theorem isValidCookie_accepts (cookie : obj) :
  (isValidCookie cookie = true ↔
     (∃ name, get_prop cookie "name" = VStr name ∧ name ≠ "")
     ∧ (∃ v, get_prop cookie "value" = VStr v)
     ∧ (get_prop cookie "httpOnly" = VUndefined ∨ ∃ b, get_prop cookie "httpOnly" = VBool b)
     ∧ (get_prop cookie "secure" = VUndefined ∨ ∃ b, get_prop cookie "secure" = VBool b)
     ∧ (get_prop cookie "expiry" = VUndefined
        ∨ ∃ q z, get_prop cookie "expiry" = VNum (Fin q) ∧ Qeq q (inject_Z z)
                 ∧ (0 ≤ z ≤ 2 ^ 53 - 1)%Z))
  ∧ (∀ other : obj,
       (∀ k, k ∈ ["name"; "value"; "httpOnly"; "secure"; "expiry"] →
             obj_get k cookie = obj_get k other) →
       isValidCookie other = isValidCookie cookie).
Proof.
  split; [|intros other Hagree; symmetry; by apply isValidCookie_ext].
  unfold isValidCookie.
  assert (isValidName (get_prop cookie "name") = true
          ↔ ∃ name, get_prop cookie "name" = VStr name ∧ name ≠ "") as Hname.
  { unfold isValidName. destruct (get_prop cookie "name") as [| | | |s| | |]; simpl.
    all: try (split; [done|]; by intros (? & ? & ?)).
    case_bool_decide as Hs; simpl.
    - split; [done|]. intros (? & [= <-] & ?). congruence.
    - split; [|done]. intros _. exists s. split; [done|]. congruence. }
  assert (isValidValue (get_prop cookie "value") = true
          ↔ ∃ v, get_prop cookie "value" = VStr v) as Hvalue.
  { unfold isValidValue. destruct (get_prop cookie "value"); simpl.
    all: split; try done; eauto. all: by intros [? ?]. }
  assert (isValidExpiry (get_prop cookie "expiry") = true
          ↔ get_prop cookie "expiry" = VUndefined
            ∨ ∃ q z, get_prop cookie "expiry" = VNum (Fin q) ∧ Qeq q (inject_Z z)
                     ∧ (0 ≤ z ≤ 2 ^ 53 - 1)%Z) as Hexpiry.
  { unfold isValidExpiry. rewrite orb_true_iff, strict_equals_undefined.
    apply or_iff_compat_l.
    destruct (as_integer (get_prop cookie "expiry")) as [z|] eqn:Hz.
    - apply as_integer_spec in Hz as (q & Hq & Hqz).
      rewrite andb_true_iff, !bool_decide_eq_true. unfold MAX_SAFE_INTEGER. split.
      + intros [? ?]. exists q, z. by repeat split.
      + intros (q' & z' & Hq' & Hqz' & ? & ?).
        assert (z' = z) as ->; [|done].
        rewrite Hq in Hq'. injection Hq' as <-.
        rewrite Hqz in Hqz'. symmetry. by apply (proj1 (inject_Z_injective z z')).
    - split; [done|]. intros (q & z & Hq & Hqz & _).
      assert (as_integer (get_prop cookie "expiry") = Some z) as Habs.
      { apply as_integer_spec. eauto. }
      congruence. }
  rewrite <- Hname, <- Hvalue, <- Hexpiry.
  unfold isValidHttpOnly, isValidSecure.
  rewrite <- !optional_boolean.
  destruct (isValidName _), (isValidValue _); simpl.
  - rewrite !andb_true_iff. tauto.
  - split; [done|]. by intros (_ & ? & _).
  - split; [done|]. by intros (? & _).
  - split; [done|]. by intros (? & _).
Qed.

(** ** The properties at sample inputs *)

(** Two disjoint sets merge into their union; two sets that both name the
    browser do not merge. *)
Lemma mergeCapabilities_union_example :
  (∃ r, mergeCapabilities [("browserName", VStr "pluma")]
          (Some [("acceptInsecureCerts", VBool true)]) = Ok r
        ∧ obj_map r = obj_map [("browserName", VStr "pluma")]
                      ∪ obj_map [("acceptInsecureCerts", VBool true)])
  ∧ mergeCapabilities [("browserName", VStr "pluma")]
      (Some [("browserName", VStr "chrome")]) = Throw InvalidArgument.
Proof.
  split.
  - apply (mergeCapabilities_union [("browserName", VStr "pluma")]
             [("acceptInsecureCerts", VBool true)]).
    + by apply (bool_decide_unpack _).
    + by apply (bool_decide_unpack _).
    + intros (k & Hk1 & Hk2). apply list_elem_of_singleton in Hk1 as ->.
      apply list_elem_of_singleton in Hk2. discriminate.
  - apply (mergeCapabilities_union [("browserName", VStr "pluma")]
             [("browserName", VStr "chrome")]).
    + by apply (bool_decide_unpack _).
    + by apply (bool_decide_unpack _).
    + exists "browserName". split; apply list_elem_of_singleton; reflexivity.
Defined.

(** The two examples of the spec, on a new session: [{pageLoad: -1}] is
    refused and changes nothing, [{implicit: 500}] changes [implicit] only. *)
Lemma setTimeouts_examples :
  setTimeouts validateTimeouts_spec Session_new [("pageLoad", of_int (-1))]
  = (Throw InvalidArgument, Session_new)
  ∧ ∃ this', setTimeouts validateTimeouts_spec Session_new [("implicit", of_int 500)]
             = (Ok (), this')
      ∧ obj_get "implicit" (timeouts this') = Some (of_int 500)
      ∧ obj_get "pageLoad" (timeouts this') = Some (of_int 30000)
      ∧ obj_get "script" (timeouts this') = Some (of_int 3000).
Proof.
  split.
  - apply (setTimeouts_all_or_nothing validateTimeouts_spec Session_new
             [("pageLoad", of_int (-1))] validateTimeouts_spec_valid).
    exists "pageLoad". split; [apply list_elem_of_singleton; reflexivity|].
    intros (z & Hz & Hrange). vm_compute in Hz. injection Hz as <-. lia.
  - destruct (setTimeouts_all_or_nothing validateTimeouts_spec Session_new
                [("implicit", of_int 500)] validateTimeouts_spec_valid) as [_ Hok].
    destruct Hok as (this' & Hcall & Hgiven & Hkept & _).
    + intros key Hkey. apply list_elem_of_singleton in Hkey as ->.
      exists 500%Z. split; [reflexivity | lia].
    + exists this'. split; [done|]. split; [|split].
      * apply (Hgiven "implicit"). apply list_elem_of_singleton. reflexivity.
      * rewrite (Hkept "pageLoad"); [reflexivity|].
        intros Hin. apply list_elem_of_singleton in Hin. discriminate.
      * rewrite (Hkept "script"); [reflexivity|].
        intros Hin. apply list_elem_of_singleton in Hin. discriminate.
Defined.

(** [strictSSL: false] leaves [strictSSL] true. *)
Lemma Browser_options_strictSSL_false :
  "strictSSL" ∈ ["runScripts"; "strictSSL"; "unhandledPromptBehaviour";
                 "rejectPublicSuffixes"]
  ∧ get_prop (Browser_browserOptions [("strictSSL", VBool false); ("runScripts", VStr "")])
             "strictSSL" = VBool true.
Proof.
  split; [list_member|].
  apply (Browser_options_truthy_only
           [("strictSSL", VBool false); ("runScripts", VStr "")] "strictSSL").
  list_member.
Defined.

(** The two requests of the theorem, with the sample validator. *)
Lemma processCapabilities_last_entry_decides_sample :
  processCapabilities sample_runtime sample_validate
    (request_firstMatch [VObj [("browserName", VStr "pluma")];
                         VObj [("browserName", VStr "chrome")]])
  = Throw SessionNotCreated
  ∧ processCapabilities sample_runtime sample_validate
      (request_firstMatch [VObj [("acceptInsecureCerts", VBool true)]; VObj []])
    = Ok (Some (implementation_capabilities sample_runtime)).
Proof.
  destruct (processCapabilities_last_entry_decides sample_runtime sample_validate)
    as [[_ H1] (_ & _ & H2)]; [reflexivity..|].
  split; [exact H1 | exact H2].
Defined.

(** A number as the browser name: dropped from [firstMatch], refused in
    [alwaysMatch]. *)
Lemma firstMatch_invalid_key_is_dropped_sample :
  sample_validate (of_int 123) "browserName" = false
  ∧ processCapabilities sample_runtime sample_validate
      (request_firstMatch [VObj [("browserName", of_int 123)]])
    = Ok (Some (implementation_capabilities sample_runtime))
  ∧ processCapabilities sample_runtime sample_validate
      (request_alwaysMatch [("browserName", of_int 123)])
    = Throw InvalidArgument.
Proof.
  split; [reflexivity|].
  apply (firstMatch_invalid_key_is_dropped sample_runtime sample_validate
           "browserName" (of_int 123)); [|reflexivity].
  unfold defaultCapabilities. list_member.
Defined.

(** The strategy [id]. *)
Lemma elementRetrieval_unknown_strategy_sample :
  ("id" ∉ ["css selector"; "link text"; "partial link text"; "tag name"; "xpath"])
  ∧ ∃ e, elementRetrieval sample_runtime sample_clock sample_node "id" "main" 1 Session_new
         = Some (Throw e, Session_new, {| clock_reads := 1; iterations := 1 |})
         ∧ e ≠ InvalidArgument
         ∧ e ∈ [ReferenceError "DOMException"; ReferenceError "XPathException";
                ReferenceError "UnknownError"; UnknownError].
Proof.
  assert ("id" ∉ ["css selector"; "link text"; "partial link text"; "tag name"; "xpath"])
    as Hid.
  { intros Hin. list_absurd Hin. }
  split; [exact Hid|].
  apply (elementRetrieval_unknown_strategy sample_runtime sample_clock sample_node
           "id" "main" 0 Session_new Hid).
Defined.

(** The document has the link [foo], and the link text [foo] finds
    nothing. *)
Lemma elementRetrieval_linkText_sample :
  innerHTML sample_anchor = "foo"
  ∧ querySelectorAll sample_node "a" = Ok [sample_anchor]
  ∧ elementRetrieval sample_runtime sample_clock sample_node "link text" "foo" 1
      Session_new
    = Some (Ok [], Session_new, {| clock_reads := 2; iterations := 1 |}).
Proof.
  split; [reflexivity|]. split; [reflexivity|].
  apply (elementRetrieval_linkText_empty sample_runtime sample_clock sample_node
           "link text" "foo" [sample_anchor] Session_new).
  - list_member.
  - reflexivity.
  - reflexivity.
Defined.

(** A selector without a match, with an implicit timeout of 200 ms. *)
Lemma elementRetrieval_does_not_wait_sample :
  querySelectorAll sample_node "#missing" = Ok []
  ∧ get_prop (timeouts sample_session) "implicit" = of_int 200
  ∧ (∀ clock clock' : nat → Z,
       endTime_of sample_runtime clock sample_session
       = endTime_of sample_runtime clock' sample_session)
  ∧ ∃ T0 : Z, ∀ (clock : nat → Z) (fuel : nat),
      (∀ k, (T0 ≤ clock k)%Z) →
      elementRetrieval sample_runtime clock sample_node "css selector" "#missing"
        (S fuel) sample_session
      = Some (Ok [], sample_session, {| clock_reads := 2; iterations := 1 |}).
Proof.
  split; [reflexivity|]. split; [reflexivity|].
  apply (elementRetrieval_does_not_wait sample_runtime sample_node "#missing"
           sample_session); reflexivity.
Defined.

(** A cookie that expires in 2030. *)
Lemma getCookies_expiry_is_NaN_sample :
  obj_get "expires" sample_jar_cookie = Some (VStr "2030-01-01T00:00:00.000Z")
  ∧ obj_get "expiry"
      (convert_cookie sample_runtime sample_jar_cookie) = Some (VNum NaN).
Proof.
  split; [reflexivity|].
  apply (getCookies_expiry_is_NaN sample_runtime
           {| window_open := true; document_URL := "http://example.com/";
              cookieJar := [sample_jar_cookie] |} sample_jar_cookie).
  - apply list_elem_of_singleton. reflexivity.
  - unfold sample_jar_cookie. simpl. list_member.
  - intros Hin. unfold sample_jar_cookie in Hin. simpl in Hin.
    list_absurd Hin.
Defined.

(** A cookie for [.example.com] with an explicit [secure: false], and one
    with an expiry: the object made for the jar from the second has the date
    under the index [0] and neither [expires] nor [expiry]. *)
Lemma addCookie_strips_domain_dot_sample :
  (∃ browser',
     addCookie sample_runtime sample_extractDomain VNull sample_browser
       [("name", VStr "x"); ("value", VStr "y"); ("domain", VStr ".example.com");
        ("secure", VBool false)]
     = Ok browser'
     ∧ ∃ c, c ∈ getCookies sample_runtime browser'
            ∧ get_prop c "name" = VStr "x"
            ∧ get_prop c "domain" = VStr "example.com")
  ∧ (let options :=
       cookie_options sample_runtime
         (createCookieJarOptions
            [("name", VStr "x"); ("value", VStr "y"); ("domain", VStr "example.com");
             ("expiry", of_int 2000000000)]
            "example.com") in
     isValidCookie [("name", VStr "x"); ("value", VStr "y");
                    ("domain", VStr ".example.com"); ("expiry", of_int 2000000000)]
     = true
     ∧ obj_get "expiry" options = None
     ∧ obj_get "expires" options = None
     ∧ obj_get "0" options = Some (VDate (Some 2000000000%Z))).
Proof.
  split.
  - pose proof (addCookie_strips_domain_dot sample_runtime sample_extractDomain VNull
                  sample_browser
                  [("name", VStr "x"); ("value", VStr "y");
                   ("domain", VStr ".example.com"); ("secure", VBool false)]
                  "example.com" eq_refl eq_refl) as H.
    destruct H as (_ & Hadd & _ & _ & Hget & _).
    + by apply (bool_decide_unpack _).
    + reflexivity.
    + reflexivity.
    + eexists. split; [exact Hadd|]. apply Hget. reflexivity.
  - pose proof (addCookie_strips_domain_dot sample_runtime sample_extractDomain VNull
                  sample_browser
                  [("name", VStr "x"); ("value", VStr "y");
                   ("domain", VStr ".example.com"); ("expiry", of_int 2000000000)]
                  "example.com" eq_refl eq_refl) as H.
    destruct H as (_ & _ & _ & _ & _ & _ & [(Hexpiry & Hexpires & Hindex) _] & _).
    + by apply (bool_decide_unpack _).
    + reflexivity.
    + reflexivity.
    + split; [reflexivity|]. split; [exact Hexpiry|]. split; [exact Hexpires|].
      apply Hindex; reflexivity.
Defined.

(** Setting [implicit] to 500 on a new session, twice. *)
Lemma setTimeouts_getTimeouts_example :
  let this' :=
    with_timeouts Session_new
      [("implicit", of_int 500); ("pageLoad", of_int 30000); ("script", of_int 3000)] in
  setTimeouts validateTimeouts_spec Session_new [("implicit", of_int 500)] = (Ok (), this')
  ∧ getTimeouts this'
    = [("implicit", of_int 500); ("pageLoad", of_int 30000); ("script", of_int 3000)]
  ∧ setTimeouts validateTimeouts_spec this' [("implicit", of_int 500)] = (Ok (), this').
Proof.
  intros this'. split; [reflexivity|]. split; [reflexivity|].
  apply (setTimeouts_getTimeouts validateTimeouts_spec Session_new this'
           [("implicit", of_int 500)]).
  reflexivity.
Defined.

(** A request for pluma with insecure certificates accepted matches, one
    for chrome does not. *)
Lemma matchCapabilities_cases_sample :
  matchCapabilities sample_runtime
    [("browserName", VStr "pluma"); ("acceptInsecureCerts", VBool true)]
  = Ok (Some [("browserName", VStr "pluma"); ("browserVersion", VStr "v1.0");
              ("platformName", VStr "linux"); ("acceptInsecureCerts", VBool true);
              ("setWindowRect", VBool false)])
  ∧ matchCapabilities sample_runtime [("browserName", VStr "chrome")] = Ok None.
Proof.
  split.
  - etrans; [apply matchCapabilities_cases; by apply (bool_decide_unpack _)|].
    reflexivity.
  - etrans; [apply matchCapabilities_cases; by apply (bool_decide_unpack _)|].
    reflexivity.
Defined.

Lemma processCapabilities_reports_implementation_sample :
  ∃ m, processCapabilities sample_runtime sample_validate sample_request = Ok (Some m)
       ∧ get_prop m "browserName" = VStr "pluma"
       ∧ get_prop m "platformName" = VStr "linux".
Proof.
  destruct (processCapabilities_reports_implementation sample_runtime sample_validate
              sample_request
              (Some [("browserName", VStr "pluma"); ("browserVersion", VStr "v1.0");
                     ("platformName", VStr "linux");
                     ("acceptInsecureCerts", VBool false);
                     ("setWindowRect", VBool false);
                     ("pageLoadStrategy", VStr "eager");
                     ("timeouts", VObj [("implicit", of_int 500)])])
              eq_refl) as (m & Hm & Hname & _ & Hplatform & _).
  exists m. split; [by rewrite <- Hm|]. split; [exact Hname | exact Hplatform].
Defined.

(** An entry with a number as the browser name and a boolean for the
    certificates: the first is dropped, the second is kept. *)
Lemma firstMatch_entry_is_filtered_sample :
  validate_firstMatch_entry sample_validate
    (VObj [("browserName", of_int 123); ("acceptInsecureCerts", VBool true)])
  = Ok [("acceptInsecureCerts", VBool true)].
Proof.
  etrans; [apply firstMatch_entry_is_filtered; by apply (bool_decide_unpack _)|].
  reflexivity.
Defined.

(** The sample request on a new session: the strategy and the implicit
    timeout are the requested ones, the other two timeouts are the
    constructor's. *)
Lemma configureCapabilties_returns_sample :
  configureCapabilties sample_runtime sample_validate Session_new sample_request
  = (Ok sample_configured, sample_configured_session)
  ∧ ∃ negotiated,
      processCapabilities sample_runtime sample_validate sample_request
      = Ok (Some negotiated)
      ∧ get_prop sample_configured "pageLoadStrategy" = VStr "eager"
      ∧ get_prop sample_configured "timeouts"
        = VObj [("implicit", of_int 500); ("pageLoad", of_int 30000);
                ("script", of_int 3000)].
Proof.
  split; [reflexivity|].
  destruct (configureCapabilties_returns sample_runtime sample_validate
              Session_new sample_configured_session sample_request sample_configured
              eq_refl) as (negotiated & Hneg & Hpls & _ & _ & Htimeouts & _).
  exists negotiated. split; [exact Hneg|]. split; [exact Hpls | exact Htimeouts].
Defined.

(** The link of the sample document, found by the css selector [a]. *)
Lemma elementRetrieval_found_at_once_sample :
  elementRetrieval sample_runtime sample_clock sample_node "css selector" "a" 1
    sample_session
  = Some (Ok [WebElement_new sample_anchor],
          with_knownElements sample_session [WebElement_new sample_anchor],
          {| clock_reads := 2; iterations := 1 |}).
Proof.
  apply (elementRetrieval_found_at_once sample_runtime sample_clock sample_node
           "a" [sample_anchor] 0 sample_session).
  - reflexivity.
  - discriminate.
Defined.

(** The selector [a[], rejected by the document with an exception of its
    own: on a runtime that binds DOMException the call throws a
    ReferenceError for XPathException, on one that does not, for
    DOMException. *)
Lemma elementRetrieval_invalid_selector_sample :
  elementRetrieval sample_runtime_DOMException sample_clock sample_strict_node
    "css selector" "a[" 1 sample_session
  = Some (Throw (ReferenceError "XPathException"), sample_session,
          {| clock_reads := 1; iterations := 1 |})
  ∧ elementRetrieval sample_runtime sample_clock sample_strict_node
      "css selector" "a[" 1 sample_session
    = Some (Throw (ReferenceError "DOMException"), sample_session,
            {| clock_reads := 1; iterations := 1 |}).
Proof.
  split.
  - apply (elementRetrieval_invalid_selector sample_runtime_DOMException sample_clock
             sample_strict_node "a[" (DocumentException "SyntaxError") 0 sample_session).
    + reflexivity.
    + intros Hin. list_absurd Hin.
  - apply (elementRetrieval_invalid_selector sample_runtime sample_clock
             sample_strict_node "a[" (DocumentException "SyntaxError") 0 sample_session).
    + reflexivity.
    + intros Hin. list_absurd Hin.
Defined.

(** A deadline of 1000 on a clock that reads 400, 800, 1200: three passes,
    and two are not enough. *)
Lemma elementRetrieval_polls_until_deadline_sample :
  elementRetrieval sample_parsing_runtime sample_ticking_clock sample_node
    "css selector" "#missing" 3 Session_new
  = Some (Ok [], Session_new, {| clock_reads := 4; iterations := 3 |})
  ∧ elementRetrieval sample_parsing_runtime sample_ticking_clock sample_node
      "css selector" "#missing" 2 Session_new
    = None.
Proof.
  assert (∀ k, 1 ≤ k ≤ 2 →
               date_gt (endTime_of sample_parsing_runtime sample_ticking_clock Session_new)
                       (Some (sample_ticking_clock k)) = true) as Hahead.
  { intros k Hk. destruct k as [|[|[|k]]]; [lia|reflexivity|reflexivity|lia]. }
  split.
  - apply (elementRetrieval_polls_until_deadline sample_parsing_runtime
             sample_ticking_clock sample_node "#missing" 2 Session_new);
      [reflexivity | exact Hahead | reflexivity].
  - apply (elementRetrieval_polls_until_deadline sample_parsing_runtime
             sample_ticking_clock sample_node "#missing" 2 Session_new);
      [reflexivity | exact Hahead | reflexivity].
Defined.

(** The link of the sample document, looked up by its tag name [a]: a
    TypeError, and no element is known afterwards. *)
Lemma elementRetrieval_tagName_throws_sample :
  getElementsByTagName sample_node "a" = Ok [sample_anchor]
  ∧ elementRetrieval sample_runtime sample_clock sample_node "tag name" "a" 1
      sample_session
    = Some (Throw TypeError, sample_session, {| clock_reads := 2; iterations := 1 |}).
Proof.
  split; [reflexivity|].
  destruct (elementRetrieval_tagName_throws sample_runtime sample_clock sample_node
              "a" [sample_anchor] sample_session eq_refl) as (_ & Hfound & _).
  apply Hfound. discriminate.
Defined.

(** On the sample page a cookie with a number as its domain ends in a
    TypeError, and a cookie with a name and a value is stored. *)
Lemma addCookie_rejections_sample :
  addCookie sample_runtime sample_extractDomain VUndefined sample_browser
    [("name", VStr "x"); ("value", VStr "y"); ("domain", of_int 5)]
  = Throw TypeError
  ∧ ∃ this', addCookie sample_runtime sample_extractDomain VUndefined sample_browser
               [("name", VStr "x"); ("value", VStr "y")]
             = Ok this'
             ∧ window_open this' = true
             ∧ document_URL this' = "http://example.com/".
Proof.
  split.
  - apply (addCookie_rejections sample_runtime sample_extractDomain VUndefined
             sample_browser
             [("name", VStr "x"); ("value", VStr "y"); ("domain", of_int 5)]);
      [by apply (bool_decide_unpack _) | reflexivity..].
  - destruct (addCookie_rejections sample_runtime sample_extractDomain VUndefined
                sample_browser [("name", VStr "x"); ("value", VStr "y")])
      as (_ & _ & _ & _ & Hstored); [by apply (bool_decide_unpack _)|].
    destruct Hstored as (this' & Hok & Hwindow & Hurl & _); [reflexivity..|].
    exists this'. split; [exact Hok|]. split; [exact Hwindow | exact Hurl].
Defined.

(** A cookie that expires at 2000000000: the date is under the index 0. *)
Lemma addCookie_renamed_fields_sample :
  let options :=
    cookie_options sample_runtime
      (createCookieJarOptions
         [("name", VStr "x"); ("value", VStr "y"); ("expiry", of_int 2000000000)]
         "example.com") in
  obj_get "key" options = Some (VStr "x")
  ∧ obj_get "0" options = Some (VDate (Some 2000000000%Z))
  ∧ obj_get "expires" options = None
  ∧ obj_get "expiry" options = None.
Proof.
  destruct (addCookie_renamed_fields sample_runtime
              [("name", VStr "x"); ("value", VStr "y"); ("expiry", of_int 2000000000)]
              "example.com")
    as (_ & Hexpiry & Hkey & Hexpires & Hindex); [by apply (bool_decide_unpack _)|].
  split; [exact Hkey|]. split; [exact Hindex|]. split; [exact Hexpires | exact Hexpiry].
Defined.

(** A new session configured from an empty [firstMatch] entry. *)
Lemma new_session_reports_default_timeouts_sample :
  ∃ this' capabilities,
    configureSession sample_runtime sample_validate "5c6f9d80" Session_new
      (request_firstMatch [VObj []])
    = (Ok (sample_body "5c6f9d80"), this')
    ∧ get_prop (sample_body "5c6f9d80") "capabilities" = VObj capabilities
    ∧ get_prop capabilities "timeouts"
      = VObj [("implicit", of_int 0); ("pageLoad", of_int 30000);
              ("script", of_int 3000)].
Proof.
  set (this' := {| id := "5c6f9d80"; timeouts := timeouts Session_new;
                   pageLoadStrategy := "normal"; webDriverActive := false;
                   knownElements := [] |}).
  destruct (new_session_reports_default_timeouts sample_runtime sample_validate
              "5c6f9d80" (request_firstMatch [VObj []]) (sample_body "5c6f9d80") this'
              eq_refl) as (negotiated & capabilities & Hneg & Hbody & Hdefault).
  exists this', capabilities. split; [reflexivity|]. split; [exact Hbody|].
  apply Hdefault.
  assert (Some negotiated = Some (implementation_capabilities sample_runtime)) as [= ->].
  { injection Hneg as <-. reflexivity. }
  reflexivity.
Defined.

(** A number as the browser name in [alwaysMatch] is refused; an unknown
    key beside a valid one is left out. *)
Lemma alwaysMatch_keeps_recognised_keys_sample :
  validate_alwaysMatch sample_validate (VObj [("browserName", of_int 123)])
  = Throw InvalidArgument
  ∧ ∃ required,
      validate_alwaysMatch sample_validate
        (VObj [("browserName", VStr "pluma"); ("vendor:option", VBool true)])
      = Ok required
      ∧ obj_get "browserName" required = Some (VStr "pluma")
      ∧ obj_get "vendor:option" required = None.
Proof.
  split.
  - apply (alwaysMatch_keeps_recognised_keys sample_validate
             [("browserName", of_int 123)]).
    exists "browserName", (of_int 123). repeat split. unfold defaultCapabilities. list_member.
  - destruct (alwaysMatch_keeps_recognised_keys sample_validate
                [("browserName", VStr "pluma"); ("vendor:option", VBool true)])
      as [_ Hok].
    destruct Hok as (required & Hrequired & _ & Hget).
    { intros k v Hk Hv. unfold defaultCapabilities in Hk.
      list_cases Hk; simpl in Hv; try discriminate. by injection Hv as <-. }
    exists required. split; [exact Hrequired|]. split; apply Hget.
Defined.

(** A request without capabilities on a new session: the session has the
    new id and the call has thrown. *)
Lemma configureSession_outcomes_sample :
  configureSession sample_runtime sample_validate "5c6f9d80" Session_new (VObj [])
  = (Throw InvalidArgument, with_id Session_new "5c6f9d80")
  ∧ ∃ capabilities,
      sample_body "5c6f9d80"
      = [("sessionId", VStr "5c6f9d80"); ("capabilities", VObj capabilities)]
      ∧ get_prop capabilities "pageLoadStrategy" = VStr "normal".
Proof.
  destruct (configureSession_outcomes sample_runtime sample_validate "5c6f9d80"
              Session_new (VObj [])) as [Hthrow _].
  destruct (configureSession_outcomes sample_runtime sample_validate "5c6f9d80"
              Session_new (request_firstMatch [VObj []])) as [_ Hok].
  split; [by apply Hthrow|].
  destruct (Hok (sample_body "5c6f9d80")
                {| id := "5c6f9d80"; timeouts := timeouts Session_new;
                   pageLoadStrategy := "normal"; webDriverActive := false;
                   knownElements := [] |} eq_refl)
    as (capabilities & Hbody & _ & _ & Hpls & _).
  exists capabilities. split; [exact Hbody | exact Hpls].
Defined.

(** Two handles with one identifier: the later one is answered. *)
Lemma getKnownElement_last_registered_sample :
  getKnownElement sample_ELEMENT_of
    [WebElement_new sample_anchor; WebElement_new sample_button] "foo"
  = Answer (WebElement_new sample_button)
  ∧ getKnownElement sample_ELEMENT_of [WebElement_new sample_anchor] "bar"
    = Raise NoSuchElement.
Proof.
  split.
  - etrans; [apply getKnownElement_last_registered | reflexivity].
  - etrans; [apply getKnownElement_last_registered | reflexivity].
Defined.

(** The sample cookie is found under its name; another name is not, also
    on a page whose address does not parse. *)
Lemma getNamedCookie_outcomes_sample :
  (∃ cookie,
     getNamedCookie sample_runtime sample_URL_new sample_RegExp_test
       sample_browser_with_cookie "x"
     = Answer cookie
     ∧ get_prop cookie "name" = VStr "x"
     ∧ isAssociatedCookie sample_runtime sample_URL_new sample_RegExp_test
         sample_browser_with_cookie cookie = Ok true)
  ∧ getNamedCookie sample_runtime (λ _, Throw TypeError) sample_RegExp_test
      sample_browser_with_cookie "z"
    = Raise NoSuchCookie.
Proof.
  split.
  - destruct (getNamedCookie_outcomes sample_runtime sample_URL_new sample_RegExp_test
                sample_browser_with_cookie "x") as [Hanswer _].
    destruct (Hanswer (convert_cookie sample_runtime sample_jar_cookie) eq_refl)
      as (before & after & _ & Hname & Hassociated & _).
    exists (convert_cookie sample_runtime sample_jar_cookie).
    split; [reflexivity|]. split; [exact Hname | exact Hassociated].
  - apply (getNamedCookie_outcomes sample_runtime (λ _, Throw TypeError)
             sample_RegExp_test sample_browser_with_cookie "z").
    repeat constructor. discriminate.
Defined.

(** A cookie with a name, a value, a boolean and an expiry of 10 is
    valid. *)
Lemma isValidCookie_accepts_sample :
  isValidCookie [("name", VStr "x"); ("value", VStr "y"); ("secure", VBool true);
                 ("expiry", of_int 10)] = true.
Proof.
  destruct (isValidCookie_accepts
              [("name", VStr "x"); ("value", VStr "y"); ("secure", VBool true);
               ("expiry", of_int 10)]) as [[_ Hvalid] _].
  apply Hvalid.
  split; [by exists "x"|]. split; [by exists "y"|]. split; [by left|].
  split; [right; by exists true|].
  right. exists (inject_Z 10), 10%Z. split; [reflexivity|]. split; [reflexivity|]. lia.
Defined.
